(** * compgraph: a shallow embedding of the row-stream operators

    Rows are Python dicts from column names to values; a row stream is a
    single-pass generator.  A generator that is run to its end is described
    by the rows it yields followed by the way it stops: normally, or with an
    exception.  Operators are written over these traces, with the state of
    [itertools.groupby] passed explicitly. *)

From stdpp Require Import gmap strings list fin_maps sorting.
From Stdlib Require Import ZArith Lia.

(** ** Values, rows, exceptions *)

(** Column values.  The pipelines of [algorithms.py] also use floats and
    coordinate lists; integers and strings are what the keys of the
    operators below are made of. *)
Inductive value : Type :=
| VInt (z : Z)
| VStr (s : string).

#[global] Instance value_eq_dec : EqDecision value.
Proof. solve_decision. Defined.

(** [TRow = dict[str, Any]]; dict equality ignores insertion order, as
    equality of finite maps does. *)
Abbreviation row := (gmap string value).

Inductive exn : Type :=
| KeyError
| TypeError
| IndexError
| EmptyOperation
| UserError (tag : string).

#[global] Instance exn_eq_dec : EqDecision exn.
Proof. solve_decision. Defined.

Inductive res (A : Type) : Type :=
| Ok (a : A)
| Err (e : exn).
Arguments Ok {A} a.
Arguments Err {A} e.

(** The rows a generator yields, then [None] for a normal end
    ([StopIteration]) or [Some e] for the exception that ends it. *)
Definition trace : Type := list row * option exn.

Definition emit (out : list row) (t : trace) : trace := (out ++ t.1, t.2).

(** [t] runs, then [k] runs if [t] ended normally. *)
Definition and_then (t k : trace) : trace :=
  match t.2 with
  | None => emit t.1 k
  | Some e => t
  end.

(** ** Keys and their comparison *)

(** [[row[k] for k in self.keys]]; [None] stands for the [KeyError] of a
    missing column. *)
Definition keyfunc (keys : list string) (r : row) : option (list value) :=
  mapM (λ k, r !! k) keys.

(** [x < y] on values: integers by value, strings lexicographically, and a
    [TypeError] between an integer and a string. *)
Definition value_lt (x y : value) : res bool :=
  match x, y with
  | VInt a, VInt b => Ok (a <? b)%Z
  | VStr s, VStr t => Ok (String.ltb s t)
  | _, _ => Err TypeError
  end.

(** [a < b] on lists: the first position where the items differ (by [==])
    decides; a proper prefix is smaller. *)
Fixpoint list_lt (a b : list value) : res bool :=
  match a, b with
  | [], [] => Ok false
  | [], _ :: _ => Ok true
  | _ :: _, [] => Ok false
  | x :: a', y :: b' =>
      if bool_decide (x = y) then list_lt a' b' else value_lt x y
  end.

(** ** Generator bodies that read one row iterator

    A reducer, and a joiner once it has materialised its right rows, is a
    generator that pulls rows from an iterator one at a time, yields rows
    in between, and does not pull again once the iterator is exhausted (a
    [for] loop, a comprehension, [yield from], [heapq.nlargest]).  [init]
    is what it does before the first pull, [on_row] what it does with a
    pulled row, [on_end] what it does once the iterator is exhausted.  A
    phase ends by pulling again ([inl], with the state of the generator)
    or by leaving the generator ([inr]: [return], [break], or an
    exception).

    No reducer and no joiner of the repository has a [try] statement, so
    a body is left with the exception its iterator raises.  A generator
    that catches such an exception and goes on is not a [rowgen]: what is
    said below of a stream that raises is said of the reducers and joiners
    of the repository, not of every Python callable. *)
Inductive phase (St : Type) : Type :=
| Phase (out : list row) (next : St + option exn).
Arguments Phase {St} out next.

Record rowgen : Type := RowGen {
  St : Type;
  init : phase St;
  on_row : St → row → phase St;
  on_end : St → trace;
}.

(** [yield from rows] *)
Definition yield_from : rowgen :=
  {| St := unit;
     init := Phase [] (inl ());
     on_row := λ _ r, Phase [r] (inl ());
     on_end := λ _, ([], None) |}.

(** A generator body run on an iterator whose remaining behaviour is the
    trace [(rows, fin)]: an exception of the iterator passes through the
    body, which has no [try] statement. *)
Fixpoint feed (c : rowgen) (st : St c) (rows : list row) (fin : option exn)
  : trace :=
  match rows with
  | [] => match fin with
          | None => on_end c st
          | Some e => ([], Some e)
          end
  | r :: rs =>
      match on_row c st r with
      | Phase out (inl st') => emit out (feed c st' rs fin)
      | Phase out (inr e) => (out, e)
      end
  end.

Definition run_on (c : rowgen) (t : trace) : trace :=
  match init c with
  | Phase out (inl st) => emit out (feed c st t.1 t.2)
  | Phase out (inr e) => (out, e)
  end.

(** ** [itertools.groupby]

    The state of a [groupby] object, after the class given as its
    equivalent in the Python documentation: the underlying iterator [it],
    and [tgtkey], [currkey], [currvalue], which all start as one sentinel
    object ([GbFresh]). *)
Inductive groupby : Type :=
| GbFresh (it : trace)
| GbAt (it : trace) (tgtkey currkey : list value) (currvalue : row).

Inductive gb_next : Type :=
| GbGroup (k : list value) (g : groupby)
| GbStop
| GbRaise (e : exn).

Section groupby.
Context (keys : list string).

(** The loop of [__next__]:
    [while self.currkey == self.tgtkey:
         self.currvalue = next(self.it)
         self.currkey = self.keyfunc(self.currvalue)]
    entered with [currkey == tgtkey]. *)
Fixpoint groupby_scan (tgt : option (list value)) (rows : list row)
    (fin : option exn) : gb_next :=
  match rows with
  | [] => match fin with
          | None => GbStop
          | Some e => GbRaise e
          end
  | r :: rs =>
      match keyfunc keys r with
      | None => GbRaise KeyError
      | Some k =>
          if bool_decide (Some k = tgt) then groupby_scan tgt rs fin
          else GbGroup k (GbAt (rs, fin) k k r)
      end
  end.

(** [groupby.__next__]: the key of the next group; the group iterator is
    the [_grouper] of the returned state. *)
Definition groupby_next (g : groupby) : gb_next :=
  match g with
  | GbFresh it => groupby_scan None it.1 it.2
  | GbAt it tgt ck cv =>
      if bool_decide (ck = tgt) then groupby_scan (Some tgt) it.1 it.2
      else GbGroup ck (GbAt it ck ck cv)
  end.

(** The generator body [c] pulling from [_grouper] after its first
    [yield]:
    [try: self.currvalue = next(self.it)
     except StopIteration: return
     self.currkey = self.keyfunc(self.currvalue)]
    and the loop test [self.currkey == tgtkey].  The result is what [c]
    yields and the state the [groupby] object is left in.  A [KeyError]
    of the key function and an exception of the stream leave [c], which
    has no [try] statement, and so end the group. *)
Fixpoint grouper_feed (c : rowgen) (tgt ck : list value) (cv : row)
    (st : St c) (rows : list row) (fin : option exn) : trace * groupby :=
  match rows with
  | [] => match fin with
          | None => (on_end c st, GbAt ([], None) tgt ck cv)
          | Some e => (([], Some e), GbAt ([], None) tgt ck cv)
          end
  | r :: rs =>
      match keyfunc keys r with
      | None => (([], Some KeyError), GbAt (rs, fin) tgt ck cv)
      | Some k =>
          if bool_decide (k = tgt) then
            match on_row c st r with
            | Phase out (inl st') =>
                let '(t, g) := grouper_feed c tgt k r st' rs fin in
                (emit out t, g)
            | Phase out (inr e) => ((out, e), GbAt (rs, fin) tgt k r)
            end
          else (on_end c st, GbAt (rs, fin) tgt k r)
      end
  end.

(** [c] run on the group iterator of [g], from the start of [_grouper]:
    [while self.currkey == tgtkey: yield self.currvalue; ...]. *)
Definition run_on_group (c : rowgen) (g : groupby) : trace * groupby :=
  match init c with
  | Phase out (inr e) => ((out, e), g)
  | Phase out (inl st) =>
      match g with
      | GbFresh _ => (emit out (on_end c st), g)
      | GbAt it tgt ck cv =>
          if bool_decide (ck = tgt) then
            match on_row c st cv with
            | Phase out' (inl st') =>
                let '(t, g') := grouper_feed c tgt ck cv st' it.1 it.2 in
                (emit (out ++ out') t, g')
            | Phase out' (inr e) => ((out ++ out', e), g)
            end
          else (emit out (on_end c st), g)
      end
  end.

(** [Join._get_next_group(groups)]: [next(groups)], or [None] on
    [StopIteration]; any other exception passes. *)
Definition get_next_group (g : groupby) : res (option (list value * groupby)) :=
  match groupby_next g with
  | GbGroup key g' => Ok (Some (key, g'))
  | GbStop => Ok None
  | GbRaise e => Err e
  end.

(** [x = self._get_next_group(groups)], then [k x]. *)
Definition with_next_group (g : groupby)
    (k : option (list value * groupby) → trace) : trace :=
  match get_next_group g with
  | Ok next => k next
  | Err e => ([], Some e)
  end.
End groupby.

(** ** Join *)

(** A joiner, once [all_rows_b = [row for row in rows_b]] has run, is a
    generator body over [rows_a]. *)
Definition Joiner : Type := list string → list row → rowgen.

(** [m[col'] = m.pop(col)] *)
Definition rename_col (col col' : string) (m : row) : row :=
  match m !! col with
  | Some v => <[col' := v]> (delete col m)
  | None => m
  end.

(** One pass of the body of [for row_b in all_rows_b]: the row yielded,
    and [row_a], which the body renames in place.
    [new_row = deepcopy(row_b)
     same_cols = set(new_row.keys()) & set(row_a.keys()) - set(keys)
     for col in same_cols:
         row_a[col + self._a_suffix] = row_a.pop(col)
         new_row[col + self._b_suffix] = new_row.pop(col)
     new_row.update(row_a)]
    ([-] binds tighter than [&]).  Python leaves the order of a set open;
    the columns of [same_cols] are taken in the order of [elements] here,
    which matters only when a renamed column meets another colliding
    column. *)
Definition merge_rows (a_suffix b_suffix : string) (keys : list string)
    (row_a row_b : row) : row * row :=
  let new_row := row_b in
  let same_cols : gset string :=
    dom new_row ∩ (dom row_a ∖ list_to_set keys) in
  let '(row_a, new_row) :=
    foldl (λ '(ra, nr) col,
             (rename_col col (col +:+ a_suffix) ra,
              rename_col col (col +:+ b_suffix) nr))
          (row_a, new_row) (elements same_cols) in
  (row_a, row_a ∪ new_row).

(** [for row_b in all_rows_b: ...; yield new_row], for one [row_a]. *)
Fixpoint product_rows (a_suffix b_suffix : string) (keys : list string)
    (row_a : row) (all_rows_b : list row) : list row :=
  match all_rows_b with
  | [] => []
  | row_b :: bs =>
      let '(row_a', new_row) := merge_rows a_suffix b_suffix keys row_a row_b in
      new_row :: product_rows a_suffix b_suffix keys row_a' bs
  end.

Definition InnerJoiner (a_suffix b_suffix : string) : Joiner :=
  λ keys all_rows_b,
    {| St := unit;
       init := Phase [] (inl ());
       on_row := λ _ row_a,
         Phase (product_rows a_suffix b_suffix keys row_a all_rows_b) (inl ());
       on_end := λ _, ([], None) |}.

(** The state of the loop over [rows_a] is the flag [a_empty]. *)
Definition OuterJoiner (a_suffix b_suffix : string) : Joiner :=
  λ keys all_rows_b,
    if bool_decide (length all_rows_b = 0) then yield_from
    else
      {| St := bool;
         init := Phase [] (inl true);
         on_row := λ _ row_a,
           Phase (product_rows a_suffix b_suffix keys row_a all_rows_b)
                 (inl false);
         on_end := λ a_empty, (if a_empty then all_rows_b else [], None) |}.

(** The loop of [LeftJoiner] over [rows_a] is that of [InnerJoiner]. *)
Definition LeftJoiner (a_suffix b_suffix : string) : Joiner :=
  λ keys all_rows_b,
    if bool_decide (length all_rows_b = 0) then yield_from
    else InnerJoiner a_suffix b_suffix keys all_rows_b.

Definition RightJoiner (a_suffix b_suffix : string) : Joiner :=
  λ keys all_rows_b,
    {| St := bool;
       init := Phase [] (inl true);
       on_row := λ _ row_a,
         Phase (product_rows a_suffix b_suffix keys row_a all_rows_b)
               (inl false);
       on_end := λ a_empty, (if a_empty then all_rows_b else [], None) |}.

Section Join.
Context (joiner : Joiner) (keys : list string).

(** [self.joiner(self.keys, left_next[1], right_next[1])]: the right
    group is read into a list first, then the left group is iterated. *)
Definition joiner_groups (lg rg : groupby) : trace * groupby * groupby :=
  let '(tb, rg') := run_on_group keys yield_from rg in
  match tb.2 with
  | Some e => (([], Some e), lg, rg')
  | None =>
      let '(t, lg') := run_on_group keys (joiner keys tb.1) lg in
      (t, lg', rg')
  end.

(** [self.joiner(self.keys, left_next[1], [])] *)
Definition joiner_left (lg : groupby) : trace * groupby :=
  run_on_group keys (joiner keys []) lg.

(** [self.joiner(self.keys, [], right_next[1])] *)
Definition joiner_right (rg : groupby) : trace * groupby :=
  let '(tb, rg') := run_on_group keys yield_from rg in
  match tb.2 with
  | Some e => (([], Some e), rg')
  | None => (run_on (joiner keys tb.1) ([], None), rg')
  end.

(** The three [while] loops of [Join.__call__] as one recursion on the
    pair [(left_next, right_next)]: the first loop runs while both are
    groups, the second while the left one is, the third while the right
    one is.  Every pass takes a group from one side at least, so
    [fuel] passes suffice when [fuel] exceeds the number of rows. *)
Fixpoint Join_loop (fuel : nat)
    (left_next right_next : option (list value * groupby)) : trace :=
  match fuel with
  | O => ([], None)
  | S fuel =>
      match left_next, right_next with
      | Some (kl, lg), Some (kr, rg) =>
          if bool_decide (kl = kr) then
            let '(t, lg', rg') := joiner_groups lg rg in
            and_then t
              (with_next_group keys lg' (λ ln,
               with_next_group keys rg' (λ rn, Join_loop fuel ln rn)))
          else
            match list_lt kl kr with
            | Err e => ([], Some e)
            | Ok true =>
                let '(t, lg') := joiner_left lg in
                and_then t
                  (with_next_group keys lg' (λ ln,
                     Join_loop fuel ln right_next))
            | Ok false =>
                let '(t, rg') := joiner_right rg in
                and_then t
                  (with_next_group keys rg' (λ rn,
                     Join_loop fuel left_next rn))
            end
      | Some (kl, lg), None =>
          let '(t, lg') := joiner_left lg in
          and_then t
            (with_next_group keys lg' (λ ln, Join_loop fuel ln None))
      | None, Some (kr, rg) =>
          let '(t, rg') := joiner_right rg in
          and_then t
            (with_next_group keys rg' (λ rn, Join_loop fuel None rn))
      | None, None => ([], None)
      end
  end.

(** [Join.__call__(rows, args[0])] *)
Definition Join_call (rows other : trace) : trace :=
  with_next_group keys (GbFresh rows) (λ left_next,
  with_next_group keys (GbFresh other) (λ right_next,
    Join_loop (S (length rows.1 + length other.1)) left_next right_next)).
End Join.



(** ** Reduce *)

(** A reducer is called as [reducer(tuple(self.keys), group)]. *)
Definition Reducer : Type := list string → rowgen.

Section Reduce.
Context (reducer : Reducer) (keys : list string).

(** [for _, group in groupby(rows, key=...):
        yield from self.reducer(tuple(self.keys), group)]
    Every pass takes one row at least from [rows], so [fuel] passes
    suffice when [fuel] exceeds the number of rows. *)
Fixpoint Reduce_loop (fuel : nat) (groups : groupby) : trace :=
  match fuel with
  | O => ([], None)
  | S fuel =>
      match groupby_next keys groups with
      | GbStop => ([], None)
      | GbRaise e => ([], Some e)
      | GbGroup _ g =>
          let '(t, g') := run_on_group keys (reducer keys) g in
          and_then t (Reduce_loop fuel g')
      end
  end.

(** [Reduce.__call__(rows)] *)
Definition Reduce_call (rows : trace) : trace :=
  Reduce_loop (S (length rows.1)) (GbFresh rows).
End Reduce.

(** [FirstReducer]: [for row in rows: yield row; break] *)
Definition FirstReducer : Reducer :=
  λ _, {| St := unit;
          init := Phase [] (inl ());
          on_row := λ _ r, Phase [r] (inr None);
          on_end := λ _, ([], None) |}.

(** [Count]: the state of the loop is [(row, new_row[self.column])];
    [row] starts as the empty dict. *)
Fixpoint copy_keys (group_key : list string) (r new_row : row) : res row :=
  match group_key with
  | [] => Ok new_row
  | key :: ks =>
      match r !! key with
      | Some v => copy_keys ks r (<[key := v]> new_row)
      | None => Err KeyError
      end
  end.

Definition Count (column : string) : Reducer :=
  λ group_key,
    {| St := row * Z;
       init := Phase [] (inl (∅, 0%Z));
       on_row := λ '(_, n) r, Phase [] (inl (r, (n + 1)%Z));
       on_end := λ '(r, n),
         match copy_keys group_key r {[ column := VInt n ]} with
         | Ok new_row => ([new_row], None)
         | Err e => ([], Some e)
         end |}.

(** ** Lists: runs of equal keys *)

Fixpoint take_while {A} (p : A → bool) (l : list A) : list A :=
  match l with
  | [] => []
  | x :: xs => if p x then x :: take_while p xs else []
  end.

Fixpoint drop_while {A} (p : A → bool) (l : list A) : list A :=
  match l with
  | [] => []
  | x :: xs => if p x then drop_while p xs else l
  end.

(** The maximal runs of consecutive elements with equal [f]-values. *)
Fixpoint runs_by {A K} `{EqDecision K} (f : A → K) (l : list A)
  : list (list A) :=
  match l with
  | [] => []
  | x :: xs =>
      match runs_by f xs with
      | (y :: ys) :: gs =>
          if decide (f x = f y) then (x :: y :: ys) :: gs
          else [x] :: (y :: ys) :: gs
      | _ => [[x]]
      end
  end.

(** No two neighbouring runs share their [f]-value. *)
Fixpoint runs_differ {A K} (f : A → K) (gs : list (list A)) : Prop :=
  match gs with
  | g1 :: ((g2 :: _) as rest) =>
      (∀ x y, head g1 = Some x → head g2 = Some y → f x ≠ f y)
      ∧ runs_differ f rest
  | _ => True
  end.

(** The concatenation of generator runs: the first exception ends it. *)
Definition chain (ts : list trace) : trace :=
  foldr and_then ([], None) ts.

(** ** Stable sorting, as [sorted] and [list.sort] do it

    [stable_insert before x l] puts [x], which precedes every element of
    [l] in the input, into the sorted [l]: behind the elements that sort
    strictly before it, in front of those that compare equal. *)
Fixpoint stable_insert {A} (before : A → A → bool) (x : A) (l : list A)
  : list A :=
  match l with
  | [] => [x]
  | y :: l' => if before y x then y :: stable_insert before x l' else x :: l
  end.

Definition stable_sort {A} (before : A → A → bool) (l : list A) : list A :=
  foldr (stable_insert before) [] l.

(** ** TopN *)

Definition same_type (x y : value) : bool :=
  match x, y with
  | VInt _, VInt _ => true
  | VStr _, VStr _ => true
  | _, _ => false
  end.

(** Some comparison among the values raises [TypeError]. *)
Definition mixed (vs : list value) : bool :=
  match vs with
  | [] => false
  | v :: vs' => negb (forallb (same_type v) vs')
  end.

Definition lt_bool (x y : value) : bool :=
  match value_lt x y with
  | Ok b => b
  | Err _ => false
  end.

(** [sorted(rows, key=key, reverse=True)[:n]] on rows decorated with their
    key: larger keys first, equal keys in input order. *)
Definition nlargest (n : Z) (decorated : list (value * row)) : list row :=
  (take (Z.to_nat n)
     (stable_sort (λ y x, lt_bool x.1 y.1) decorated)).*2.

(** [TopN.__call__]:
    [for row in heapq.nlargest(self.n, rows, key=lambda r: r[self.column_max]):
         yield row]
    [heapq.nlargest(n, rows, key)] is the standard library's; its result
    is, as documented, [sorted(rows, key=key, reverse=True)[:n]].  It
    reads no row when [n <= 0]; otherwise it takes the key of every row
    as it reads it ([KeyError] for a missing column) and compares keys
    from the [n]-th row on ([TypeError] between an integer and a string),
    and once more when the rows are exhausted. *)
Definition TopN (column : string) (n : Z) : Reducer :=
  λ _,
    {| St := list (value * row);
       init := if (n <=? 0)%Z then Phase [] (inr None) else Phase [] (inl []);
       on_row := λ acc r,
         match r !! column with
         | None => Phase [] (inr (Some KeyError))
         | Some v =>
             let acc' := acc ++ [(v, r)] in
             if (n <=? Z.of_nat (length acc'))%Z && mixed acc'.*1
             then Phase [] (inr (Some TypeError))
             else Phase [] (inl acc')
         end;
       on_end := λ acc,
         if mixed acc.*1 then ([], Some TypeError)
         else (nlargest n acc, None) |}.

(** ** Map, over a store of row objects

    Mappers change the dict they are given in place, so rows are objects
    here: a heap maps the location of each dict to its contents, and a
    stream yields locations. *)
Abbreviation loc := positive.
Abbreviation heap := (gmap loc row).

Definition obj_trace : Type := list loc * option exn.

(** A mapper run to its end on the object at [l]: the objects it yields,
    how it ends, and the heap it leaves. *)
Definition Mapper : Type := loc → heap → obj_trace * heap.

(** [deepcopy(row)]: a new object with the contents of [row] (the values
    of a row are immutable here). *)
Definition deepcopy (h : heap) (l : loc) : loc * heap :=
  let l' := fresh (dom h) in
  (l', <[l' := h !!! l]> h).

(** [for row in rows: yield from self.mapper(deepcopy(row))] *)
Fixpoint Map_loop (mapper : Mapper) (h : heap) (rows : list loc)
    (fin : option exn) : obj_trace * heap :=
  match rows with
  | [] => (([], fin), h)
  | l :: ls =>
      let '(c, h1) := deepcopy h l in
      let '((out, e), h2) := mapper c h1 in
      match e with
      | Some x => ((out, Some x), h2)
      | None =>
          let '((out', e'), h3) := Map_loop mapper h2 ls fin in
          ((out ++ out', e'), h3)
      end
  end.

(** [Map.__call__(rows)] *)
Definition Map_call (mapper : Mapper) (h : heap) (rows : obj_trace)
  : obj_trace * heap :=
  Map_loop mapper h rows.1 rows.2.

(** [DummyMapper]: [yield row] *)
Definition DummyMapper : Mapper := λ l h, (([l], None), h).

(** [BinaryArithmeticOperation]:
    [row[self.column] = self.operation(row); yield row] *)
Definition BinaryArithmeticOperation (operation : row → res value)
    (column : string) : Mapper :=
  λ l h,
    match operation (h !!! l) with
    | Ok v => (([l], None), <[l := <[column := v]> (h !!! l)]> h)
    | Err e => (([], Some e), h)
    end.

(** [Filter]: [if self.condition(row): yield row] *)
Definition Filter (condition : row → bool) : Mapper :=
  λ l h, ((if condition (h !!! l) then [l] else [], None), h).

(** The contents of the objects of a stream. *)
Definition contents (h : heap) (ls : list loc) : list row :=
  (λ l, h !!! l) <$> ls.

(** What the specification says of Map: the concatenation of [m(row)]
    over the rows in order, [m] being a function of the contents of the
    row. *)
Fixpoint Map_rows (m : row → trace) (rows : list row) (fin : option exn)
  : trace :=
  match rows with
  | [] => ([], fin)
  | r :: rs => and_then (m r) (Map_rows m rs fin)
  end.

(** The mapper changes no object but the one it is given and those it
    creates. *)
Definition mapper_local (mapper : Mapper) : Prop :=
  ∀ l h l', l' ∈ dom h → l' ≠ l → (mapper l h).2 !! l' = h !! l'.

(** On an object with contents [r], the mapper yields objects whose
    contents, once it has finished, are the rows of [m r], and ends as
    [m r] does. *)
Definition mapper_computes (mapper : Mapper) (m : row → trace) : Prop :=
  ∀ l h r, h !! l = Some r →
    mapM (λ o, (mapper l h).2 !! o) (mapper l h).1.1 = Some (m r).1
    ∧ (mapper l h).1.2 = (m r).2.

(** ** External sort *)

(** Modelled from the spec: [external_sort.py], the module of
    [ExternalSort], is not among the sources.  The key of a row keeps an
    absent column as a value of its own; keys are compared element by
    element, integers by value and strings lexicographically, and, for the
    comparison to be total, an absent column sorts before an integer and
    an integer before a string. *)
Definition sort_key (keys : list string) (r : row) : list (option value) :=
  (λ k, r !! k) <$> keys.

Definition column_lt (x y : option value) : bool :=
  match x, y with
  | None, Some _ => true
  | Some (VInt a), Some (VInt b) => (a <? b)%Z
  | Some (VInt _), Some (VStr _) => true
  | Some (VStr s), Some (VStr t) => String.ltb s t
  | _, _ => false
  end.

Fixpoint sort_key_lt (a b : list (option value)) : bool :=
  match a, b with
  | [], [] => false
  | [], _ :: _ => true
  | _ :: _, [] => false
  | x :: a', y :: b' =>
      if bool_decide (x = y) then sort_key_lt a' b' else column_lt x y
  end.

(** [y] sorts strictly before [x]. *)
Definition row_before (keys : list string) (y x : row) : bool :=
  sort_key_lt (sort_key keys y) (sort_key keys x).

(** Modelled from the spec: steps 1 and 2 of the external sort.  Rows are
    pulled into a buffer; when the buffer exceeds the memory bound it is
    sorted stably and spilled as a run; the last buffer is sorted and is
    the last run.  Runs are listed in the order they are written, so the
    position of a run is its run-id. *)
Fixpoint spill_runs (keys : list string) (bound : nat) (buffer rows : list row)
  : list (list row) :=
  match rows with
  | [] => [stable_sort (row_before keys) buffer]
  | r :: rs =>
      let buffer' := buffer ++ [r] in
      if bound <? length buffer'
      then stable_sort (row_before keys) buffer' :: spill_runs keys bound [] rs
      else spill_runs keys bound buffer' rs
  end.

(** Modelled from the spec: one step of the k-way merge.  The heap gives
    the run whose next row has the least key, the least run-id among
    equal keys; that row is taken from its run. *)
Fixpoint pop_min (keys : list string) (runs : list (list row))
  : option (row * list (list row)) :=
  match runs with
  | [] => None
  | run :: rest =>
      match run, pop_min keys rest with
      | [], None => None
      | [], Some (y, rest') => Some (y, [] :: rest')
      | x :: run', None => Some (x, run' :: rest)
      | x :: run', Some (y, rest') =>
          if row_before keys y x then Some (y, run :: rest')
          else Some (x, run' :: rest)
      end
  end.

(** Modelled from the spec: step 3, the merge of all runs; one row is
    yielded per pass, so as many passes as there are rows suffice. *)
Fixpoint merge_runs (keys : list string) (fuel : nat) (runs : list (list row))
  : list row :=
  match fuel with
  | O => []
  | S fuel =>
      match pop_min keys runs with
      | None => []
      | Some (x, runs') => x :: merge_runs keys fuel runs'
      end
  end.

(** Modelled from the spec: [ExternalSort(keys)] with memory bound
    [bound], called on a stream.  The whole input is read before the first
    row is yielded, so an exception of the input is all the caller sees. *)
Definition ExternalSort_call (bound : nat) (keys : list string) (rows : trace)
  : trace :=
  match rows.2 with
  | Some e => ([], Some e)
  | None =>
      (merge_runs keys (length rows.1) (spill_runs keys bound [] rows.1), None)
  end.

(** ** Graph *)

(** The data sources passed to [run] as keyword arguments: under each
    name, the stream its producer yields when called. *)
Abbreviation kwargs := (gmap string trace).

(** [ops.Operation]: a callable taking the input streams and the keyword
    arguments. *)
Definition Operation : Type := list trace → kwargs → trace.

(** Modelled from the spec: [ReadIterFactory] is defined in [base.py],
    which is not among the sources.  It looks up [kwargs[name]], calls it
    and re-emits its rows unchanged; running with an unbound name fails
    with [EmptyOperation]. *)
Definition ReadIterFactory (name : string) : Operation :=
  λ _ kw,
    match kw !! name with
    | Some rows => rows
    | None => ([], Some EmptyOperation)
    end.

(** [Map(mapper)] on streams of row contents: the mapper gets a copy of
    each row, so what it yields is a function of the contents of the row
    (see the refinement of [Map_call] by [Map_rows] below).  Calling it
    without [rows] is a [TypeError]. *)
Definition Map_op (m : row → trace) : Operation :=
  λ streams _,
    match streams with
    | rows :: _ => Map_rows m rows.1 rows.2
    | [] => ([], Some TypeError)
    end.

Definition Reduce_op (reducer : Reducer) (keys : list string) : Operation :=
  λ streams _,
    match streams with
    | rows :: _ => Reduce_call reducer keys rows
    | [] => ([], Some TypeError)
    end.

Definition ExternalSort (bound : nat) (keys : list string) : Operation :=
  λ streams _,
    match streams with
    | rows :: _ => ExternalSort_call bound keys rows
    | [] => ([], Some TypeError)
    end.

(** [Join.__call__(rows, *args)] reads the right stream as [args[0]]. *)
Definition Join_op (joiner : Joiner) (keys : list string) : Operation :=
  λ streams _,
    match streams with
    | rows :: other :: _ => Join_call joiner keys rows other
    | [_] => ([], Some IndexError)
    | [] => ([], Some TypeError)
    end.

(** [Graph]: [_operation], [None] until a constructor sets it, and
    [_graphs], the upstream graphs. *)
#[warnings="-register-all"]
Inductive Graph : Type :=
| MkGraph (operation : option Operation) (graphs : list Graph).

Definition graph_from_iter (name : string) : Graph :=
  MkGraph (Some (ReadIterFactory name)) [].

Definition Graph_map (self : Graph) (mapper : row → trace) : Graph :=
  MkGraph (Some (Map_op mapper)) [self].

Definition Graph_reduce (self : Graph) (reducer : Reducer)
    (keys : list string) : Graph :=
  MkGraph (Some (Reduce_op reducer keys)) [self].

(** [Graph.sort] builds [ExternalSort(keys)]; its memory bound is the
    default of the missing module, a parameter here. *)
Definition Graph_sort (bound : nat) (self : Graph) (keys : list string)
  : Graph :=
  MkGraph (Some (ExternalSort bound keys)) [self].

Definition Graph_join (self : Graph) (joiner : Joiner) (join_graph : Graph)
    (keys : list string) : Graph :=
  MkGraph (Some (Join_op joiner keys)) [self; join_graph].

(** The body of [Graph.run], run to its end.  The operation of a source
    gets the keyword arguments, the others get the streams of the
    upstream graphs only. *)
Fixpoint Graph_run_body (g : Graph) (kw : kwargs) : trace :=
  match g with
  | MkGraph None _ => ([], Some EmptyOperation)
  | MkGraph (Some operation) [] => operation [] kw
  | MkGraph (Some operation) [g0] => operation [Graph_run_body g0 kw] ∅
  | MkGraph (Some operation) (g0 :: g1 :: _) =>
      operation [Graph_run_body g0 kw; Graph_run_body g1 kw] ∅
  end.

(** A generator object: its body has not run; [next] runs it up to the
    next [yield]. *)
Inductive generator : Type :=
| Generator (body : trace).

Inductive advance : Type :=
| Yields (r : row) (g : generator)
| Stops
| Raises (e : exn).

Definition gen_next (g : generator) : advance :=
  match g with
  | Generator (r :: rs, fin) => Yields r (Generator (rs, fin))
  | Generator ([], None) => Stops
  | Generator ([], Some e) => Raises e
  end.

(** [Graph.run]: [run] contains [yield], so the call returns a
    generator and runs nothing of the body. *)
Definition Graph_run (g : Graph) (kw : kwargs) : res generator :=
  Ok (Generator (Graph_run_body g kw)).

(** The first pull of [Join] on its left stream,
    [left_next = self._get_next_group(left_groups)], raises nothing: the
    stream ends normally without a row, or yields a first row that has
    the key columns. *)
Definition pulls_first_group (keys : list string) (t : trace) : Prop :=
  ∃ next, get_next_group keys (GbFresh t) = Ok next.

(** The graph reaches a node without operation, or a source whose name
    is not bound, before it yields a row and before anything else fails:
    through the input of map, reduce and sort, through the left input of
    join, and through the right input of a join whose left input gives
    its first group. *)
Inductive fails_first (kw : kwargs) : Graph → Prop :=
| ff_no_operation graphs : fails_first kw (MkGraph None graphs)
| ff_unbound name : kw !! name = None → fails_first kw (graph_from_iter name)
| ff_map g m : fails_first kw g → fails_first kw (Graph_map g m)
| ff_reduce g r keys : fails_first kw g → fails_first kw (Graph_reduce g r keys)
| ff_sort bound g keys :
    fails_first kw g → fails_first kw (Graph_sort bound g keys)
| ff_join g j g' keys :
    fails_first kw g → fails_first kw (Graph_join g j g' keys)
| ff_join_right g j g' keys :
    pulls_first_group keys (Graph_run_body g kw) →
    fails_first kw g' → fails_first kw (Graph_join g j g' keys).

(** The node of the graph has no operation. *)
Definition no_operation (g : Graph) : Prop :=
  match g with
  | MkGraph None _ => True
  | MkGraph (Some _) _ => False
  end.

(** The graph contains a source whose name is not bound. *)
Inductive contains_unbound_source (kw : kwargs) : Graph → Prop :=
| cu_source name :
    kw !! name = None → contains_unbound_source kw (graph_from_iter name)
| cu_upstream operation graphs g :
    g ∈ graphs → contains_unbound_source kw g →
    contains_unbound_source kw (MkGraph operation graphs).

(** ** The rows of the scenarios *)

Definition row_of (l : list (string * value)) : row := list_to_map l.

(** ** Reading the state of a [groupby] object *)

(** The row has key [k]. *)
Definition has_key (keys : list string) (k : list value) (r : row) : bool :=
  bool_decide (keyfunc keys r = Some k).

(** The rows the next groups are made of: the rest of the iterator
    without what is left of the current group, or, when the group iterator
    has met the first row of the next group, that row and the rest. *)
Definition pending (keys : list string) (g : groupby) : list row :=
  match g with
  | GbFresh it => it.1
  | GbAt it tgt ck cv =>
      if bool_decide (ck = tgt) then drop_while (has_key keys tgt) it.1
      else cv :: it.1
  end.

(** The iterator ends normally, every row has the key columns, and
    [currkey] is the key of [currvalue]. *)
Definition gb_ok (keys : list string) (g : groupby) : Prop :=
  match g with
  | GbFresh it => it.2 = None ∧ Forall (λ r, is_Some (keyfunc keys r)) it.1
  | GbAt it tgt ck cv =>
      it.2 = None ∧ Forall (λ r, is_Some (keyfunc keys r)) it.1
      ∧ keyfunc keys cv = Some ck
  end.

(** A bound on the number of groups still to come. *)
Definition potential (g : groupby) : nat :=
  match g with
  | GbFresh it => length it.1
  | GbAt it tgt ck cv =>
      length it.1 + (if bool_decide (ck = tgt) then 0 else 1)
  end.

(** What the specification says of Reduce: the reducer applied to each
    maximal run of rows with equal keys, and the outputs concatenated. *)
Definition Reduce_groups (reducer : Reducer) (keys : list string)
    (rows : list row) : trace :=
  chain ((λ group, run_on (reducer keys) (group, None))
           <$> runs_by (keyfunc keys) rows).

(** A joiner called on two iterables: it reads [rows_b] into a list, then
    iterates [rows_a]. *)
Definition Joiner_call (joiner : Joiner) (keys : list string)
    (rows_a rows_b : trace) : trace :=
  match rows_b.2 with
  | Some e => ([], Some e)
  | None => run_on (joiner keys rows_b.1) rows_a
  end.

(** A bound on the number of passes of the loop of [Join.__call__]. *)
Definition weight (next : option (list value * groupby)) : nat :=
  match next with
  | Some (_, g) => S (potential g)
  | None => 0
  end.

(** The rows of scenarios 2 and 3 of the specification. *)
Definition left_rows : list row :=
  [row_of [("id", VInt 1); ("v", VStr "a")];
   row_of [("id", VInt 2); ("v", VStr "b")]].

Definition right_rows : list row :=
  [row_of [("id", VInt 1); ("v", VStr "x")];
   row_of [("id", VInt 1); ("v", VStr "y")];
   row_of [("id", VInt 3); ("v", VStr "z")]].

Definition unmatched_left : list row :=
  [row_of [("id", VInt 2); ("v", VStr "b")]].

(** ** Orders *)

(** [lt] is a strict total order. *)
Record strict_total {T} (lt : T → T → bool) : Prop := StrictTotal {
  st_irrefl x : lt x x = false;
  st_trans x y z : lt x y = true → lt y z = true → lt x z = true;
  st_connected x y : lt x y = false → lt y x = false → x = y;
}.

(** [x] need not come behind [y]: [y] does not sort strictly before [x]. *)
Definition not_behind {A} (before : A → A → bool) (x y : A) : Prop :=
  before y x = false.

(** The values of a column, [None] when a row lacks it. *)
Definition column_values (column : string) (rows : list row)
  : option (list value) :=
  mapM (λ r, r !! column) rows.

(** [r1] has a value in the column that is not smaller than that of
    [r2]. *)
Definition column_ge (column : string) (r1 r2 : row) : Prop :=
  ∃ v1 v2, r1 !! column = Some v1 ∧ r2 !! column = Some v2
           ∧ value_lt v1 v2 = Ok false.

Definition is_int (v : value) : bool :=
  match v with
  | VInt _ => true
  | VStr _ => false
  end.

(** The group of scenario 4 of the specification. *)
Definition topn_group : list row :=
  [row_of [("k", VInt 1); ("s", VInt 5)];
   row_of [("k", VInt 1); ("s", VInt 5)];
   row_of [("k", VInt 1); ("s", VInt 3)]].

(** ** Scenario rows for the sort *)

(** The input of scenario 5 of the specification, and the same input with
    a tag on the two rows of key 1. *)
Definition sort_rows : list row :=
  (λ n, row_of [("k", VInt n)]) <$> [3; 1; 4; 1; 5; 9; 2]%Z.

Definition tagged_sort_rows : list row :=
  [row_of [("k", VInt 3)];
   row_of [("k", VInt 1); ("tag", VStr "first")];
   row_of [("k", VInt 4)];
   row_of [("k", VInt 1); ("tag", VStr "second")];
   row_of [("k", VInt 5)];
   row_of [("k", VInt 9)];
   row_of [("k", VInt 2)]].

(** ** A mapper of the tests *)

(** What [BinaryArithmeticOperation] yields as a function of the contents
    of the row. *)
Definition arithmetic_rows (operation : row → res value) (column : string)
    (r : row) : trace :=
  match operation r with
  | Ok v => ([<[column := v]> r], None)
  | Err e => ([], Some e)
  end.

(** [lambda row: row['first'] * row['second']], the operation of the
    first case of [tests/test_operations.py], on integers. *)
Definition first_times_second (r : row) : res value :=
  match r !! "first", r !! "second" with
  | Some (VInt a), Some (VInt b) => Ok (VInt (a * b))
  | Some _, Some _ => Err TypeError
  | _, _ => Err KeyError
  end.

(** The rows of that test, as objects 1 and 2 of a heap. *)
Definition test_heap : heap :=
  {[ 1%positive := row_of [("test_id", VInt 1); ("first", VInt 10);
                           ("second", VInt 5)];
     2%positive := row_of [("test_id", VInt 2); ("first", VInt 0);
                           ("second", VInt 8)] ]}.

(** ** Graphs over sources that are not bound *)

(** A join whose right source is not bound and whose left source yields
    one row without the key column. *)
Definition join_of_sources : Graph :=
  Graph_join (graph_from_iter "left") (InnerJoiner "_1" "_2")
    (graph_from_iter "right") ["id"].

Definition left_only : kwargs :=
  {[ "left" := ([row_of [("x", VInt 1)]], None) ]}.

(** The same join over a left source whose rows have the key column. *)
Definition left_with_keys : kwargs :=
  {[ "left" := (left_rows, None) ]}.

(** A reduce over a node without operation. *)
Definition reduce_of_nothing : Graph :=
  Graph_reduce (MkGraph None []) FirstReducer ["id"].

(** A pipeline over a source that is not bound. *)
Definition pipeline_on_missing : Graph :=
  Graph_reduce
    (Graph_join
       (Graph_sort 2 (Graph_map (graph_from_iter "docs") (λ r, ([r], None)))
          ["id"])
       (InnerJoiner "_1" "_2") (graph_from_iter "other") ["id"])
    FirstReducer ["id"].

(** * More of the operations *)

(** ** Join, read on the runs of its inputs *)

(** The key of a run: that of its first row. *)
Definition run_key (keys : list string) (run : list row)
  : option (list value) :=
  head run ≫= keyfunc keys.

(** The loop of [Join.__call__] on the maximal runs of equal keys of the
    two inputs: runs of equal key go to the joiner together, otherwise the
    run of the smaller key goes to it alone, against [[]]; when one input
    is exhausted the runs of the other go to the joiner one by one. *)
Fixpoint cogroup (joiner : Joiner) (keys : list string)
    (lefts : list (list row)) : list (list row) → trace :=
  fix right_loop (rights : list (list row)) : trace :=
    match lefts, rights with
    | [], [] => ([], None)
    | la :: lefts', [] =>
        and_then (Joiner_call joiner keys (la, None) ([], None))
                 (cogroup joiner keys lefts' [])
    | [], rb :: rights' =>
        and_then (Joiner_call joiner keys ([], None) (rb, None))
                 (right_loop rights')
    | la :: lefts', rb :: rights' =>
        match run_key keys la, run_key keys rb with
        | Some kl, Some kr =>
            if bool_decide (kl = kr) then
              and_then (Joiner_call joiner keys (la, None) (rb, None))
                       (cogroup joiner keys lefts' rights')
            else
              match list_lt kl kr with
              | Err e => ([], Some e)
              | Ok true =>
                  and_then (Joiner_call joiner keys (la, None) ([], None))
                           (cogroup joiner keys lefts' rights)
              | Ok false =>
                  and_then (Joiner_call joiner keys ([], None) (rb, None))
                           (right_loop rights')
              end
        | _, _ => ([], Some KeyError)
        end
    end.

(** What [left_next] or [right_next] stands for: no group, or the group
    that starts at the first of the rows still to be joined. *)
Definition side_ok (keys : list string)
    (next : option (list value * groupby)) (rows : list row) : Prop :=
  match next with
  | None => rows = []
  | Some (k, g) =>
      ∃ r rs, g = GbAt (rs, None) k k r ∧ rows = r :: rs
              ∧ keyfunc keys r = Some k
              ∧ Forall (λ r, is_Some (keyfunc keys r)) rs
  end.

(** ** The rows of a pair of groups *)

(** [for row_a in rows_a: for row_b in all_rows_b: ...; yield new_row] *)
Definition cross_rows (a_suffix b_suffix : string) (keys : list string)
    (rows_a all_rows_b : list row) : list row :=
  rows_a ≫= (λ row_a, product_rows a_suffix b_suffix keys row_a all_rows_b).

(** The two rows share no column but key columns. *)
Definition no_collision (keys : list string) (row_a row_b : row) : Prop :=
  dom row_b ∩ (dom row_a ∖ list_to_set keys) = (∅ : gset string).

(** A stream that does not run to a normal end under [groupby] on [keys]:
    it raises, or one of its rows lacks a key column. *)
Definition breaks (keys : list string) (t : trace) : Prop :=
  t.2 ≠ None ∨ Exists (λ r, keyfunc keys r = None) t.1.

Definition gb_breaks (keys : list string) (g : groupby) : Prop :=
  match g with
  | GbFresh it => breaks keys it
  | GbAt it _ _ _ => breaks keys it
  end.

Definition side_breaks (keys : list string)
    (next : option (list value * groupby)) : Prop :=
  match next with
  | Some (_, g) => gb_breaks keys g
  | None => False
  end.

(** ** More reducers *)

(** [Sum]: the loop is that of [Count] with
    [new_row[self.column] += row[self.column]]; [0 + v] is a [TypeError]
    for a string [v]. *)
Definition Sum (column : string) : Reducer :=
  λ group_key,
    {| St := row * Z;
       init := Phase [] (inl (∅, 0%Z));
       on_row := λ '(_, n) r,
         match r !! column with
         | Some (VInt z) => Phase [] (inl (r, (n + z)%Z))
         | Some (VStr _) => Phase [] (inr (Some TypeError))
         | None => Phase [] (inr (Some KeyError))
         end;
       on_end := λ '(r, n),
         match copy_keys group_key r {[ column := VInt n ]} with
         | Ok new_row => ([new_row], None)
         | Err e => ([], Some e)
         end |}.

(** The row [Count] and [Sum] build for a group: [{column: n}], then the
    key columns of the last row of the group written over it. *)
Definition key_columns (keys : list string) (r : row) : row :=
  filter (λ kv, kv.1 ∈ keys) r.

Definition total_row (column : string) (keys : list string) (n : Z)
    (group : list row) : row :=
  key_columns keys (default ∅ (last group)) ∪ {[ column := VInt n ]}.

(** The integer in a column, [0] when there is none. *)
Definition int_of (column : string) (r : row) : Z :=
  match r !! column with
  | Some (VInt z) => z
  | _ => 0%Z
  end.

(** The sum of the integers of a column over rows. *)
Definition column_total (column : string) (rows : list row) : Z :=
  foldr (λ r acc, (int_of column r + acc)%Z) 0%Z rows.

(** The row has an integer in the column. *)
Definition has_int (column : string) (r : row) : Prop :=
  ∃ z, r !! column = Some (VInt z).

(** The reducers of [reduce.py] and the joiners of [join.py] that are
    modelled here. *)
Inductive source_reducer : Reducer → Prop :=
| sr_FirstReducer : source_reducer FirstReducer
| sr_TopN column n : source_reducer (TopN column n)
| sr_Count column : source_reducer (Count column)
| sr_Sum column : source_reducer (Sum column).

Inductive source_joiner : Joiner → Prop :=
| sj_InnerJoiner a_suffix b_suffix :
    source_joiner (InnerJoiner a_suffix b_suffix)
| sj_OuterJoiner a_suffix b_suffix :
    source_joiner (OuterJoiner a_suffix b_suffix)
| sj_LeftJoiner a_suffix b_suffix :
    source_joiner (LeftJoiner a_suffix b_suffix)
| sj_RightJoiner a_suffix b_suffix :
    source_joiner (RightJoiner a_suffix b_suffix).

(** ** More mappers *)

(** [Project]: [new_row = {}; for col in self.columns:
    new_row[col] = row[col]; yield new_row].  The row yielded is a new
    object; a dict that is given up when [row[col]] raises is not kept in
    the heap. *)
Definition Project (columns : list string) : Mapper :=
  λ l h,
    match copy_keys columns (h !!! l) ∅ with
    | Ok new_row =>
        let o := fresh (dom h) in (([o], None), <[o := new_row]> h)
    | Err e => (([], Some e), h)
    end.

(** [x * y] on values: a string times an integer repeats the string (no
    times for an integer below 1), a string times a string is a
    [TypeError]. *)
Fixpoint repeat_string (n : nat) (s : string) : string :=
  match n with
  | O => EmptyString
  | S n => s +:+ repeat_string n s
  end.

Definition value_mul (x y : value) : res value :=
  match x, y with
  | VInt a, VInt b => Ok (VInt (a * b))
  | VInt n, VStr s | VStr s, VInt n => Ok (VStr (repeat_string (Z.to_nat n) s))
  | VStr _, VStr _ => Err TypeError
  end.

(** [for col in self.columns: row[self.result_column] *= row[col]]: the
    row as the loop leaves it, and the exception that ended it. *)
Fixpoint Product_loop (result_column : string) (columns : list string)
    (r : row) : row * option exn :=
  match columns with
  | [] => (r, None)
  | col :: cols =>
      match r !! result_column, r !! col with
      | Some acc, Some v =>
          match value_mul acc v with
          | Ok p => Product_loop result_column cols (<[result_column := p]> r)
          | Err e => (r, Some e)
          end
      | _, _ => (r, Some KeyError)
      end
  end.

(** [Product]: [row[self.result_column] = 1], the loop, [yield row]. *)
Definition Product (columns : list string) (result_column : string)
  : Mapper :=
  λ l h,
    let '(r, e) :=
      Product_loop result_column columns
        (<[result_column := VInt 1]> (h !!! l)) in
    ((match e with None => [l] | Some _ => [] end, e), <[l := r]> h).

(** [string.punctuation]; the second character is the double quote. *)
Definition punctuation : string :=
  "!" +:+ String (Ascii.ascii_of_nat 34) "#$%&'()*+,-./:;<=>?@[\]^_`{|}~".

(** [''.join(filter(lambda s: s not in punctuation, txt))].  A string is
    a sequence of bytes here; the bytes of a character outside ASCII are
    no punctuation, so they are kept as the character is. *)
Definition remove_punctuation (txt : string) : string :=
  String.string_of_list_ascii
    (filter (λ s, s ∉ String.list_ascii_of_string punctuation)
            (String.list_ascii_of_string txt)).

(** [FilterPunctuation]: iterating an integer is a [TypeError]. *)
Definition FilterPunctuation (column : string) : Mapper :=
  λ l h,
    match (h !!! l) !! column with
    | Some (VStr txt) =>
        (([l], None),
         <[l := <[column := VStr (remove_punctuation txt)]> (h !!! l)]> h)
    | Some (VInt _) => (([], Some TypeError), h)
    | None => (([], Some KeyError), h)
    end.

(** ** Reading mappers *)

(** The mapper deletes no object, and yields only the object it is given
    and objects it has created. *)
Definition mapper_yields_own (mapper : Mapper) : Prop :=
  ∀ l h, l ∈ dom h →
    dom h ⊆ dom (mapper l h).2
    ∧ Forall (λ o, o = l ∨ o ∉ dom h) (mapper l h).1.1.

(** What the mappers yield as functions of the contents of the row. *)
Definition Filter_rows (condition : row → bool) (r : row) : trace :=
  (if condition r then [r] else [], None).

Definition Project_rows (columns : list string) (r : row) : trace :=
  match copy_keys columns r ∅ with
  | Ok new_row => ([new_row], None)
  | Err e => ([], Some e)
  end.

Definition Product_rows (columns : list string) (result_column : string)
    (r : row) : trace :=
  let '(r', e) :=
    Product_loop result_column columns (<[result_column := VInt 1]> r) in
  (match e with None => [r'] | Some _ => [] end, e).

Definition FilterPunctuation_rows (column : string) (r : row) : trace :=
  match r !! column with
  | Some (VStr txt) => ([<[column := VStr (remove_punctuation txt)]> r], None)
  | Some (VInt _) => ([], Some TypeError)
  | None => ([], Some KeyError)
  end.

(** The product of the integers of the columns. *)
Definition int_product (columns : list string) (r : row) : Z :=
  foldl (λ acc col, (acc * int_of col r)%Z) 1%Z columns.

(** The rows of a heap for the examples of mappers. *)
Definition text_heap : heap :=
  {[ 1%positive := row_of [("doc_id", VInt 1); ("text", VStr "Hello, world!")];
     2%positive := row_of [("doc_id", VInt 2); ("text", VStr "(a-b) = c?")] ]}.

(** The string in a column, empty when there is none. *)
Definition text_of (column : string) (r : row) : string :=
  match r !! column with
  | Some (VStr txt) => txt
  | _ => EmptyString
  end.

(** The row has a string in the column. *)
Definition has_text (column : string) (r : row) : Prop :=
  ∃ txt, r !! column = Some (VStr txt).

(** * Proofs *)

Lemma emit_nil t : emit [] t = t.
Proof. by destruct t. Qed.

Lemma emit_app a b t : emit (a ++ b) t = emit a (emit b t).
Proof. unfold emit; simpl. by rewrite app_assoc. Qed.

Lemma and_then_nil_r t : and_then t ([], None) = t.
Proof.
  destruct t as [rows [e|]]; unfold and_then, emit; simpl; [done|].
  by rewrite app_nil_r.
Qed.

Lemma and_then_emit out t k : and_then (emit out t) k = emit out (and_then t k).
Proof.
  destruct t as [rows [e|]]; unfold and_then, emit; simpl; [done|].
  by rewrite app_assoc.
Qed.

Lemma and_then_raise out e k : and_then (out, Some e) k = (out, Some e).
Proof. done. Qed.

Lemma feed_yield_from rows fin : feed yield_from () rows fin = (rows, fin).
Proof.
  induction rows as [|r rs IH]; simpl.
  - by destruct fin.
  - by rewrite IH.
Qed.

Lemma run_on_yield_from t : run_on yield_from t = t.
Proof.
  unfold run_on; simpl. rewrite feed_yield_from, emit_nil. by destruct t.
Qed.

(** ** Runs *)

Lemma take_drop_while {A} (p : A → bool) l :
  take_while p l ++ drop_while p l = l.
Proof. induction l as [|x xs IH]; simpl; [done|]. destruct (p x); simpl; congruence. Qed.

Lemma drop_while_length {A} (p : A → bool) l :
  length (drop_while p l) ≤ length l.
Proof. induction l as [|x xs IH]; simpl; [done|]. destruct (p x); simpl; lia. Qed.

Lemma Forall_drop_while {A} (P : A → Prop) (p : A → bool) l :
  Forall P l → Forall P (drop_while p l).
Proof.
  induction 1 as [|x xs Hx Hxs IH]; simpl; [constructor|].
  destruct (p x); [done|by constructor].
Qed.

Section runs.
Context {A K : Type} `{EqDecision K} (f : A → K).

Lemma runs_by_cons x xs :
  runs_by f (x :: xs)
  = (x :: take_while (λ y, bool_decide (f y = f x)) xs)
      :: runs_by f (drop_while (λ y, bool_decide (f y = f x)) xs).
Proof.
  revert x. induction xs as [|y ys IH]; intros x; [done|].
  change (runs_by f (x :: y :: ys)) with
    (match runs_by f (y :: ys) with
     | (y' :: ys') :: gs =>
         if decide (f x = f y') then (x :: y' :: ys') :: gs
         else [x] :: (y' :: ys') :: gs
     | _ => [[x]]
     end).
  rewrite IH. cbn [take_while drop_while].
  destruct (decide (f x = f y)) as [Heq|Hne].
  - rewrite bool_decide_eq_true_2 by done. by rewrite Heq.
  - rewrite bool_decide_eq_false_2 by congruence. by rewrite IH.
Qed.

Lemma runs_by_nonempty l : Forall (λ g, g ≠ []) (runs_by f l).
Proof.
  induction l as [|x xs IH]; simpl; [constructor|].
  destruct (runs_by f xs) as [|[|y ys] gs] eqn:E.
  - by repeat constructor.
  - by repeat constructor.
  - inversion IH; subst. destruct (decide (f x = f y)); by repeat constructor.
Qed.

Lemma runs_by_concat l : concat (runs_by f l) = l.
Proof.
  induction l as [|x xs IH]; [done|]. simpl.
  pose proof (runs_by_nonempty xs) as Hne.
  destruct (runs_by f xs) as [|[|y ys] gs] eqn:E; simpl in *.
  - congruence.
  - by inversion Hne.
  - destruct (decide (f x = f y)); simpl; congruence.
Qed.

Lemma runs_by_constant l :
  Forall (λ g, ∀ x y, x ∈ g → y ∈ g → f x = f y) (runs_by f l).
Proof.
  induction l as [|x xs IH]; simpl; [constructor|].
  destruct (runs_by f xs) as [|[|y ys] gs] eqn:E.
  - repeat constructor. intros a b ->%list_elem_of_singleton ->%list_elem_of_singleton. done.
  - repeat constructor. intros a b ->%list_elem_of_singleton ->%list_elem_of_singleton. done.
  - inversion IH as [|? ? Hg Hgs]; subst.
    destruct (decide (f x = f y)) as [Heq|Hne].
    + constructor; [|done]. intros a b Ha Hb.
      assert (Hy : y ∈ y :: ys) by left.
      apply elem_of_cons in Ha as [->|Ha]; apply elem_of_cons in Hb as [->|Hb].
      * done.
      * rewrite Heq. by apply Hg.
      * rewrite Heq. by apply Hg.
      * by apply Hg.
    + constructor; [|by constructor].
      intros a b ->%list_elem_of_singleton ->%list_elem_of_singleton. done.
Qed.

Lemma runs_by_differ l : runs_differ f (runs_by f l).
Proof.
  induction l as [|x xs IH]; simpl; [done|].
  destruct (runs_by f xs) as [|[|y ys] gs] eqn:E; try done.
  destruct (decide (f x = f y)) as [Heq|Hne].
  - destruct gs as [|g2 gs']; [done|].
    simpl in IH |- *. destruct IH as [H1 H2]. split; [|done].
    intros a b [= <-] Hb. rewrite Heq. by apply H1.
  - split; [|done]. intros a b [= <-] [= <-]. done.
Qed.
End runs.

(** ** The group iterator *)

Section groupby_facts.
Context (keys : list string).

Lemma groupby_scan_drop tgt rows :
  Forall (λ r, is_Some (keyfunc keys r)) rows →
  groupby_scan keys (Some tgt) rows None
  = match drop_while (has_key keys tgt) rows with
    | [] => GbStop
    | r :: rs =>
        match keyfunc keys r with
        | Some k => GbGroup k (GbAt (rs, None) k k r)
        | None => GbRaise KeyError
        end
    end.
Proof.
  induction 1 as [|r rs [k Hk] Hrs IH]; [done|].
  cbn [groupby_scan drop_while]. unfold has_key at 1. rewrite Hk.
  destruct (decide (k = tgt)) as [->|Hne].
  - rewrite !bool_decide_eq_true_2 by done. exact IH.
  - rewrite !bool_decide_eq_false_2 by congruence. by rewrite Hk.
Qed.

(** On rows that all have their key columns, [__next__] starts the next
    group at the first pending row. *)
Lemma groupby_next_pending g :
  gb_ok keys g →
  match pending keys g with
  | [] => groupby_next keys g = GbStop
  | r :: rs =>
      ∃ k, keyfunc keys r = Some k
           ∧ groupby_next keys g = GbGroup k (GbAt (rs, None) k k r)
  end.
Proof.
  destruct g as [[rows fin]|[rows fin] tgt ck cv]; simpl.
  - intros [-> Hall]. destruct Hall as [|r rs [k Hk] Hrs]; [done|].
    exists k. split; [done|]. simpl. by rewrite Hk.
  - intros (-> & Hall & Hcv).
    destruct (decide (ck = tgt)) as [->|Hne].
    + rewrite !bool_decide_eq_true_2 by done.
      rewrite groupby_scan_drop by done.
      pose proof (Forall_drop_while _ (has_key keys tgt) _ Hall) as Hd.
      destruct (drop_while (has_key keys tgt) rows) as [|r rs]; [done|].
      inversion Hd as [|? ? [k Hk] _]; subst. exists k. by rewrite Hk.
    + rewrite !bool_decide_eq_false_2 by done. by exists ck.
Qed.

(** A generator body fed by the group iterator sees the rest of the
    current group, and leaves the rows behind it pending, whether it
    reads the group to its end or not. *)
Lemma grouper_feed_run c tgt cv rows : ∀ st ck,
  Forall (λ r, is_Some (keyfunc keys r)) rows →
  keyfunc keys cv = Some ck → ck = tgt →
  (grouper_feed keys c tgt ck cv st rows None).1
    = feed c st (take_while (has_key keys tgt) rows) None
  ∧ gb_ok keys (grouper_feed keys c tgt ck cv st rows None).2
  ∧ pending keys (grouper_feed keys c tgt ck cv st rows None).2
    = drop_while (has_key keys tgt) rows.
Proof.
  revert cv. induction rows as [|r rs IH]; intros cv st ck Hall Hcv ->.
  - simpl. rewrite bool_decide_eq_true_2 by done. repeat split; done.
  - inversion Hall as [|? ? [k Hk] Hrs]; subst.
    cbn [grouper_feed take_while drop_while]. unfold has_key at 1 3. rewrite Hk.
    destruct (decide (k = tgt)) as [->|Hne].
    + rewrite !bool_decide_eq_true_2 by done. cbn [feed].
      destruct (on_row c st r) as [out [st'|e]].
      * specialize (IH r st' tgt Hrs Hk eq_refl).
        destruct (grouper_feed keys c tgt tgt r st' rs None) as [t g'].
        simpl in *. destruct IH as (-> & Hok & Hp). done.
      * simpl. rewrite bool_decide_eq_true_2 by done. done.
    + rewrite !bool_decide_eq_false_2 by congruence. simpl.
      rewrite bool_decide_eq_false_2 by done. done.
Qed.

Lemma run_on_group_run c k r rs :
  Forall (λ r, is_Some (keyfunc keys r)) rs →
  keyfunc keys r = Some k →
  (run_on_group keys c (GbAt (rs, None) k k r)).1
    = run_on c (r :: take_while (has_key keys k) rs, None)
  ∧ gb_ok keys (run_on_group keys c (GbAt (rs, None) k k r)).2
  ∧ pending keys (run_on_group keys c (GbAt (rs, None) k k r)).2
    = drop_while (has_key keys k) rs.
Proof.
  intros Hall Hk. unfold run_on_group, run_on.
  destruct (init c) as [out [st|e]].
  - rewrite bool_decide_eq_true_2 by done. cbn [feed fst snd].
    destruct (on_row c st r) as [out' [st'|e]].
    + pose proof (grouper_feed_run c k r rs st' k Hall Hk eq_refl) as H.
      destruct (grouper_feed keys c k k r st' rs None) as [t g'].
      simpl in *. destruct H as (-> & Hok & Hp).
      by rewrite emit_app.
    + simpl. rewrite bool_decide_eq_true_2 by done. unfold emit. done.
  - simpl. rewrite bool_decide_eq_true_2 by done. done.
Qed.

(** *** Fuel *)

Lemma groupby_scan_potential tgt rows fin k g :
  groupby_scan keys tgt rows fin = GbGroup k g → potential g < length rows.
Proof.
  induction rows as [|r rs IH]; simpl.
  - by destruct fin.
  - destruct (keyfunc keys r) as [k'|]; [|done].
    case_bool_decide as Hd.
    + intros Hs. apply IH in Hs. lia.
    + intros [= <- <-]. simpl. rewrite bool_decide_eq_true_2 by done. lia.
Qed.

Lemma groupby_next_potential g k g' :
  groupby_next keys g = GbGroup k g' → potential g' < potential g.
Proof.
  destruct g as [[rows fin]|[rows fin] tgt ck cv]; simpl.
  - apply groupby_scan_potential.
  - case_bool_decide as Hd.
    + intros Hs%groupby_scan_potential. lia.
    + intros [= <- <-]. simpl. rewrite bool_decide_eq_true_2 by done. lia.
Qed.

Lemma grouper_feed_potential c tgt rows fin : ∀ ck cv st,
  ck = tgt →
  potential (grouper_feed keys c tgt ck cv st rows fin).2 ≤ length rows.
Proof.
  induction rows as [|r rs IH]; intros ck cv st ->.
  - simpl. destruct fin; simpl; rewrite bool_decide_eq_true_2 by done; lia.
  - cbn [grouper_feed]. destruct (keyfunc keys r) as [k|].
    + case_bool_decide as Hk.
      * destruct (on_row c st r) as [out [st'|e]].
        -- specialize (IH k r st' Hk).
           destruct (grouper_feed keys c tgt k r st' rs fin) as [t g'].
           simpl in *. lia.
        -- simpl. rewrite bool_decide_eq_true_2 by done. lia.
      * simpl. rewrite bool_decide_eq_false_2 by done. lia.
    + simpl. rewrite bool_decide_eq_true_2 by done. lia.
Qed.

Lemma run_on_group_potential c g :
  potential (run_on_group keys c g).2 ≤ potential g.
Proof.
  unfold run_on_group. destruct (init c) as [out [st|e]]; [|done].
  destruct g as [it|[rows fin] tgt ck cv]; [done|].
  case_bool_decide as Hk; [|done].
  destruct (on_row c st cv) as [out' [st'|e]]; [|done].
  pose proof (grouper_feed_potential c tgt rows fin ck cv st' Hk) as H.
  simpl in *. destruct (grouper_feed keys c tgt ck cv st' rows fin) as [t g'].
  simpl in *. rewrite bool_decide_eq_true_2 by done. lia.
Qed.
End groupby_facts.

(** ** Reduce *)

Section Reduce_facts.
Context (reducer : Reducer) (keys : list string).

(** More fuel than rows changes nothing. *)
Lemma Reduce_loop_fuel f1 : ∀ f2 g,
  potential g < f1 → potential g < f2 →
  Reduce_loop reducer keys f1 g = Reduce_loop reducer keys f2 g.
Proof.
  induction f1 as [|f1 IH]; intros f2 g H1 H2; [lia|].
  destruct f2 as [|f2]; [lia|]. simpl.
  destruct (groupby_next keys g) as [k g1| |e] eqn:E; [|done|done].
  apply groupby_next_potential in E.
  pose proof (run_on_group_potential keys (reducer keys) g1) as Hp.
  destruct (run_on_group keys (reducer keys) g1) as [t g2]. simpl in Hp.
  f_equal. apply IH; lia.
Qed.

Lemma Reduce_call_fuel rows fuel :
  length rows.1 < fuel →
  Reduce_loop reducer keys fuel (GbFresh rows) = Reduce_call reducer keys rows.
Proof. intros H. apply Reduce_loop_fuel; simpl; lia. Qed.

Lemma Reduce_groups_cons r rs :
  Reduce_groups reducer keys (r :: rs)
  = and_then
      (run_on (reducer keys)
         (r :: take_while (λ y, bool_decide (keyfunc keys y = keyfunc keys r)) rs,
          None))
      (Reduce_groups reducer keys
         (drop_while (λ y, bool_decide (keyfunc keys y = keyfunc keys r)) rs)).
Proof. unfold Reduce_groups. by rewrite runs_by_cons. Qed.

Lemma Reduce_loop_groups fuel : ∀ g,
  gb_ok keys g → length (pending keys g) < fuel →
  Reduce_loop reducer keys fuel g = Reduce_groups reducer keys (pending keys g).
Proof.
  induction fuel as [|fuel IH]; intros g Hok Hlen; [lia|].
  simpl. pose proof (groupby_next_pending keys g Hok) as Hn.
  destruct (pending keys g) as [|r rs] eqn:Hp.
  - by rewrite Hn.
  - destruct Hn as (k & Hk & ->).
    assert (Hall : Forall (λ r, is_Some (keyfunc keys r)) rs).
    { destruct g as [[rows fin]|[rows fin] tgt ck cv]; simpl in *.
      - destruct Hok as [_ Hall]. subst rows. by inversion Hall.
      - destruct Hok as (_ & Hall & _). case_bool_decide.
        + pose proof (Forall_drop_while _ (has_key keys tgt) _ Hall) as Hd.
          rewrite Hp in Hd. by inversion Hd.
        + by injection Hp as _ ->. }
    pose proof (run_on_group_run keys (reducer keys) k r rs Hall Hk)
      as (Ht & Hok' & Hp').
    destruct (run_on_group keys (reducer keys) (GbAt (rs, None) k k r))
      as [t g']. simpl in Ht, Hok', Hp'. subst t.
    rewrite Reduce_groups_cons, Hk. fold (has_key keys k).
    f_equal. rewrite IH; [by rewrite Hp'|done|].
    rewrite Hp'. pose proof (drop_while_length (has_key keys k) rs).
    simpl in Hlen. lia.
Qed.

Lemma Reduce_call_groups rows :
  Forall (λ r, is_Some (keyfunc keys r)) rows →
  Reduce_call reducer keys (rows, None) = Reduce_groups reducer keys rows.
Proof.
  intros Hall. unfold Reduce_call.
  by rewrite Reduce_loop_groups; simpl; [ | | lia].
Qed.
End Reduce_facts.

(** ** Join *)

Section Join_facts.
Context (joiner : Joiner) (keys : list string).

Lemma with_next_group_ext g (k1 k2 : option (list value * groupby) → trace) :
  (∀ n, weight n ≤ potential g → k1 n = k2 n) →
  with_next_group keys g k1 = with_next_group keys g k2.
Proof.
  intros H. unfold with_next_group, get_next_group.
  destruct (groupby_next keys g) as [k g'| |e] eqn:E; [| |done].
  - apply H. apply groupby_next_potential in E. simpl. lia.
  - apply H. simpl. lia.
Qed.

Lemma joiner_groups_potential lg rg :
  potential (joiner_groups joiner keys lg rg).1.2 ≤ potential lg
  ∧ potential (joiner_groups joiner keys lg rg).2 ≤ potential rg.
Proof.
  unfold joiner_groups.
  pose proof (run_on_group_potential keys yield_from rg) as Hr.
  destruct (run_on_group keys yield_from rg) as [[out [e|]] rg']; [done|].
  simpl in *.
  pose proof (run_on_group_potential keys (joiner keys out) lg) as Hl.
  by destruct (run_on_group keys (joiner keys out) lg) as [t lg'].
Qed.

Lemma joiner_left_potential lg :
  potential (joiner_left joiner keys lg).2 ≤ potential lg.
Proof. apply run_on_group_potential. Qed.

Lemma joiner_right_potential rg :
  potential (joiner_right joiner keys rg).2 ≤ potential rg.
Proof.
  unfold joiner_right.
  pose proof (run_on_group_potential keys yield_from rg) as Hr.
  by destruct (run_on_group keys yield_from rg) as [[out [e|]] rg'].
Qed.

(** More fuel than groups changes nothing. *)
Lemma Join_loop_fuel f1 : ∀ f2 ln rn,
  weight ln + weight rn ≤ f1 → weight ln + weight rn ≤ f2 →
  Join_loop joiner keys f1 ln rn = Join_loop joiner keys f2 ln rn.
Proof.
  induction f1 as [|f1 IH]; intros f2 ln rn H1 H2.
  - destruct ln as [[??]|], rn as [[??]|]; simpl in H1; try lia.
    by destruct f2.
  - destruct f2 as [|f2].
    { destruct ln as [[??]|], rn as [[??]|]; simpl in H2; try lia. done. }
    cbn [Join_loop].
    destruct ln as [[kl lg]|], rn as [[kr rg]|]; simpl in H1, H2; [| | |done].
    + case_bool_decide.
      * pose proof (joiner_groups_potential lg rg) as [Hl Hr].
        destruct (joiner_groups joiner keys lg rg) as [[t lg'] rg'].
        simpl in Hl, Hr. f_equal.
        apply with_next_group_ext; intros ln Hln.
        apply with_next_group_ext; intros rn Hrn.
        apply IH; lia.
      * destruct (list_lt kl kr) as [[|]|e]; [| |done].
        -- pose proof (joiner_left_potential lg) as Hl.
           destruct (joiner_left joiner keys lg) as [t lg']. simpl in Hl.
           f_equal. apply with_next_group_ext; intros ln Hln.
           apply IH; simpl; lia.
        -- pose proof (joiner_right_potential rg) as Hr.
           destruct (joiner_right joiner keys rg) as [t rg']. simpl in Hr.
           f_equal. apply with_next_group_ext; intros rn Hrn.
           apply IH; simpl; lia.
    + pose proof (joiner_left_potential lg) as Hl.
      destruct (joiner_left joiner keys lg) as [t lg']. simpl in Hl.
      f_equal. apply with_next_group_ext; intros ln Hln.
      apply IH; simpl; lia.
    + pose proof (joiner_right_potential rg) as Hr.
      destruct (joiner_right joiner keys rg) as [t rg']. simpl in Hr.
      f_equal. apply with_next_group_ext; intros rn Hrn.
      apply IH; simpl; lia.
Qed.
(** The fuel of [Join_call] is enough: more changes nothing. *)
Lemma Join_call_fuel rows other fuel :
  length rows.1 + length other.1 ≤ fuel →
  with_next_group keys (GbFresh rows) (λ left_next,
  with_next_group keys (GbFresh other) (λ right_next,
    Join_loop joiner keys fuel left_next right_next))
  = Join_call joiner keys rows other.
Proof.
  intros H. unfold Join_call.
  apply with_next_group_ext; intros ln Hln.
  apply with_next_group_ext; intros rn Hrn.
  simpl in Hln, Hrn. apply Join_loop_fuel; lia.
Qed.
End Join_facts.

(** *** The empty key *)

Lemma keyfunc_nil r : keyfunc [] r = Some [].
Proof. done. Qed.

Lemma take_while_true {A} (p : A → bool) l :
  (∀ x, p x = true) → take_while p l = l.
Proof. intros H. induction l as [|x xs IH]; simpl; [done|]. by rewrite H, IH. Qed.

Lemma drop_while_true {A} (p : A → bool) l :
  (∀ x, p x = true) → drop_while p l = [].
Proof. intros H. induction l as [|x xs IH]; simpl; [done|]. by rewrite H. Qed.

Lemma Forall_keyfunc_nil rows : Forall (λ r, is_Some (keyfunc [] r)) rows.
Proof. apply Forall_forall. intros r _. by eexists. Qed.

(** With no key column a group iterator yields the whole stream, and no
    group follows. *)
Lemma run_on_group_whole c r rs :
  (run_on_group [] c (GbAt (rs, None) [] [] r)).1 = run_on c (r :: rs, None)
  ∧ groupby_next [] (run_on_group [] c (GbAt (rs, None) [] [] r)).2 = GbStop.
Proof.
  pose proof (run_on_group_run [] c [] r rs (Forall_keyfunc_nil rs)
                (keyfunc_nil r)) as (Ht & Hok & Hp).
  rewrite take_while_true in Ht by done.
  rewrite drop_while_true in Hp by done.
  split; [done|].
  pose proof (groupby_next_pending [] _ Hok) as Hn. by rewrite Hp in Hn.
Qed.

Lemma groupby_next_fresh_nil r rs :
  groupby_next [] (GbFresh (r :: rs, None))
  = GbGroup [] (GbAt (rs, None) [] [] r).
Proof. done. Qed.

Lemma Join_call_whole joiner rows other :
  rows ≠ [] ∨ other ≠ [] →
  Join_call joiner [] (rows, None) (other, None)
  = Joiner_call joiner [] (rows, None) (other, None).
Proof.
  intros Hne. unfold Join_call, Joiner_call, with_next_group, get_next_group.
  destruct rows as [|a rows], other as [|b other]; cbn [fst snd].
  - by destruct Hne.
  - rewrite groupby_next_fresh_nil.
    change (groupby_next [] (GbFresh ([], None))) with GbStop.
    cbn [Join_loop]. unfold joiner_right.
    pose proof (run_on_group_whole yield_from b other) as [Ht Hn].
    destruct (run_on_group [] yield_from (GbAt (other, None) [] [] b))
      as [tb rg']. simpl in Ht, Hn. subst tb. rewrite run_on_yield_from.
    cbn [fst snd]. unfold with_next_group, get_next_group. rewrite Hn.
    by rewrite and_then_nil_r.
  - rewrite groupby_next_fresh_nil.
    change (groupby_next [] (GbFresh ([], None))) with GbStop.
    cbn [Join_loop]. unfold joiner_left.
    pose proof (run_on_group_whole (joiner [] []) a rows) as [Ht Hn].
    destruct (run_on_group [] (joiner [] []) (GbAt (rows, None) [] [] a))
      as [t lg']. simpl in Ht, Hn. subst t.
    unfold with_next_group, get_next_group. rewrite Hn.
    destruct (length rows + 0); by rewrite and_then_nil_r.
  - rewrite !groupby_next_fresh_nil. cbn [Join_loop].
    rewrite bool_decide_eq_true_2 by done. unfold joiner_groups.
    pose proof (run_on_group_whole yield_from b other) as [Ht Hn].
    destruct (run_on_group [] yield_from (GbAt (other, None) [] [] b))
      as [tb rg']. simpl in Ht, Hn. subst tb. rewrite run_on_yield_from.
    cbn [fst snd].
    pose proof (run_on_group_whole (joiner [] (b :: other)) a rows) as [Ht Hn'].
    destruct (run_on_group [] (joiner [] (b :: other)) (GbAt (rows, None) [] [] a))
      as [t lg']. simpl in Ht, Hn'. subst t.
    unfold with_next_group, get_next_group. rewrite Hn, Hn'.
    destruct (length (a :: rows) + length (b :: other)); by rewrite and_then_nil_r.
Qed.

Lemma Reduce_call_whole reducer rows :
  rows ≠ [] →
  Reduce_call reducer [] (rows, None) = run_on (reducer []) (rows, None).
Proof.
  intros Hne. rewrite Reduce_call_groups by apply Forall_keyfunc_nil.
  destruct rows as [|r rs]; [done|].
  rewrite Reduce_groups_cons.
  rewrite take_while_true, drop_while_true by (intros; by rewrite !keyfunc_nil).
  apply and_then_nil_r.
Qed.

(** ** The joiners on unmatched groups *)

(** C1 (the code departs from the claim): on the inner-join scenario of
    the specification the second output row keeps the right column [v]
    without its suffix.  [InnerJoiner] renames the colliding column of
    [row_a] in place, so for the second right row of the group no column
    collides any more; the output is not the one the specification
    gives. *)
Theorem InnerJoiner_collision_scenario :
  Join_call (InnerJoiner "_1" "_2") ["id"] (left_rows, None) (right_rows, None)
  = ([row_of [("id", VInt 1); ("v_1", VStr "a"); ("v_2", VStr "x")];
      row_of [("id", VInt 1); ("v_1", VStr "a"); ("v", VStr "y")]], None)
  ∧ Join_call (InnerJoiner "_1" "_2") ["id"] (left_rows, None)
      (right_rows, None)
    ≠ ([row_of [("id", VInt 1); ("v_1", VStr "a"); ("v_2", VStr "x")];
        row_of [("id", VInt 1); ("v_1", VStr "a"); ("v_2", VStr "y")]], None).
Proof.
  assert (H : Join_call (InnerJoiner "_1" "_2") ["id"] (left_rows, None)
                (right_rows, None)
              = ([row_of [("id", VInt 1); ("v_1", VStr "a"); ("v_2", VStr "x")];
                  row_of [("id", VInt 1); ("v_1", VStr "a"); ("v", VStr "y")]],
                 None)) by (vm_compute; reflexivity).
  split; [exact H|]. rewrite H. intros Heq.
  apply (f_equal (λ t : trace,
           match t.1 with [_; m] => m !! "v" | _ => None end)) in Heq.
  vm_compute in Heq. discriminate.
Qed.

(** C7: with [LeftJoiner], a left group whose right group is empty passes
    through unchanged, both for the joiner called on iterables and as
    [Join] calls it on a group iterator; an empty left group emits
    nothing; and the left-join scenario of the specification yields its
    one left row. *)
Theorem LeftJoiner_unmatched_groups (a_suffix b_suffix : string)
    (keys : list string) :
  (∀ rows_a,
     Joiner_call (LeftJoiner a_suffix b_suffix) keys rows_a ([], None) = rows_a)
  ∧ (∀ lg,
       joiner_left (LeftJoiner a_suffix b_suffix) keys lg
       = run_on_group keys yield_from lg)
  ∧ (∀ rows_b,
       (Joiner_call (LeftJoiner a_suffix b_suffix) keys ([], None) rows_b).1
       = [])
  ∧ (∀ rg, (joiner_right (LeftJoiner a_suffix b_suffix) keys rg).1.1 = [])
  ∧ Join_call (LeftJoiner "_1" "_2") ["id"] (unmatched_left, None)
      (right_rows, None)
    = (unmatched_left, None).
Proof.
  assert (Hnil : ∀ all_rows_b,
    run_on (LeftJoiner a_suffix b_suffix keys all_rows_b) ([], None)
    = ([], None)).
  { intros [|b bs]; done. }
  split; [|split; [|split; [|split]]].
  - intros rows_a. unfold Joiner_call. cbn [fst snd].
    change (LeftJoiner a_suffix b_suffix keys []) with yield_from.
    apply run_on_yield_from.
  - done.
  - intros [rows_b [e|]]; unfold Joiner_call; cbn [fst snd]; [done|].
    by rewrite Hnil.
  - intros rg. unfold joiner_right.
    destruct (run_on_group keys yield_from rg) as [[out [e|]] rg']; [done|].
    cbn [fst snd]. by rewrite Hnil.
  - vm_compute. reflexivity.
Qed.

(** C8: with [OuterJoiner] and [RightJoiner], the rows of a right group
    whose left group is empty are emitted as they are, with no suffix
    added, both for the joiner called on iterables and as [Join] calls it
    on a group iterator; with [OuterJoiner] a left group whose right group
    is empty passes through unchanged as well. *)
Theorem Outer_Right_unmatched_groups (a_suffix b_suffix : string)
    (keys : list string) :
  (∀ all_rows_b,
     Joiner_call (OuterJoiner a_suffix b_suffix) keys ([], None)
       (all_rows_b, None) = (all_rows_b, None)
     ∧ Joiner_call (RightJoiner a_suffix b_suffix) keys ([], None)
         (all_rows_b, None) = (all_rows_b, None))
  ∧ (∀ rg all_rows_b,
       (run_on_group keys yield_from rg).1 = (all_rows_b, None) →
       (joiner_right (OuterJoiner a_suffix b_suffix) keys rg).1
         = (all_rows_b, None)
       ∧ (joiner_right (RightJoiner a_suffix b_suffix) keys rg).1
         = (all_rows_b, None))
  ∧ (∀ rows_a,
       Joiner_call (OuterJoiner a_suffix b_suffix) keys rows_a ([], None)
       = rows_a)
  ∧ (∀ lg,
       joiner_left (OuterJoiner a_suffix b_suffix) keys lg
       = run_on_group keys yield_from lg)
  ∧ Join_call (OuterJoiner "_1" "_2") ["id"] (unmatched_left, None)
      (right_rows, None)
    = ([row_of [("id", VInt 1); ("v", VStr "x")];
        row_of [("id", VInt 1); ("v", VStr "y")];
        row_of [("id", VInt 2); ("v", VStr "b")];
        row_of [("id", VInt 3); ("v", VStr "z")]], None)
  ∧ Join_call (RightJoiner "_1" "_2") ["id"] (unmatched_left, None)
      (right_rows, None)
    = (right_rows, None).
Proof.
  assert (Ho : ∀ all_rows_b,
    run_on (OuterJoiner a_suffix b_suffix keys all_rows_b) ([], None)
    = (all_rows_b, None)).
  { intros [|b bs]; [done|]. unfold OuterJoiner.
    rewrite bool_decide_eq_false_2 by done. done. }
  assert (Hr : ∀ all_rows_b,
    run_on (RightJoiner a_suffix b_suffix keys all_rows_b) ([], None)
    = (all_rows_b, None)).
  { intros bs. unfold run_on. simpl. done. }
  split; [|split; [|split; [|split; [|split]]]].
  - intros bs. unfold Joiner_call. cbn [fst snd]. by rewrite Ho, Hr.
  - intros rg bs Hb. unfold joiner_right.
    destruct (run_on_group keys yield_from rg) as [tb rg']. simpl in Hb.
    subst tb. cbn [fst snd]. by rewrite Ho, Hr.
  - intros rows_a. unfold Joiner_call. cbn [fst snd].
    change (OuterJoiner a_suffix b_suffix keys []) with yield_from.
    apply run_on_yield_from.
  - done.
  - vm_compute. reflexivity.
  - vm_compute. reflexivity.
Qed.

Lemma Outer_Right_unmatched_groups_witness :
  (joiner_right (OuterJoiner "_1" "_2") ["id"]
     (GbAt ([], None) [VInt 3] [VInt 3]
        (row_of [("id", VInt 3); ("v", VStr "z")]))).1
  = ([row_of [("id", VInt 3); ("v", VStr "z")]], None)
  ∧ (joiner_right (RightJoiner "_1" "_2") ["id"]
       (GbAt ([], None) [VInt 3] [VInt 3]
          (row_of [("id", VInt 3); ("v", VStr "z")]))).1
    = ([row_of [("id", VInt 3); ("v", VStr "z")]], None).
Proof.
  apply (Outer_Right_unmatched_groups "_1" "_2" ["id"]).
  vm_compute. reflexivity.
Defined.

(** C2: for every reducer and key tuple, on a stream whose rows all have
    the key columns, [Reduce] yields the outputs of the reducer on the
    maximal runs of rows with equal keys, concatenated in input order.
    The runs are the stream cut into pieces; no piece is empty, the rows
    of a piece share their key, and neighbouring pieces differ in theirs.
    The reducer is any generator over the group iterator, whether it
    reads the group to the end or not. *)
Theorem Reduce_concatenates_groups (reducer : Reducer) (keys : list string)
    (rows : list row) :
  Forall (λ r, is_Some (keyfunc keys r)) rows →
  let groups := runs_by (keyfunc keys) rows in
  Reduce_call reducer keys (rows, None)
    = chain ((λ group, run_on (reducer keys) (group, None)) <$> groups)
  ∧ concat groups = rows
  ∧ Forall (λ group, group ≠ []) groups
  ∧ Forall (λ group, ∀ x y, x ∈ group → y ∈ group →
                            keyfunc keys x = keyfunc keys y) groups
  ∧ runs_differ (keyfunc keys) groups.
Proof.
  intros Hall groups. split; [|split; [|split; [|split]]].
  - by apply Reduce_call_groups.
  - apply runs_by_concat.
  - apply runs_by_nonempty.
  - apply runs_by_constant.
  - apply runs_by_differ.
Qed.

Lemma Reduce_concatenates_groups_witness :
  let groups := runs_by (keyfunc ["id"]) right_rows in
  Reduce_call FirstReducer ["id"] (right_rows, None)
    = chain ((λ group, run_on (FirstReducer ["id"]) (group, None)) <$> groups)
  ∧ concat groups = right_rows
  ∧ Forall (λ group, group ≠ []) groups
  ∧ Forall (λ group, ∀ x y, x ∈ group → y ∈ group →
                            keyfunc ["id"] x = keyfunc ["id"] y) groups
  ∧ runs_differ (keyfunc ["id"]) groups.
Proof.
  apply (Reduce_concatenates_groups FirstReducer ["id"] right_rows).
  repeat constructor; vm_compute; eauto.
Defined.

(** The test of [Graph.reduce] in [tests/test_graph.py]: [FirstReducer]
    leaves the second row of the first group unread, and the next group
    still starts at the third row. *)
Example FirstReducer_skips_rest :
  Reduce_call FirstReducer ["test_id"]
    ([row_of [("test_id", VInt 1); ("text", VStr "First!")];
      row_of [("test_id", VInt 1); ("text", VStr "Second!")];
      row_of [("test_id", VInt 2); ("text", VStr "Hello darkness, my old friend")]],
     None)
  = ([row_of [("test_id", VInt 1); ("text", VStr "First!")];
      row_of [("test_id", VInt 2); ("text", VStr "Hello darkness, my old friend")]],
     None).
Proof. vm_compute. reflexivity. Qed.

(** C10: with an empty key tuple the key of every row is the empty list,
    so a non-empty stream is one group: [Reduce] yields what the reducer
    yields on the whole stream, and [Join] what the joiner yields on the
    two whole streams. *)
Theorem empty_keys_one_group :
  (∀ r, keyfunc [] r = Some [])
  ∧ (∀ rows, rows ≠ [] → runs_by (keyfunc []) rows = [rows])
  ∧ (∀ reducer rows, rows ≠ [] →
       Reduce_call reducer [] (rows, None) = run_on (reducer []) (rows, None))
  ∧ (∀ joiner rows other, rows ≠ [] ∨ other ≠ [] →
       Join_call joiner [] (rows, None) (other, None)
       = Joiner_call joiner [] (rows, None) (other, None)).
Proof.
  split; [done|]. split; [|split].
  - intros [|r rs] Hne; [done|]. rewrite runs_by_cons.
    rewrite take_while_true, drop_while_true by (intros; by rewrite !keyfunc_nil).
    done.
  - apply Reduce_call_whole.
  - apply Join_call_whole.
Qed.

(** The total of [inverted_index_graph]: [Count] with no key column counts
    the whole stream. *)
Lemma empty_keys_one_group_witness :
  Reduce_call (Count "total") [] (right_rows, None)
  = run_on (Count "total" []) (right_rows, None).
Proof.
  apply (proj1 (proj2 (proj2 empty_keys_one_group)) (Count "total") right_rows).
  discriminate.
Defined.

Example Count_over_whole_stream :
  Reduce_call (Count "total") [] (right_rows, None)
  = ([row_of [("total", VInt 3)]], None).
Proof. vm_compute. reflexivity. Qed.

(** ** Stable insertion sort *)

Section stable_sort_facts.
Context {A : Type} (before : A → A → bool).

Lemma stable_insert_perm x l : stable_insert before x l ≡ₚ x :: l.
Proof.
  induction l as [|y l IH]; simpl; [done|].
  destruct (before y x); [|done].
  rewrite IH. apply Permutation_swap.
Qed.

Lemma stable_sort_perm l : stable_sort before l ≡ₚ l.
Proof.
  induction l as [|x l IH]; simpl; [done|].
  by rewrite stable_insert_perm, IH.
Qed.

(** Rows that are equal for the order keep their input order. *)
Lemma stable_insert_filter (P : A → Prop) `{∀ x, Decision (P x)} x l :
  (∀ a b, P a → P b → before a b = false) →
  filter P (stable_insert before x l) = filter P (x :: l).
Proof.
  intros HP. induction l as [|y l IH]; simpl; [done|].
  destruct (before y x) eqn:E; [|done].
  rewrite !filter_cons in *. rewrite IH.
  destruct (decide (P x)) as [Hx|Hx], (decide (P y)) as [Hy|Hy]; try done.
  rewrite HP in E by done. done.
Qed.

Lemma stable_sort_filter (P : A → Prop) `{∀ x, Decision (P x)} l :
  (∀ a b, P a → P b → before a b = false) →
  filter P (stable_sort before l) = filter P l.
Proof.
  intros HP. induction l as [|x l IH]; simpl; [done|].
  rewrite stable_insert_filter by done. by rewrite !filter_cons, IH.
Qed.

Context (D : A → Prop).
Context (before_asym : ∀ x y, D x → D y → before x y = true → before y x = false).
Context (before_negtrans : ∀ x y z, D x → D y → D z →
  before y x = false → before z y = false → before z x = false).

Lemma stable_insert_sorted x l :
  D x → Forall D l →
  StronglySorted (not_behind before) l →
  StronglySorted (not_behind before) (stable_insert before x l).
Proof.
  intros Hx HD Hs. induction l as [|y l IH]; simpl.
  - repeat constructor.
  - apply Forall_cons in HD as [Hy HD].
    apply StronglySorted_cons in Hs as [Hyl Hs].
    destruct (before y x) eqn:E.
    + apply StronglySorted_cons. split; [|by apply IH].
      rewrite stable_insert_perm. constructor; [|done].
      unfold not_behind. by apply before_asym.
    + apply StronglySorted_cons. split; [|by apply StronglySorted_cons].
      constructor; [done|].
      rewrite Forall_forall in Hyl, HD |- *. intros z Hz.
      unfold not_behind in *. eapply (before_negtrans x y z); eauto.
Qed.

Lemma stable_sort_sorted l :
  Forall D l → StronglySorted (not_behind before) (stable_sort before l).
Proof.
  induction 1 as [|x l Hx HD IH]; simpl; [constructor|].
  apply stable_insert_sorted; [done| |done].
  by rewrite stable_sort_perm.
Qed.
End stable_sort_facts.

(** ** The order of keys *)

Lemma strict_total_asym {T} (lt : T → T → bool) x y :
  strict_total lt → lt x y = true → lt y x = false.
Proof.
  intros [Hi Ht Hc] Hxy. destruct (lt y x) eqn:E; [|done].
  by rewrite <- (Hi x), (Ht x y x).
Qed.

Lemma strict_total_negtrans {T} (lt : T → T → bool) x y z :
  strict_total lt → lt y x = false → lt z y = false → lt z x = false.
Proof.
  intros Hst Hyx Hzy. pose proof Hst as [Hi Ht Hc].
  destruct (lt z x) eqn:Hzx; [|done].
  destruct (lt x y) eqn:Hxy.
  - by rewrite (Ht z x y) in Hzy.
  - assert (x = y) as -> by by apply Hc. by rewrite Hzx in Hzy.
Qed.

Lemma Z_ltb_strict_total : strict_total Z.ltb.
Proof.
  split.
  - intros x. apply Z.ltb_irrefl.
  - intros x y z ?%Z.ltb_lt ?%Z.ltb_lt. apply Z.ltb_lt. lia.
  - intros x y ?%Z.ltb_ge ?%Z.ltb_ge. lia.
Qed.

Lemma ascii_compare_lt a b :
  Ascii.compare a b = Lt ↔ (Ascii.N_of_ascii a < Ascii.N_of_ascii b)%N.
Proof. unfold Ascii.compare. apply N.compare_lt_iff. Qed.

Lemma ascii_compare_eq a b : Ascii.compare a b = Eq ↔ a = b.
Proof.
  split; [apply Ascii.compare_eq_iff|intros ->].
  unfold Ascii.compare. apply N.compare_refl.
Qed.

Lemma string_compare_refl s : String.compare s s = Eq.
Proof.
  induction s as [|a s IH]; simpl; [done|].
  by rewrite (proj2 (ascii_compare_eq a a) eq_refl).
Qed.

Lemma string_compare_lt_trans s : ∀ t u,
  String.compare s t = Lt → String.compare t u = Lt → String.compare s u = Lt.
Proof.
  induction s as [|a s IH]; intros [|b t] [|c u]; simpl; try done.
  destruct (Ascii.compare a b) eqn:Eab; [| |done];
    destruct (Ascii.compare b c) eqn:Ebc; try done.
  - apply ascii_compare_eq in Eab as ->. apply ascii_compare_eq in Ebc as ->.
    rewrite (proj2 (ascii_compare_eq c c) eq_refl). apply IH.
  - apply ascii_compare_eq in Eab as ->. by rewrite Ebc.
  - apply ascii_compare_eq in Ebc as ->. by rewrite Eab.
  - apply (proj1 (ascii_compare_lt _ _)) in Eab.
    apply (proj1 (ascii_compare_lt _ _)) in Ebc.
    assert (Ascii.compare a c = Lt) as -> by (apply ascii_compare_lt; lia).
    done.
Qed.

Lemma string_ltb_strict_total : strict_total String.ltb.
Proof.
  split; unfold String.ltb.
  - intros x. by rewrite string_compare_refl.
  - intros x y z Hxy Hyz.
    destruct (String.compare x y) eqn:E1; try done.
    destruct (String.compare y z) eqn:E2; try done.
    by rewrite (string_compare_lt_trans x y z).
  - intros x y Hxy Hyx. rewrite String.compare_antisym in Hyx.
    destruct (String.compare x y) eqn:E; try done.
    by apply String.compare_eq_iff.
Qed.

Lemma column_lt_strict_total : strict_total column_lt.
Proof.
  pose proof Z_ltb_strict_total as [Zi Zt Zc].
  pose proof string_ltb_strict_total as [Si St Sc].
  split.
  - intros [[z|s]|]; simpl; auto.
  - intros [[a|a]|] [[b|b]|] [[c|c]|]; simpl; try done; eauto.
  - intros [[a|a]|] [[b|b]|]; simpl; try done; intros H1 H2.
    + by rewrite (Zc a b).
    + by rewrite (Sc a b).
Qed.

Lemma sort_key_lt_strict_total : strict_total sort_key_lt.
Proof.
  pose proof column_lt_strict_total as Hc. pose proof Hc as [Ci Ct Cc].
  split.
  - intros a. induction a as [|x a IH]; simpl; [done|].
    by rewrite bool_decide_eq_true_2.
  - intros a. induction a as [|x a IH]; intros [|y b] [|z c]; simpl; try done.
    intros H1 H2. repeat case_bool_decide; simplify_eq; eauto.
    by rewrite (strict_total_asym column_lt z y) in H2.
  - intros a. induction a as [|x a IH]; intros [|y b]; simpl; try done.
    destruct (decide (x = y)) as [->|Hxy].
    + rewrite !bool_decide_eq_true_2 by done. intros H1 H2. f_equal. by apply IH.
    + rewrite !bool_decide_eq_false_2 by done. intros H1 H2.
      destruct Hxy. by apply Cc.
Qed.

(** ** TopN *)

Lemma StronglySorted_fmap_on {A B} (f : A → B) (D : A → Prop)
    (R1 : relation A) (R2 : relation B) l :
  (∀ x y, D x → D y → R1 x y → R2 (f x) (f y)) →
  Forall D l → StronglySorted R1 l → StronglySorted R2 (f <$> l).
Proof.
  intros HR HD Hs. induction Hs as [|x l Hs IH Hx]; csimpl; [constructor|].
  apply Forall_cons in HD as [Dx HD]. constructor; [by apply IH|].
  rewrite Forall_fmap. rewrite Forall_forall in Hx, HD |- *.
  intros y Hy. apply HR; auto.
Qed.

Lemma filter_fmap_on {A B} (f : A → B) (D : A → Prop)
    (P : B → Prop) (Q : A → Prop)
    `{!∀ x, Decision (P x), !∀ x, Decision (Q x)} l :
  (∀ x, D x → (P (f x) ↔ Q x)) →
  Forall D l → filter P (f <$> l) = f <$> filter Q l.
Proof.
  intros HPQ. induction 1 as [|x l Hx HD IH]; csimpl; [done|].
  rewrite !filter_cons, IH.
  destruct (decide (P (f x))) as [HP|HP], (decide (Q x)) as [HQ|HQ];
    try done; by apply HPQ in Hx; tauto.
Qed.

Lemma mixed_same_kind vs :
  mixed vs = false → ∃ k, Forall (λ v, is_int v = k) vs.
Proof.
  destruct vs as [|v vs]; simpl.
  - exists true. constructor.
  - intros H%negb_false_iff. exists (is_int v). constructor; [done|].
    rewrite forallb_forall in H. apply Forall_forall. intros w Hw.
    apply list_elem_of_In, H in Hw. by destruct v, w.
Qed.

Lemma same_kind_mixed k vs : Forall (λ v, is_int v = k) vs → mixed vs = false.
Proof.
  destruct 1 as [|v vs Hv Hvs]; simpl; [done|].
  apply negb_false_iff, forallb_forall. intros w Hw.
  rewrite Forall_forall in Hvs. apply list_elem_of_In, Hvs in Hw.
  destruct v, w; simpl in *; congruence.
Qed.

Lemma mixed_app_l vs ws : mixed (vs ++ ws) = false → mixed vs = false.
Proof.
  intros [k Hk]%mixed_same_kind. apply (same_kind_mixed k).
  by apply Forall_app in Hk as [? _].
Qed.

Lemma lt_bool_column_lt x y :
  is_int x = is_int y → lt_bool x y = column_lt (Some x) (Some y).
Proof. by destruct x, y. Qed.

Lemma value_lt_lt_bool x y :
  is_int x = is_int y → value_lt x y = Ok (lt_bool x y).
Proof. by destruct x, y. Qed.

Lemma lt_bool_irrefl v : lt_bool v v = false.
Proof.
  rewrite lt_bool_column_lt by done.
  apply (st_irrefl _ column_lt_strict_total).
Qed.

Section TopN_facts.
Context (column : string) (n : Z) (keys : list string).

Lemma TopN_feed rows : ∀ acc vs,
  Forall2 (λ r v, r !! column = Some v) rows vs →
  mixed (acc.*1 ++ vs) = false →
  feed (TopN column n keys) acc rows None
  = (nlargest n (acc ++ zip vs rows), None).
Proof.
  induction rows as [|r rs IH]; intros acc vs Hvs Hmix.
  - inversion Hvs; subst. rewrite !app_nil_r in *. simpl. by rewrite Hmix.
  - inversion Hvs as [|? v ? vs' Hv Hvs']; subst. cbn [feed on_row TopN].
    rewrite Hv.
    assert (Hacc : mixed (acc ++ [(v, r)]).*1 = false).
    { rewrite fmap_app. simpl. apply (mixed_app_l _ vs').
      by rewrite <- app_assoc. }
    rewrite Hacc, andb_false_r.
    rewrite emit_nil. rewrite (IH _ vs' Hvs').
    + by rewrite <- app_assoc.
    + rewrite fmap_app, <- app_assoc. done.
Qed.

Lemma TopN_run rows vs :
  Forall2 (λ r v, r !! column = Some v) rows vs →
  mixed vs = false →
  run_on (TopN column n keys) (rows, None) = (nlargest n (zip vs rows), None).
Proof.
  intros Hvs Hmix. unfold run_on. cbn [init TopN].
  destruct (n <=? 0)%Z eqn:Hn.
  - unfold nlargest. apply Z.leb_le in Hn.
    by replace (Z.to_nat n) with 0 by lia.
  - rewrite emit_nil. cbn [fst snd]. by apply (TopN_feed rows [] vs).
Qed.
End TopN_facts.

(** [sorted(..., reverse=True)] on decorated rows of one kind of value:
    a permutation, in descending order, equal values in input order. *)
Lemma sorted_reverse_decorated (column : string) rows vs :
  Forall2 (λ r v, r !! column = Some v) rows vs →
  mixed vs = false →
  let sorted := (stable_sort (λ y x : value * row, lt_bool x.1 y.1)
                   (zip vs rows)).*2 in
  sorted ≡ₚ rows
  ∧ StronglySorted (column_ge column) sorted
  ∧ ∀ v, filter (λ r, r !! column = Some v) sorted
         = filter (λ r, r !! column = Some v) rows.
Proof.
  intros Hvs Hmix sorted. subst sorted.
  set (before := λ y x : value * row, lt_bool x.1 y.1).
  apply mixed_same_kind in Hmix as [k Hk].
  set (D := λ a : value * row, a.2 !! column = Some a.1 ∧ is_int a.1 = k).
  assert (HD : Forall D (zip vs rows)).
  { clear -Hvs Hk. induction Hvs as [|r v rs vs' Hv Hvs IH]; simpl; [constructor|].
    apply Forall_cons in Hk as [Hkv Hk]. constructor; [done|by apply IH]. }
  assert (Hlen : length rows = length vs) by by eapply Forall2_length.
  assert (HDs : Forall D (stable_sort before (zip vs rows))).
  { by rewrite stable_sort_perm. }
  split; [|split].
  - rewrite stable_sort_perm. rewrite snd_zip by lia. done.
  - apply (StronglySorted_fmap_on snd D (not_behind before)); [|done|].
    + intros [v1 r1] [v2 r2] [H1 K1] [H2 K2] Hnb. simpl in *.
      exists v1, v2. repeat split; [done..|].
      rewrite value_lt_lt_bool by congruence.
      unfold not_behind, before in Hnb. simpl in Hnb. by rewrite Hnb.
    + apply (stable_sort_sorted before D); [| |done].
      * intros x y [_ Kx] [_ Ky]. unfold before.
        rewrite !lt_bool_column_lt by congruence.
        apply strict_total_asym, column_lt_strict_total.
      * intros x y z [_ Kx] [_ Ky] [_ Kz]. unfold before.
        rewrite !lt_bool_column_lt by congruence.
        intros H1 H2.
        by apply (strict_total_negtrans column_lt _ (Some y.1) _
                    column_lt_strict_total).
  - intros v.
    rewrite (filter_fmap_on snd D _ (λ a, a.1 = v)); [|  |done].
    2:{ intros [v' r'] [H1 _]; simpl in *. rewrite H1. naive_solver. }
    rewrite (stable_sort_filter before (λ a, a.1 = v)).
    2:{ intros a b Ha Hb. unfold before. rewrite Ha, Hb. apply lt_bool_irrefl. }
    rewrite <- (filter_fmap_on snd D (λ r, r !! column = Some v)
                  (λ a, a.1 = v)); [| |done].
    2:{ intros [v' r'] [H1 _]; simpl in *. rewrite H1. naive_solver. }
    by rewrite snd_zip by lia.
Qed.

(** C6: on a group whose rows all have the column, with values of one
    kind, [TopN(column, n)] emits the first [n] rows (all of them if there
    are fewer, none if [n <= 0]) of the group reordered by descending
    value, rows of equal value keeping their input order; on the group of
    the scenario with ties it emits the two rows of value 5. *)
Theorem TopN_emits_largest (column : string) (n : Z) (keys : list string)
    (rows : list row) (vs : list value) :
  column_values column rows = Some vs →
  mixed vs = false →
  (∃ sorted,
     run_on (TopN column n keys) (rows, None) = (take (Z.to_nat n) sorted, None)
     ∧ sorted ≡ₚ rows
     ∧ StronglySorted (column_ge column) sorted
     ∧ ∀ v, filter (λ r, r !! column = Some v) sorted
            = filter (λ r, r !! column = Some v) rows)
  ∧ run_on (TopN "s" 2 ["k"]) (topn_group, None)
    = ([row_of [("k", VInt 1); ("s", VInt 5)];
        row_of [("k", VInt 1); ("s", VInt 5)]], None).
Proof.
  intros Hvs%mapM_Some Hmix. split; [|vm_compute; reflexivity].
  exists (stable_sort (λ y x : value * row, lt_bool x.1 y.1) (zip vs rows)).*2.
  split.
  - rewrite (TopN_run column n keys rows vs) by done.
    unfold nlargest. by rewrite fmap_take.
  - by apply sorted_reverse_decorated.
Qed.

Lemma TopN_emits_largest_witness :
  (∃ sorted,
     run_on (TopN "s" 2 ["k"]) (topn_group, None)
       = (take (Z.to_nat 2) sorted, None)
     ∧ sorted ≡ₚ topn_group
     ∧ StronglySorted (column_ge "s") sorted
     ∧ ∀ v, filter (λ r, r !! "s" = Some v) sorted
            = filter (λ r, r !! "s" = Some v) topn_group)
  ∧ run_on (TopN "s" 2 ["k"]) (topn_group, None)
    = ([row_of [("k", VInt 1); ("s", VInt 5)];
        row_of [("k", VInt 1); ("s", VInt 5)]], None).
Proof.
  apply (TopN_emits_largest "s" 2 ["k"] topn_group [VInt 5; VInt 5; VInt 3]).
  - vm_compute. reflexivity.
  - reflexivity.
Defined.

(** ** External sort *)

Section ExternalSort_facts.
Context (keys : list string).

Lemma row_before_asym x y :
  row_before keys x y = true → row_before keys y x = false.
Proof.
  unfold row_before. apply (strict_total_asym sort_key_lt).
  apply sort_key_lt_strict_total.
Qed.

Lemma row_before_trans x y z :
  row_before keys x y = true → row_before keys y z = true →
  row_before keys x z = true.
Proof. unfold row_before. apply (st_trans _ sort_key_lt_strict_total). Qed.

Lemma row_before_negtrans x y z :
  row_before keys y x = false → row_before keys z y = false →
  row_before keys z x = false.
Proof.
  unfold row_before.
  apply (strict_total_negtrans sort_key_lt _ (sort_key keys y) _
           sort_key_lt_strict_total).
Qed.

Lemma row_before_same_key a b :
  sort_key keys a = sort_key keys b → row_before keys a b = false.
Proof.
  unfold row_before. intros ->. apply (st_irrefl _ sort_key_lt_strict_total).
Qed.

Lemma sort_run_sorted run :
  StronglySorted (not_behind (row_before keys))
    (stable_sort (row_before keys) run).
Proof.
  apply (stable_sort_sorted _ (λ _, True)).
  - intros x y _ _. apply row_before_asym.
  - intros x y z _ _ _. apply row_before_negtrans.
  - by apply Forall_forall.
Qed.

Lemma pop_min_None runs : pop_min keys runs = None → concat runs = [].
Proof.
  induction runs as [|run rest IH]; simpl; [done|].
  destruct run as [|x run'], (pop_min keys rest) as [[y rest']|];
    try done; auto.
  by destruct (row_before keys y x).
Qed.

Lemma pop_min_perm runs : ∀ x runs',
  pop_min keys runs = Some (x, runs') → concat runs ≡ₚ x :: concat runs'.
Proof.
  induction runs as [|run rest IH]; intros x runs'; simpl; [done|].
  destruct run as [|x0 run'], (pop_min keys rest) as [[y rest']|] eqn:E.
  - intros [= <- <-]. simpl. by apply IH.
  - done.
  - destruct (row_before keys y x0); intros [= <- <-]; simpl; [|done].
    rewrite (IH y rest' eq_refl).
    apply (Permutation_sym (Permutation_middle (x0 :: run') (concat rest') y)).
  - by intros [= <- <-].
Qed.

Lemma pop_min_sorted runs : ∀ x runs',
  pop_min keys runs = Some (x, runs') →
  Forall (StronglySorted (not_behind (row_before keys))) runs →
  Forall (StronglySorted (not_behind (row_before keys))) runs'.
Proof.
  induction runs as [|run rest IH]; intros x runs'; simpl; [done|].
  intros Hp [Hrun Hrest]%Forall_cons.
  destruct run as [|x0 run'], (pop_min keys rest) as [[y rest']|] eqn:E;
    try done.
  - injection Hp as <- <-. constructor; [done|]. by eapply IH.
  - apply StronglySorted_cons in Hrun as Hrun'.
    destruct (row_before keys y x0); injection Hp as <- <-.
    + constructor; [done|]. by eapply IH.
    + constructor; [tauto|done].
  - injection Hp as <- <-. apply StronglySorted_cons in Hrun.
    constructor; [tauto|done].
Qed.

(** No row of the runs sorts strictly before the row the heap gives. *)
Lemma pop_min_least runs : ∀ x runs',
  pop_min keys runs = Some (x, runs') →
  Forall (StronglySorted (not_behind (row_before keys))) runs →
  Forall (not_behind (row_before keys) x) (concat runs).
Proof.
  induction runs as [|run rest IH]; intros x runs'; simpl; [done|].
  intros Hp [Hrun Hrest]%Forall_cons.
  assert (Hself : ∀ a, not_behind (row_before keys) a a).
  { intros a. by apply row_before_same_key. }
  destruct run as [|x0 run'], (pop_min keys rest) as [[y rest']|] eqn:E;
    try done.
  - injection Hp as <- <-. simpl. by eapply IH.
  - apply StronglySorted_cons in Hrun as [Hx0 _].
    specialize (IH y rest' eq_refl Hrest).
    destruct (row_before keys y x0) eqn:Hb; injection Hp as <- <-.
    + apply Forall_app. split; [|done].
      assert (Hy : Forall (not_behind (row_before keys) x0) (x0 :: run'))
        by (constructor; auto).
      eapply Forall_impl; [exact Hy|]. intros z Hz. unfold not_behind in *.
      destruct (row_before keys z y) eqn:Hzy; [|done].
      by rewrite (row_before_trans z y x0) in Hz.
    + apply Forall_app. split; [constructor; auto|].
      eapply Forall_impl; [exact IH|]. intros z Hz. unfold not_behind in *.
      by apply (row_before_negtrans x0 y z).
  - injection Hp as <- <-. apply StronglySorted_cons in Hrun as [Hx0 _].
    rewrite (pop_min_None rest E), app_nil_r. constructor; auto.
Qed.

(** Rows that are equal for the order leave the runs in run order. *)
Lemma pop_min_filter (P : row → Prop) `{!∀ r, Decision (P r)} runs :
  (∀ a b, P a → P b → row_before keys a b = false) →
  ∀ x runs',
  pop_min keys runs = Some (x, runs') →
  Forall (StronglySorted (not_behind (row_before keys))) runs →
  concat (filter P <$> runs) = filter P [x] ++ concat (filter P <$> runs').
Proof.
  intros HP. induction runs as [|run rest IH]; intros x runs'; simpl; [done|].
  intros Hp [Hrun Hrest]%Forall_cons.
  destruct run as [|x0 run'], (pop_min keys rest) as [[y rest']|] eqn:E;
    try done.
  - injection Hp as <- <-. csimpl. by apply IH.
  - specialize (IH y rest' eq_refl Hrest).
    destruct (row_before keys y x0) eqn:Hb; injection Hp as <- <-; csimpl.
    + rewrite IH. rewrite !app_assoc. f_equal.
      rewrite (filter_cons P y), (filter_nil P).
      destruct (decide (P y)) as [Hy|Hy]; [|by rewrite app_nil_r].
      assert (Hnone : filter P (x0 :: run') = []).
      { apply StronglySorted_cons in Hrun as [Hx0 _].
        assert (Hall : Forall (not_behind (row_before keys) x0) (x0 :: run')).
        { constructor; [by apply row_before_same_key|done]. }
        clear -Hall HP Hy Hb. induction Hall as [|z l Hz Hl IHl]; [done|].
        rewrite filter_cons, IHl. destruct (decide (P z)) as [Hpz|]; [|done].
        unfold not_behind in Hz.
        by rewrite (row_before_negtrans x0 z y Hz (HP y z Hy Hpz)) in Hb. }
      by rewrite Hnone.
    + rewrite !filter_cons, filter_nil. by destruct (decide (P x0)).
  - injection Hp as <- <-. csimpl.
    rewrite !filter_cons, filter_nil. by destruct (decide (P x0)).
Qed.

Lemma merge_runs_perm fuel : ∀ runs,
  length (concat runs) ≤ fuel → merge_runs keys fuel runs ≡ₚ concat runs.
Proof.
  induction fuel as [|fuel IH]; intros runs Hlen; simpl.
  - destruct (concat runs); [done|simpl in Hlen; lia].
  - destruct (pop_min keys runs) as [[x runs']|] eqn:E.
    + pose proof (pop_min_perm runs x runs' E) as Hp.
      rewrite Hp. constructor. apply IH.
      apply Permutation_length in Hp. simpl in Hp. lia.
    + by rewrite (pop_min_None runs E).
Qed.

Lemma merge_runs_Forall (P : row → Prop) fuel : ∀ runs,
  Forall P (concat runs) → Forall P (merge_runs keys fuel runs).
Proof.
  induction fuel as [|fuel IH]; intros runs Hall; simpl; [constructor|].
  destruct (pop_min keys runs) as [[x runs']|] eqn:E; [|constructor].
  rewrite (pop_min_perm runs x runs' E) in Hall.
  apply Forall_cons in Hall as [Hx Hall]. constructor; auto.
Qed.

Lemma merge_runs_sorted fuel : ∀ runs,
  Forall (StronglySorted (not_behind (row_before keys))) runs →
  StronglySorted (not_behind (row_before keys)) (merge_runs keys fuel runs).
Proof.
  induction fuel as [|fuel IH]; intros runs Hs; simpl; [constructor|].
  destruct (pop_min keys runs) as [[x runs']|] eqn:E; [|constructor].
  constructor.
  - apply IH. by eapply pop_min_sorted.
  - apply merge_runs_Forall.
    pose proof (pop_min_least runs x runs' E Hs) as Hl.
    rewrite (pop_min_perm runs x runs' E) in Hl.
    by apply Forall_cons in Hl as [_ ?].
Qed.

Lemma merge_runs_filter (P : row → Prop) `{!∀ r, Decision (P r)} fuel :
  (∀ a b, P a → P b → row_before keys a b = false) →
  ∀ runs,
  length (concat runs) ≤ fuel →
  Forall (StronglySorted (not_behind (row_before keys))) runs →
  filter P (merge_runs keys fuel runs) = concat (filter P <$> runs).
Proof.
  intros HP. induction fuel as [|fuel IH]; intros runs Hlen Hs; simpl.
  - destruct (concat runs) eqn:E; [|simpl in Hlen; lia].
    clear -E. induction runs as [|run rest IH]; [done|].
    simpl in E. apply app_eq_nil in E as [-> E]. csimpl. by apply IH.
  - destruct (pop_min keys runs) as [[x runs']|] eqn:E.
    + rewrite (pop_min_filter P runs HP x runs' E Hs).
      rewrite !filter_cons, filter_nil.
      pose proof (pop_min_perm runs x runs' E) as Hp.
      apply Permutation_length in Hp. simpl in Hp.
      rewrite IH; [by destruct (decide (P x))|lia|by eapply pop_min_sorted].
    + pose proof (pop_min_None runs E) as Hnil.
      clear -Hnil. induction runs as [|run rest IH]; [done|].
      simpl in Hnil. apply app_eq_nil in Hnil as [-> E]. csimpl. by apply IH.
Qed.

Lemma spill_runs_perm bound rows : ∀ buffer,
  concat (spill_runs keys bound buffer rows) ≡ₚ buffer ++ rows.
Proof.
  induction rows as [|r rs IH]; intros buffer; simpl.
  - by rewrite stable_sort_perm.
  - destruct (bound <? length (buffer ++ [r])); simpl.
    + rewrite stable_sort_perm, IH. by rewrite <- app_assoc.
    + rewrite IH. by rewrite <- app_assoc.
Qed.

Lemma spill_runs_sorted bound rows : ∀ buffer,
  Forall (StronglySorted (not_behind (row_before keys)))
    (spill_runs keys bound buffer rows).
Proof.
  induction rows as [|r rs IH]; intros buffer; simpl.
  - repeat constructor. apply sort_run_sorted.
  - destruct (bound <? length (buffer ++ [r])); [|done].
    constructor; [apply sort_run_sorted|done].
Qed.

Lemma spill_runs_filter (P : row → Prop) `{!∀ r, Decision (P r)} bound rows :
  (∀ a b, P a → P b → row_before keys a b = false) →
  ∀ buffer,
  concat (filter P <$> spill_runs keys bound buffer rows)
  = filter P (buffer ++ rows).
Proof.
  intros HP. induction rows as [|r rs IH]; intros buffer; simpl.
  - rewrite !app_nil_r. by apply stable_sort_filter.
  - destruct (bound <? length (buffer ++ [r])); csimpl.
    + rewrite IH, stable_sort_filter by done.
      by rewrite <- filter_app, <- app_assoc.
    + rewrite IH. by rewrite <- app_assoc.
Qed.
End ExternalSort_facts.

(** C4: [sort(keys)] with any memory bound yields a permutation of its
    input, in which no row sorts strictly before an earlier one for the
    lexicographic comparison of keys, a strict total order, and in which
    the rows of each key stand in their input order; with a bound of two
    rows the seven rows of the scenario are spilled as three runs and
    come out sorted, the two rows of key 1 in input order. *)
Theorem ExternalSort_stable (bound : nat) (keys : list string)
    (rows : list row) :
  (∃ out,
     ExternalSort_call bound keys (rows, None) = (out, None)
     ∧ out ≡ₚ rows
     ∧ StronglySorted (λ x y, row_before keys y x = false) out
     ∧ ∀ kv, filter (λ r, sort_key keys r = kv) out
             = filter (λ r, sort_key keys r = kv) rows)
  ∧ strict_total sort_key_lt
  ∧ length (spill_runs ["k"] 2 [] sort_rows) = 3
  ∧ ExternalSort_call 2 ["k"] (sort_rows, None)
    = ((λ n, row_of [("k", VInt n)]) <$> [1; 1; 2; 3; 4; 5; 9]%Z, None)
  ∧ ExternalSort_call 2 ["k"] (tagged_sort_rows, None)
    = ([row_of [("k", VInt 1); ("tag", VStr "first")];
        row_of [("k", VInt 1); ("tag", VStr "second")];
        row_of [("k", VInt 2)]; row_of [("k", VInt 3)];
        row_of [("k", VInt 4)]; row_of [("k", VInt 5)];
        row_of [("k", VInt 9)]], None).
Proof.
  split; [|split; [apply sort_key_lt_strict_total|]].
  - exists (merge_runs keys (length rows) (spill_runs keys bound [] rows)).
    assert (Hp : concat (spill_runs keys bound [] rows) ≡ₚ rows)
      by apply spill_runs_perm.
    split; [done|]. split; [|split].
    + rewrite merge_runs_perm; [done|].
      by rewrite (Permutation_length Hp).
    + apply merge_runs_sorted, spill_runs_sorted.
    + intros kv.
      assert (HP : ∀ a b, sort_key keys a = kv → sort_key keys b = kv →
                          row_before keys a b = false).
      { intros a b Ha Hb. apply row_before_same_key. congruence. }
      rewrite merge_runs_filter.
      * by rewrite spill_runs_filter.
      * done.
      * by rewrite (Permutation_length Hp).
      * apply spill_runs_sorted.
  - repeat split; vm_compute; reflexivity.
Qed.

(** ** Map *)

Lemma lookup_total_eq (h h' : heap) l : h' !! l = h !! l → h' !!! l = h !!! l.
Proof. intros H. by rewrite !lookup_total_alt, H. Qed.

Lemma contents_eq (h h' : heap) ls :
  Forall (λ l, h' !! l = h !! l) ls → contents h' ls = contents h ls.
Proof.
  induction 1 as [|l ls Hl Hls IH]; [done|]. unfold contents in *. csimpl.
  by rewrite IH, (lookup_total_eq h h' l).
Qed.

Lemma mapM_lookup_app (h : heap) out out' rs rs' :
  mapM (λ o, h !! o) out = Some rs → mapM (λ o, h !! o) out' = Some rs' →
  mapM (λ o, h !! o) (out ++ out') = Some (rs ++ rs').
Proof. rewrite !mapM_Some. apply Forall2_app. Qed.

Lemma mapM_lookup_frame (h h' : heap) out rs :
  (∀ l, l ∈ dom h → h' !! l = h !! l) →
  mapM (λ o, h !! o) out = Some rs → mapM (λ o, h' !! o) out = Some rs.
Proof.
  intros Hf. rewrite !mapM_Some. intros H.
  eapply Forall2_impl; [exact H|]. intros o r Ho. simpl in *.
  rewrite Hf; [done|]. apply elem_of_dom. by eexists.
Qed.

(** The step of [Map]: the mapper runs on a fresh copy, so nothing that
    existed before is changed. *)
Lemma mapper_on_copy mapper m (h : heap) l r :
  mapper_local mapper → mapper_computes mapper m →
  h !! l = Some r →
  let step := mapper (deepcopy h l).1 (deepcopy h l).2 in
  mapM (λ o, step.2 !! o) step.1.1 = Some (m r).1
  ∧ step.1.2 = (m r).2
  ∧ ∀ l', l' ∈ dom h → step.2 !! l' = h !! l'.
Proof.
  intros Hlocal Hcomp Hl step. unfold deepcopy in step. simpl in step.
  set (c := fresh (dom h)) in *.
  assert (Hc : c ∉ dom h) by apply is_fresh.
  assert (Hh1 : (<[c := h !!! l]> h : heap) !! c = Some r).
  { rewrite lookup_insert_eq. f_equal. by apply lookup_total_correct. }
  destruct (Hcomp c (<[c := h !!! l]> h) r Hh1) as [H1 H2].
  split; [done|]. split; [done|].
  intros l' Hl'. unfold step. rewrite Hlocal.
  - apply lookup_insert_ne. set_solver.
  - rewrite dom_insert. set_solver.
  - set_solver.
Qed.

Lemma Map_loop_refines mapper m fin rows : ∀ h : heap,
  mapper_local mapper → mapper_computes mapper m →
  Forall (λ l, l ∈ dom h) rows →
  mapM (λ o, (Map_loop mapper h rows fin).2 !! o) (Map_loop mapper h rows fin).1.1
    = Some (Map_rows m (contents h rows) fin).1
  ∧ (Map_loop mapper h rows fin).1.2 = (Map_rows m (contents h rows) fin).2
  ∧ ∀ l, l ∈ dom h → (Map_loop mapper h rows fin).2 !! l = h !! l.
Proof.
  induction rows as [|l ls IH]; intros h Hlocal Hcomp Hdom; [done|].
  apply Forall_cons in Hdom as [Hl Hls].
  apply elem_of_dom in Hl as [r Hr].
  pose proof (mapper_on_copy mapper m h l r Hlocal Hcomp Hr) as (H1 & H2 & H3).
  unfold deepcopy in H1, H2, H3. cbn [fst snd] in H1, H2, H3.
  cbn [Map_loop]. unfold deepcopy.
  destruct (mapper (fresh (dom h)) (<[fresh (dom h) := h !!! l]> h))
    as [[out e] h2]. cbn [fst snd] in H1, H2, H3.
  assert (Hcont : contents h (l :: ls) = r :: contents h ls).
  { unfold contents. csimpl. by rewrite (lookup_total_correct _ _ _ Hr). }
  rewrite Hcont. cbn [Map_rows]. unfold and_then. rewrite <- H2.
  destruct e as [x|]; [done|].
  assert (Hls2 : Forall (λ l, l ∈ dom h2) ls).
  { eapply Forall_impl; [exact Hls|]. intros l' Hl'. simpl in *.
    apply elem_of_dom. rewrite H3 by done. by apply elem_of_dom. }
  destruct (IH h2 Hlocal Hcomp Hls2) as (I1 & I2 & I3).
  rewrite (contents_eq h h2 ls) in I1, I2.
  2,3: eapply Forall_impl; [exact Hls|]; intros l' Hl'; by apply H3.
  destruct (Map_loop mapper h2 ls fin) as [[out' e'] h3].
  cbn [fst snd] in *. split; [|split; [done|]].
  - apply mapM_lookup_app; [|done]. by apply (mapM_lookup_frame h2).
  - intros l' Hl'. rewrite I3, H3; [done..|].
    apply elem_of_dom. rewrite H3 by done. by apply elem_of_dom.
Qed.

Lemma BinaryArithmeticOperation_local operation column :
  mapper_local (BinaryArithmeticOperation operation column).
Proof.
  intros l h l' Hl' Hne. unfold BinaryArithmeticOperation.
  destruct (operation (h !!! l)); simpl; [|done].
  by apply lookup_insert_ne.
Qed.

Lemma BinaryArithmeticOperation_computes operation column :
  mapper_computes (BinaryArithmeticOperation operation column)
    (arithmetic_rows operation column).
Proof.
  intros l h r Hr. unfold BinaryArithmeticOperation, arithmetic_rows.
  rewrite (lookup_total_correct _ _ _ Hr).
  destruct (operation r); simpl; [|done].
  by rewrite lookup_insert_eq.
Qed.

(** C3: for a mapper that changes no object but its argument and those
    it creates, and that yields on an object the rows [m] gives for its
    contents, the objects [Map] yields hold, at the end of the run, the
    concatenation of [m] over the contents of the input rows in order,
    the run ends as that concatenation does, and every object that
    existed before the run, the input rows among them, has its contents
    unchanged: the mapper has only seen copies. *)
Theorem Map_call_refines (mapper : Mapper) (m : row → trace) (h : heap)
    (rows : list loc) (fin : option exn) :
  mapper_local mapper → mapper_computes mapper m →
  Forall (λ l, l ∈ dom h) rows →
  mapM (λ o, (Map_call mapper h (rows, fin)).2 !! o)
       (Map_call mapper h (rows, fin)).1.1
    = Some (Map_rows m (contents h rows) fin).1
  ∧ (Map_call mapper h (rows, fin)).1.2
    = (Map_rows m (contents h rows) fin).2
  ∧ ∀ l, l ∈ dom h → (Map_call mapper h (rows, fin)).2 !! l = h !! l.
Proof. intros. by apply Map_loop_refines. Qed.

Lemma Map_call_refines_witness :
  mapM (λ o, (Map_call (BinaryArithmeticOperation first_times_second "result")
                test_heap ([1; 2]%positive, None)).2 !! o)
       (Map_call (BinaryArithmeticOperation first_times_second "result")
          test_heap ([1; 2]%positive, None)).1.1
    = Some (Map_rows (arithmetic_rows first_times_second "result")
              (contents test_heap [1; 2]%positive) None).1
  ∧ (Map_call (BinaryArithmeticOperation first_times_second "result")
       test_heap ([1; 2]%positive, None)).1.2
    = (Map_rows (arithmetic_rows first_times_second "result")
         (contents test_heap [1; 2]%positive) None).2
  ∧ ∀ l, l ∈ dom test_heap →
         (Map_call (BinaryArithmeticOperation first_times_second "result")
            test_heap ([1; 2]%positive, None)).2 !! l = test_heap !! l.
Proof.
  apply (Map_call_refines (BinaryArithmeticOperation first_times_second "result")
           (arithmetic_rows first_times_second "result") test_heap
           [1; 2]%positive None).
  - apply BinaryArithmeticOperation_local.
  - apply BinaryArithmeticOperation_computes.
  - repeat constructor; by vm_compute.
Defined.

(** The first case of [tests/test_operations.py]: the rows [Map] yields,
    and the input rows after the run. *)
Example Map_test_case :
  contents
    (Map_call (BinaryArithmeticOperation first_times_second "result")
       test_heap ([1; 2]%positive, None)).2
    (Map_call (BinaryArithmeticOperation first_times_second "result")
       test_heap ([1; 2]%positive, None)).1.1
  = [row_of [("test_id", VInt 1); ("first", VInt 10); ("second", VInt 5);
             ("result", VInt 50)];
     row_of [("test_id", VInt 2); ("first", VInt 0); ("second", VInt 8);
             ("result", VInt 0)]]
  ∧ contents
      (Map_call (BinaryArithmeticOperation first_times_second "result")
         test_heap ([1; 2]%positive, None)).2 [1; 2]%positive
    = contents test_heap [1; 2]%positive.
Proof. split; vm_compute; reflexivity. Qed.

(** ** Graph *)

(** Every operation of the repository pulls its first input before it
    does anything else: a first input that fails at its first pull makes
    the operation fail the same way. *)
Lemma Map_op_pulls_first m e rest kw :
  Map_op m (([], Some e) :: rest) kw = ([], Some e).
Proof. done. Qed.

Lemma Reduce_op_pulls_first reducer keys e rest kw :
  Reduce_op reducer keys (([], Some e) :: rest) kw = ([], Some e).
Proof. done. Qed.

Lemma ExternalSort_pulls_first bound keys e rest kw :
  ExternalSort bound keys (([], Some e) :: rest) kw = ([], Some e).
Proof. done. Qed.

Lemma Join_op_pulls_first joiner keys e other rest kw :
  Join_op joiner keys (([], Some e) :: other :: rest) kw = ([], Some e).
Proof. done. Qed.

(** [Join] pulls the first group of its left stream, then the first
    group of its right stream, and only then yields: an exception at the
    first pull on the left is the exception of the join, whatever the
    right stream is, and after a first pull on the left that raises
    nothing so is an exception at the first pull on the right. *)
Lemma pulls_first_group_spec keys t :
  pulls_first_group keys t
  ↔ t = ([], None)
    ∨ ∃ r rs fin, t = (r :: rs, fin) ∧ is_Some (keyfunc keys r).
Proof.
  unfold pulls_first_group, get_next_group.
  destruct t as [[|r rs] fin]; cbn [groupby_next groupby_scan fst snd].
  - destruct fin as [e|].
    + split; [by intros [next ?]|]. intros [[=]|(r & rs & fin & [=] & _)].
    + split; [by left|]. intros _. by eexists.
  - destruct (keyfunc keys r) as [k|] eqn:Hk.
    + rewrite bool_decide_eq_false_2 by done. split.
      * intros _. right. exists r, rs, fin. split; [done|]. by exists k.
      * intros _. by eexists.
    + split; [by intros [next ?]|].
      intros [[=]|(r' & rs' & fin' & [= <- <- <-] & [k Hk'])]. congruence.
Qed.

Lemma Join_call_left_fails joiner keys rows other e :
  get_next_group keys (GbFresh rows) = Err e →
  Join_call joiner keys rows other = ([], Some e).
Proof. intros H. unfold Join_call, with_next_group. by rewrite H. Qed.

Lemma Join_call_right_fails joiner keys rows e :
  pulls_first_group keys rows →
  Join_call joiner keys rows ([], Some e) = ([], Some e).
Proof. intros [next H]. unfold Join_call, with_next_group. by rewrite H. Qed.

Lemma fails_first_run_body kw g :
  fails_first kw g → Graph_run_body g kw = ([], Some EmptyOperation).
Proof.
  induction 1 as [graphs|name Hname|g m _ IH|g r keys _ IH|bound g keys _ IH
                 |g j g' keys _ IH|g j g' keys Hleft _ IH].
  - done.
  - simpl. unfold ReadIterFactory. by rewrite Hname.
  - simpl. by rewrite IH.
  - simpl. by rewrite IH.
  - simpl. by rewrite IH.
  - simpl. by rewrite IH.
  - cbn [Graph_join Graph_run_body Join_op]. rewrite IH.
    by apply Join_call_right_fails.
Qed.

(** C5 (counterexample): the graph joins a bound left source with a
    right source whose name is not bound; the one left row lacks the key
    column, so the run fails with [KeyError] before the right source is
    read, and not with [EmptyOperation].  Over a left source whose rows
    have the key column the same graph fails with [EmptyOperation] (see
    the amended statement). *)
Lemma unbound_source_behind_failing_input :
  ¬ (∀ g kw, no_operation g ∨ contains_unbound_source kw g →
             (Graph_run_body g kw).2 = Some EmptyOperation).
Proof.
  intros H. specialize (H join_of_sources left_only).
  assert (Hrun : Graph_run_body join_of_sources left_only = ([], Some KeyError))
    by (vm_compute; reflexivity).
  rewrite Hrun in H. simpl in H.
  assert (Hf : contains_unbound_source left_only join_of_sources).
  { apply (cu_upstream _ _ _ (graph_from_iter "right")).
    - apply list_elem_of_In. simpl. tauto.
    - apply cu_source. by vm_compute. }
  specialize (H (or_intror Hf)). discriminate.
Qed.

(** C5 (amended): when the node of the graph has no operation or is a
    source whose name is not bound, or when such a node is reached from
    it through the input of map, reduce and sort, the left input of join,
    or the right input of a join whose left input gives its first group,
    the stream of [run] fails with [EmptyOperation] at its first advance,
    before any row.  When the left input of a join raises at its first
    pull (it raises itself, or its first row lacks a key column), the
    join fails with that exception at its first advance, whatever its
    right input is: this is the one way in which another exception
    surfaces in place of the [EmptyOperation] of a right input, so a join
    over such a right input fails with [EmptyOperation] or with the
    exception of the first pull on its left input. *)
Theorem fails_first_EmptyOperation (kw : kwargs) :
  (∀ g, fails_first kw g →
     Graph_run_body g kw = ([], Some EmptyOperation)
     ∧ ∃ gen, Graph_run g kw = Ok gen
              ∧ gen_next gen = Raises EmptyOperation)
  ∧ (∀ g joiner join_graph keys e,
       get_next_group keys (GbFresh (Graph_run_body g kw)) = Err e →
       Graph_run_body (Graph_join g joiner join_graph keys) kw
       = ([], Some e)
       ∧ ∃ gen, Graph_run (Graph_join g joiner join_graph keys) kw = Ok gen
                ∧ gen_next gen = Raises e)
  ∧ (∀ g joiner join_graph keys,
       fails_first kw join_graph →
       Graph_run_body (Graph_join g joiner join_graph keys) kw
       = ([], Some match get_next_group keys
                           (GbFresh (Graph_run_body g kw)) with
                   | Ok _ => EmptyOperation
                   | Err e => e
                   end)).
Proof.
  split; [|split].
  - intros g H%fails_first_run_body. split; [done|].
    eexists. split; [done|]. by rewrite H.
  - intros g joiner join_graph keys e H.
    assert (Hrun : Graph_run_body (Graph_join g joiner join_graph keys) kw
                   = ([], Some e)).
    { cbn [Graph_join Graph_run_body Join_op].
      by apply Join_call_left_fails. }
    split; [done|]. eexists. split; [done|]. by rewrite Hrun.
  - intros g joiner join_graph keys Hright.
    destruct (get_next_group keys (GbFresh (Graph_run_body g kw)))
      as [next|e] eqn:Hleft.
    + apply fails_first_run_body, ff_join_right; [by exists next|done].
    + cbn [Graph_join Graph_run_body Join_op].
      by apply Join_call_left_fails.
Qed.

Lemma fails_first_EmptyOperation_witness :
  (Graph_run_body pipeline_on_missing ∅ = ([], Some EmptyOperation)
   ∧ ∃ gen, Graph_run pipeline_on_missing ∅ = Ok gen
            ∧ gen_next gen = Raises EmptyOperation)
  ∧ (Graph_run_body join_of_sources left_with_keys
       = ([], Some EmptyOperation)
     ∧ ∃ gen, Graph_run join_of_sources left_with_keys = Ok gen
              ∧ gen_next gen = Raises EmptyOperation)
  ∧ (Graph_run_body reduce_of_nothing ∅ = ([], Some EmptyOperation)
     ∧ ∃ gen, Graph_run reduce_of_nothing ∅ = Ok gen
              ∧ gen_next gen = Raises EmptyOperation).
Proof.
  split; [|split].
  - apply (proj1 (fails_first_EmptyOperation ∅) pipeline_on_missing).
    apply ff_reduce, ff_join, ff_sort, ff_map, ff_unbound. reflexivity.
  - apply (proj1 (fails_first_EmptyOperation left_with_keys) join_of_sources).
    apply ff_join_right.
    + apply pulls_first_group_spec. right. do 3 eexists.
      split; [reflexivity|by eexists].
    + apply ff_unbound. reflexivity.
  - apply (proj1 (fails_first_EmptyOperation ∅) reduce_of_nothing).
    apply ff_reduce, ff_no_operation.
Defined.

(** C9: [run] is a generator function: the call returns a generator for
    every graph and every sources, and on a graph without operation the
    first advance of that generator raises [EmptyOperation]. *)
Theorem run_raises_on_first_advance :
  (∀ g kw, ∃ gen, Graph_run g kw = Ok gen)
  ∧ ∀ graphs kw,
      ∃ gen, Graph_run (MkGraph None graphs) kw = Ok gen
             ∧ gen_next gen = Raises EmptyOperation.
Proof.
  split.
  - intros g kw. by eexists.
  - intros graphs kw. by eexists.
Qed.

(** ** The tests of [tests/test_graph.py] on the model *)

Example test_graph_from_iter :
  Graph_run_body (graph_from_iter "test")
    {[ "test" := ([row_of [("test_id", VInt 1); ("text", VStr "Hello, world!")];
                   row_of [("test_id", VInt 2);
                           ("text", VStr "Hello darkness, my old friend")]],
                  None) ]}
  = ([row_of [("test_id", VInt 1); ("text", VStr "Hello, world!")];
      row_of [("test_id", VInt 2);
              ("text", VStr "Hello darkness, my old friend")]], None).
Proof. vm_compute. reflexivity. Qed.

Example test_graph_reduce :
  Graph_run_body
    (Graph_reduce (graph_from_iter "test") FirstReducer ["test_id"])
    {[ "test" := ([row_of [("test_id", VInt 1); ("text", VStr "First!")];
                   row_of [("test_id", VInt 1); ("text", VStr "Second!")];
                   row_of [("test_id", VInt 2);
                           ("text", VStr "Hello darkness, my old friend")]],
                  None) ]}
  = ([row_of [("test_id", VInt 1); ("text", VStr "First!")];
      row_of [("test_id", VInt 2);
              ("text", VStr "Hello darkness, my old friend")]], None).
Proof. vm_compute. reflexivity. Qed.

Example test_graph_sort :
  Graph_run_body (Graph_sort 2 (graph_from_iter "test") ["text"])
    {[ "test" := ([row_of [("test_id", VInt 1); ("text", VStr "banana")];
                   row_of [("test_id", VInt 2); ("text", VStr "orange")];
                   row_of [("test_id", VInt 3); ("text", VStr "apple")]],
                  None) ]}
  = ([row_of [("test_id", VInt 3); ("text", VStr "apple")];
      row_of [("test_id", VInt 1); ("text", VStr "banana")];
      row_of [("test_id", VInt 2); ("text", VStr "orange")]], None).
Proof. vm_compute. reflexivity. Qed.

Example test_graph_join :
  Graph_run_body
    (Graph_join (graph_from_iter "data_left") (InnerJoiner "_1" "_2")
       (graph_from_iter "data_right") ["fruit"])
    {[ "data_left" :=
         ([row_of [("test_id", VInt 1); ("fruit", VStr "banana")];
           row_of [("test_id", VInt 2); ("fruit", VStr "orange")];
           row_of [("test_id", VInt 3); ("fruit", VStr "apple")]], None);
       "data_right" :=
         ([row_of [("price", VInt 11); ("fruit", VStr "banana")];
           row_of [("price", VInt 24); ("fruit", VStr "orange")];
           row_of [("price", VInt 35); ("fruit", VStr "apple")]], None) ]}
  = ([row_of [("test_id", VInt 1); ("fruit", VStr "banana"); ("price", VInt 11)];
      row_of [("test_id", VInt 2); ("fruit", VStr "orange"); ("price", VInt 24)];
      row_of [("test_id", VInt 3); ("fruit", VStr "apple"); ("price", VInt 35)]],
     None).
Proof. vm_compute. reflexivity. Qed.

(** * More of the operations: proofs *)

(** ** Join on runs *)

Section cogroup_facts.
Context (joiner : Joiner) (keys : list string).

Lemma cogroup_nil_nil : cogroup joiner keys [] [] = ([], None).
Proof. done. Qed.

Lemma cogroup_left_only la lefts :
  cogroup joiner keys (la :: lefts) []
  = and_then (Joiner_call joiner keys (la, None) ([], None))
             (cogroup joiner keys lefts []).
Proof. done. Qed.

Lemma cogroup_right_only rb rights :
  cogroup joiner keys [] (rb :: rights)
  = and_then (Joiner_call joiner keys ([], None) (rb, None))
             (cogroup joiner keys [] rights).
Proof. done. Qed.

Lemma cogroup_both la lefts rb rights kl kr :
  run_key keys la = Some kl → run_key keys rb = Some kr →
  cogroup joiner keys (la :: lefts) (rb :: rights)
  = if bool_decide (kl = kr) then
      and_then (Joiner_call joiner keys (la, None) (rb, None))
               (cogroup joiner keys lefts rights)
    else
      match list_lt kl kr with
      | Err e => ([], Some e)
      | Ok true =>
          and_then (Joiner_call joiner keys (la, None) ([], None))
                   (cogroup joiner keys lefts (rb :: rights))
      | Ok false =>
          and_then (Joiner_call joiner keys ([], None) (rb, None))
                   (cogroup joiner keys (la :: lefts) rights)
      end.
Proof. intros Hl Hr. simpl. by rewrite Hl, Hr. Qed.

(** A group handed to a generator body, then [_get_next_group]: the body
    sees the first run, and the next group starts behind it. *)
Lemma take_group c k r rs :
  keyfunc keys r = Some k →
  Forall (λ r, is_Some (keyfunc keys r)) rs →
  (run_on_group keys c (GbAt (rs, None) k k r)).1
    = run_on c (r :: take_while (has_key keys k) rs, None)
  ∧ ∃ next,
      get_next_group keys (run_on_group keys c (GbAt (rs, None) k k r)).2
        = Ok next
      ∧ side_ok keys next (drop_while (has_key keys k) rs).
Proof.
  intros Hk Hall.
  destruct (run_on_group_run keys c k r rs Hall Hk) as (Ht & Hok & Hp).
  split; [done|].
  pose proof (groupby_next_pending keys _ Hok) as Hn. rewrite Hp in Hn.
  assert (Hd : Forall (λ r, is_Some (keyfunc keys r))
                 (drop_while (has_key keys k) rs))
    by by apply Forall_drop_while.
  unfold get_next_group.
  destruct (drop_while (has_key keys k) rs) as [|r' rs'].
  - rewrite Hn. by exists None.
  - destruct Hn as (k' & Hk' & ->). exists (Some (k', GbAt (rs', None) k' k' r')).
    split; [done|]. exists r', rs'. apply Forall_cons in Hd as [_ Hd]. done.
Qed.

Lemma runs_by_key_cons r rs k :
  keyfunc keys r = Some k →
  runs_by (keyfunc keys) (r :: rs)
  = (r :: take_while (has_key keys k) rs)
      :: runs_by (keyfunc keys) (drop_while (has_key keys k) rs).
Proof. intros Hk. rewrite runs_by_cons, Hk. done. Qed.

Lemma drop_while_suffix_length {A} (p : A → bool) l x l' :
  drop_while p l = x :: l' → length l' < length l.
Proof.
  intros H. pose proof (drop_while_length p l) as Hl. rewrite H in Hl.
  simpl in Hl. lia.
Qed.

Lemma Join_loop_cogroup fuel : ∀ ln rn lrows rrows,
  side_ok keys ln lrows → side_ok keys rn rrows →
  length lrows + length rrows ≤ fuel →
  Join_loop joiner keys fuel ln rn
  = cogroup joiner keys (runs_by (keyfunc keys) lrows)
      (runs_by (keyfunc keys) rrows).
Proof.
  induction fuel as [|fuel IH]; intros ln rn lrows rrows Hl Hr Hfuel.
  - destruct lrows, rrows; simpl in Hfuel; try lia.
    by destruct ln as [[??]|], rn as [[??]|].
  - cbn [Join_loop].
    destruct ln as [[kl lg]|], rn as [[kr rg]|]; simpl in Hl, Hr.
    + destruct Hl as (ra & ras & -> & -> & Hka & Hras).
      destruct Hr as (rb & rbs & -> & -> & Hkb & Hrbs).
      rewrite (runs_by_key_cons ra ras kl Hka), (runs_by_key_cons rb rbs kr Hkb).
      rewrite (cogroup_both _ _ _ _ kl kr) by (simpl; done).
      simpl in Hfuel.
      pose proof (drop_while_length (has_key keys kl) ras) as Hla.
      pose proof (drop_while_length (has_key keys kr) rbs) as Hlb.
      case_bool_decide as Heq.
      * unfold joiner_groups.
        destruct (take_group yield_from kr rb rbs Hkb Hrbs)
          as (Htb & rn' & Hrn & Hrok).
        destruct (run_on_group keys yield_from (GbAt (rbs, None) kr kr rb))
          as [tb rg'] eqn:Eb. cbn [fst snd] in Htb, Hrn.
        rewrite run_on_yield_from in Htb. subst tb. cbn [fst snd].
        destruct (take_group (joiner keys (rb :: take_while (has_key keys kr) rbs))
                    kl ra ras Hka Hras) as (Hta & ln' & Hln & Hlok).
        destruct (run_on_group keys _ (GbAt (ras, None) kl kl ra))
          as [t lg'] eqn:Ea. cbn [fst snd] in Hta, Hln. subst t.
        unfold with_next_group. rewrite Hln, Hrn.
        unfold Joiner_call. cbn [fst snd]. f_equal.
        apply IH; [done..|lia].
      * destruct (list_lt kl kr) as [[|]|e]; [| |done].
        -- unfold joiner_left.
           destruct (take_group (joiner keys []) kl ra ras Hka Hras)
             as (Hta & ln' & Hln & Hlok).
           destruct (run_on_group keys _ (GbAt (ras, None) kl kl ra))
             as [t lg'] eqn:Ea. cbn [fst snd] in Hta, Hln. subst t.
           unfold with_next_group. rewrite Hln.
           unfold Joiner_call at 1. cbn [fst snd]. f_equal.
           rewrite <- (runs_by_key_cons rb rbs kr Hkb).
           apply IH; [done| |simpl; lia].
           exists rb, rbs. done.
        -- unfold joiner_right.
           destruct (take_group yield_from kr rb rbs Hkb Hrbs)
             as (Htb & rn' & Hrn & Hrok).
           destruct (run_on_group keys yield_from (GbAt (rbs, None) kr kr rb))
             as [tb rg'] eqn:Eb. cbn [fst snd] in Htb, Hrn.
           rewrite run_on_yield_from in Htb. subst tb. cbn [fst snd].
           unfold with_next_group. rewrite Hrn.
           unfold Joiner_call at 1. cbn [fst snd]. f_equal.
           rewrite <- (runs_by_key_cons ra ras kl Hka).
           apply IH; [|done|simpl; lia].
           exists ra, ras. done.
    + destruct Hl as (ra & ras & -> & -> & Hka & Hras). subst rrows.
      rewrite (runs_by_key_cons ra ras kl Hka). cbn [runs_by].
      rewrite cogroup_left_only. unfold joiner_left.
      destruct (take_group (joiner keys []) kl ra ras Hka Hras)
        as (Hta & ln' & Hln & Hlok).
      destruct (run_on_group keys _ (GbAt (ras, None) kl kl ra))
        as [t lg'] eqn:Ea. cbn [fst snd] in Hta, Hln. subst t.
      unfold with_next_group. rewrite Hln.
      unfold Joiner_call at 1. cbn [fst snd]. f_equal.
      pose proof (drop_while_length (has_key keys kl) ras).
      apply (IH ln' None (drop_while (has_key keys kl) ras) []);
        [done|done|simpl in *; lia].
    + destruct Hr as (rb & rbs & -> & -> & Hkb & Hrbs). subst lrows.
      rewrite (runs_by_key_cons rb rbs kr Hkb). cbn [runs_by].
      rewrite cogroup_right_only. unfold joiner_right.
      destruct (take_group yield_from kr rb rbs Hkb Hrbs)
        as (Htb & rn' & Hrn & Hrok).
      destruct (run_on_group keys yield_from (GbAt (rbs, None) kr kr rb))
        as [tb rg'] eqn:Eb. cbn [fst snd] in Htb, Hrn.
      rewrite run_on_yield_from in Htb. subst tb. cbn [fst snd].
      unfold with_next_group. rewrite Hrn.
      unfold Joiner_call at 1. cbn [fst snd]. f_equal.
      pose proof (drop_while_length (has_key keys kr) rbs).
      apply (IH None rn' [] (drop_while (has_key keys kr) rbs));
        [done|done|simpl in *; lia].
    + by subst.
Qed.

Lemma first_group_ok rows :
  Forall (λ r, is_Some (keyfunc keys r)) rows →
  ∃ next, get_next_group keys (GbFresh (rows, None)) = Ok next
          ∧ side_ok keys next rows.
Proof.
  intros Hall.
  pose proof (groupby_next_pending keys (GbFresh (rows, None))
                (conj eq_refl Hall)) as Hn.
  unfold get_next_group. simpl pending in Hn.
  destruct rows as [|r rs].
  - rewrite Hn. by exists None.
  - destruct Hn as (k & Hk & ->). exists (Some (k, GbAt (rs, None) k k r)).
    split; [done|]. exists r, rs. by apply Forall_cons in Hall as [_ ?].
Qed.

Lemma Join_call_cogroup rows other :
  Forall (λ r, is_Some (keyfunc keys r)) rows →
  Forall (λ r, is_Some (keyfunc keys r)) other →
  Join_call joiner keys (rows, None) (other, None)
  = cogroup joiner keys (runs_by (keyfunc keys) rows)
      (runs_by (keyfunc keys) other).
Proof.
  intros Hl Hr. unfold Join_call, with_next_group.
  destruct (first_group_ok rows Hl) as (ln & -> & Hlok).
  destruct (first_group_ok other Hr) as (rn & -> & Hrok).
  apply Join_loop_cogroup; simpl; [done..|lia].
Qed.
End cogroup_facts.

(** ** The joiners on a pair of groups *)

Section joiner_facts.
Context (a_suffix b_suffix : string) (keys : list string).

Lemma product_rows_length row_a all_rows_b :
  length (product_rows a_suffix b_suffix keys row_a all_rows_b)
  = length all_rows_b.
Proof.
  revert row_a. induction all_rows_b as [|b bs IH]; intros row_a; [done|].
  cbn [product_rows].
  destruct (merge_rows a_suffix b_suffix keys row_a b) as [row_a' new_row].
  simpl. by rewrite IH.
Qed.

Lemma cross_rows_length rows_a all_rows_b :
  length (cross_rows a_suffix b_suffix keys rows_a all_rows_b)
  = length rows_a * length all_rows_b.
Proof.
  unfold cross_rows. induction rows_a as [|a rows_a IH]; [done|].
  rewrite bind_cons, length_app, product_rows_length, IH. simpl. lia.
Qed.

Lemma feed_InnerJoiner all_rows_b rows_a fin :
  feed (InnerJoiner a_suffix b_suffix keys all_rows_b) () rows_a fin
  = (cross_rows a_suffix b_suffix keys rows_a all_rows_b, fin).
Proof.
  induction rows_a as [|a rows_a IH]; [by destruct fin|].
  cbn [feed InnerJoiner on_row]. rewrite IH. done.
Qed.

Lemma feed_RightJoiner all_rows_b rows_a fin (a_empty : bool) :
  feed (RightJoiner a_suffix b_suffix keys all_rows_b) a_empty rows_a fin
  = (cross_rows a_suffix b_suffix keys rows_a all_rows_b
       ++ match rows_a, fin with
          | [], None => if a_empty then all_rows_b else []
          | _, _ => []
          end, fin).
Proof.
  revert a_empty. induction rows_a as [|a rows_a IH]; intros a_empty.
  - by destruct fin.
  - cbn [feed RightJoiner on_row]. rewrite IH. unfold emit, cross_rows.
    cbn [fst snd]. rewrite bind_cons, <- app_assoc.
    by destruct rows_a, fin.
Qed.

Lemma Joiner_call_InnerJoiner rows_a all_rows_b :
  Joiner_call (InnerJoiner a_suffix b_suffix) keys rows_a (all_rows_b, None)
  = (cross_rows a_suffix b_suffix keys rows_a.1 all_rows_b, rows_a.2).
Proof.
  unfold Joiner_call, run_on. cbn [fst snd InnerJoiner init].
  by rewrite feed_InnerJoiner, emit_nil.
Qed.

Lemma Joiner_call_RightJoiner rows_a all_rows_b :
  Joiner_call (RightJoiner a_suffix b_suffix) keys rows_a (all_rows_b, None)
  = (cross_rows a_suffix b_suffix keys rows_a.1 all_rows_b
       ++ match rows_a.1, rows_a.2 with
          | [], None => all_rows_b
          | _, _ => []
          end, rows_a.2).
Proof.
  unfold Joiner_call, run_on. cbn [fst snd RightJoiner init].
  by rewrite feed_RightJoiner, emit_nil.
Qed.

Lemma Joiner_call_LeftJoiner rows_a all_rows_b :
  Joiner_call (LeftJoiner a_suffix b_suffix) keys rows_a (all_rows_b, None)
  = match all_rows_b with
    | [] => rows_a
    | _ => (cross_rows a_suffix b_suffix keys rows_a.1 all_rows_b, rows_a.2)
    end.
Proof.
  destruct all_rows_b as [|b bs].
  - unfold Joiner_call. cbn [fst snd]. unfold LeftJoiner. simpl bool_decide.
    rewrite run_on_yield_from. done.
  - rewrite <- Joiner_call_InnerJoiner. done.
Qed.

Lemma Joiner_call_OuterJoiner rows_a all_rows_b :
  Joiner_call (OuterJoiner a_suffix b_suffix) keys rows_a (all_rows_b, None)
  = match all_rows_b with
    | [] => rows_a
    | _ => Joiner_call (RightJoiner a_suffix b_suffix) keys rows_a
             (all_rows_b, None)
    end.
Proof.
  destruct all_rows_b as [|b bs].
  - unfold Joiner_call. cbn [fst snd]. unfold OuterJoiner. simpl bool_decide.
    rewrite run_on_yield_from. done.
  - done.
Qed.

Lemma merge_rows_no_collision row_a row_b :
  no_collision keys row_a row_b →
  merge_rows a_suffix b_suffix keys row_a row_b = (row_a, row_a ∪ row_b).
Proof.
  unfold no_collision, merge_rows. intros ->. by rewrite elements_empty.
Qed.

Lemma product_rows_no_collision row_a all_rows_b :
  Forall (no_collision keys row_a) all_rows_b →
  product_rows a_suffix b_suffix keys row_a all_rows_b
  = (λ row_b, row_a ∪ row_b) <$> all_rows_b.
Proof.
  induction 1 as [|b bs Hb Hbs IH]; [done|].
  cbn [product_rows]. rewrite (merge_rows_no_collision _ _ Hb), IH. done.
Qed.
End joiner_facts.

Lemma append_neq_self (c s : string) : s ≠ EmptyString → c +:+ s ≠ c.
Proof.
  intros Hs. induction c as [|a c IH]; simpl; [done|].
  intros [= Heq]. by apply IH.
Qed.

(** ** Join: the whole loop *)

Lemma cogroup_left_runs joiner keys (lefts : list (list row)) :
  cogroup joiner keys lefts []
  = chain ((λ la, Joiner_call joiner keys (la, None) ([], None)) <$> lefts).
Proof.
  induction lefts as [|la lefts IH]; [done|].
  rewrite cogroup_left_only, IH. done.
Qed.

Lemma cogroup_right_runs joiner keys (rights : list (list row)) :
  cogroup joiner keys [] rights
  = chain ((λ rb, Joiner_call joiner keys ([], None) (rb, None)) <$> rights).
Proof.
  induction rights as [|rb rights IH]; [done|].
  rewrite cogroup_right_only, IH. done.
Qed.

Lemma chain_pass (gs : list (list row)) :
  chain ((λ g, (g, None)) <$> gs) = (concat gs, None).
Proof.
  induction gs as [|g gs IH]; [done|].
  rewrite fmap_cons. unfold chain in *. cbn [foldr]. rewrite IH. done.
Qed.

Lemma chain_silent {A} (gs : list A) :
  chain ((λ _, ([], None)) <$> gs) = ([], None).
Proof.
  induction gs as [|g gs IH]; [done|].
  rewrite fmap_cons. unfold chain in *. cbn [foldr]. rewrite IH. done.
Qed.

Lemma cross_rows_nil_r a_suffix b_suffix keys rows_a :
  cross_rows a_suffix b_suffix keys rows_a [] = [].
Proof. unfold cross_rows. induction rows_a; [done|]. by rewrite bind_cons, IHrows_a. Qed.

(** X1: Join, read on runs: on two streams that end normally and whose rows
    all have the key columns, [Join.__call__] is the merge [cogroup] of the
    maximal runs of equal keys of the two streams. *)
Theorem Join_merges_runs (joiner : Joiner) (keys : list string)
    (rows other : list row) :
  Forall (λ r, is_Some (keyfunc keys r)) rows →
  Forall (λ r, is_Some (keyfunc keys r)) other →
  Join_call joiner keys (rows, None) (other, None)
  = cogroup joiner keys (runs_by (keyfunc keys) rows)
      (runs_by (keyfunc keys) other).
Proof. apply Join_call_cogroup. Qed.

Lemma Join_merges_runs_witness :
  Join_call (OuterJoiner "_1" "_2") ["id"] (left_rows, None) (right_rows, None)
  = cogroup (OuterJoiner "_1" "_2") ["id"]
      (runs_by (keyfunc ["id"]) left_rows)
      (runs_by (keyfunc ["id"]) right_rows).
Proof.
  apply (Join_merges_runs (OuterJoiner "_1" "_2") ["id"] left_rows right_rows);
    repeat (apply Forall_cons; split; [by eexists|]); apply Forall_nil_2.
Defined.

(** X2: On a pair of non-empty groups the four joiners yield the same rows:
    for each left row in turn, one row per right row, so
    [length rows_a * length all_rows_b] rows. *)
Theorem joiners_agree_on_matched_groups (a_suffix b_suffix : string)
    (keys : list string) (rows_a all_rows_b : list row) :
  rows_a ≠ [] → all_rows_b ≠ [] →
  let out := (cross_rows a_suffix b_suffix keys rows_a all_rows_b, None) in
  Joiner_call (InnerJoiner a_suffix b_suffix) keys (rows_a, None)
    (all_rows_b, None) = out
  ∧ Joiner_call (LeftJoiner a_suffix b_suffix) keys (rows_a, None)
      (all_rows_b, None) = out
  ∧ Joiner_call (RightJoiner a_suffix b_suffix) keys (rows_a, None)
      (all_rows_b, None) = out
  ∧ Joiner_call (OuterJoiner a_suffix b_suffix) keys (rows_a, None)
      (all_rows_b, None) = out
  ∧ length out.1 = length rows_a * length all_rows_b.
Proof.
  intros Ha Hb out.
  rewrite Joiner_call_InnerJoiner, Joiner_call_LeftJoiner,
    Joiner_call_OuterJoiner, Joiner_call_RightJoiner.
  destruct rows_a as [|a rows_a]; [done|].
  destruct all_rows_b as [|b bs]; [done|].
  cbn [fst snd]. rewrite app_nil_r.
  repeat split; try done. apply cross_rows_length.
Qed.

Lemma joiners_agree_on_matched_groups_witness :
  Joiner_call (RightJoiner "_1" "_2") ["id"] (left_rows, None)
    (right_rows, None)
  = (cross_rows "_1" "_2" ["id"] left_rows right_rows, None)
  ∧ length (cross_rows "_1" "_2" ["id"] left_rows right_rows) = 6.
Proof.
  pose proof (joiners_agree_on_matched_groups "_1" "_2" ["id"]
                left_rows right_rows ltac:(done) ltac:(done)) as H.
  cbv zeta in H. destruct H as (_ & _ & HR & _ & Hlen).
  split; [exact HR|exact Hlen].
Defined.

(** X3: Rows that share no column but key columns are merged into their
    union, whatever the suffixes: an inner join of two groups without
    colliding columns yields, for each left row in turn, its union with
    each right row. *)
Theorem InnerJoiner_without_collisions (a_suffix b_suffix : string)
    (keys : list string) (rows_a all_rows_b : list row) :
  Forall (λ row_a, Forall (no_collision keys row_a) all_rows_b) rows_a →
  Joiner_call (InnerJoiner a_suffix b_suffix) keys (rows_a, None)
    (all_rows_b, None)
  = (rows_a ≫= (λ row_a, (λ row_b, row_a ∪ row_b) <$> all_rows_b), None).
Proof.
  intros Hall. rewrite Joiner_call_InnerJoiner. cbn [fst snd]. f_equal.
  unfold cross_rows. induction Hall as [|a rows_a Ha Hall IH]; [done|].
  rewrite !bind_cons, IH, (product_rows_no_collision _ _ _ _ _ Ha). done.
Qed.

Lemma InnerJoiner_without_collisions_witness :
  Joiner_call (InnerJoiner "_1" "_2") ["id"]
    ([row_of [("id", VInt 1); ("a", VStr "x")]], None)
    ([row_of [("id", VInt 1); ("b", VStr "y")];
      row_of [("id", VInt 1); ("c", VStr "z")]], None)
  = ([row_of [("id", VInt 1); ("a", VStr "x")]
        ∪ row_of [("id", VInt 1); ("b", VStr "y")];
      row_of [("id", VInt 1); ("a", VStr "x")]
        ∪ row_of [("id", VInt 1); ("c", VStr "z")]], None).
Proof.
  apply (InnerJoiner_without_collisions "_1" "_2" ["id"]
           [row_of [("id", VInt 1); ("a", VStr "x")]]).
  repeat (apply Forall_cons; split); try apply Forall_nil_2;
    unfold no_collision; by vm_compute.
Defined.

(** X4: The renaming of a colliding column happens once for each left row:
    when the left row and two right rows share the non-key column [c],
    the first merge moves the left value to [c + a_suffix] in the left row
    itself, so for the second right row nothing collides any more and its
    value stays under [c], unsuffixed. *)
Theorem product_rows_renames_left_once (a_suffix b_suffix : string)
    (keys : list string) (row_a b1 b2 : row) (c : string) (va v2 : value) :
  a_suffix ≠ EmptyString →
  row_a !! c = Some va → b2 !! c = Some v2 →
  dom b1 ∩ (dom row_a ∖ list_to_set keys) = {[c]} →
  dom b2 ∩ (dom row_a ∖ list_to_set keys) = {[c]} →
  b2 !! (c +:+ a_suffix) = None →
  let row_a' := <[c +:+ a_suffix := va]> (delete c row_a) in
  product_rows a_suffix b_suffix keys row_a [b1; b2]
  = [row_a' ∪ rename_col c (c +:+ b_suffix) b1; row_a' ∪ b2]
  ∧ (row_a' ∪ b2) !! c = Some v2
  ∧ (row_a' ∪ b2) !! (c +:+ a_suffix) = Some va.
Proof.
  intros Hsuf Ha Hb2 H1 H2 Hfree row_a'.
  assert (Hne : c +:+ a_suffix ≠ c) by by apply append_neq_self.
  assert (Hm1 : merge_rows a_suffix b_suffix keys row_a b1
                = (row_a', row_a' ∪ rename_col c (c +:+ b_suffix) b1)).
  { unfold merge_rows. rewrite H1, elements_singleton. cbn [foldl].
    unfold rename_col at 1 2. rewrite Ha. done. }
  assert (Hm2 : merge_rows a_suffix b_suffix keys row_a' b2
                = (row_a', row_a' ∪ b2)).
  { apply merge_rows_no_collision. unfold no_collision, row_a'.
    apply set_eq. intros x. rewrite elem_of_intersection, elem_of_difference.
    rewrite dom_insert, dom_delete, elem_of_union, elem_of_singleton,
      elem_of_difference, elem_of_singleton.
    split; [|set_solver].
    intros (Hx & [->|[Hxa Hxc]] & Hk).
    - apply elem_of_dom in Hx as [? Hx]. congruence.
    - assert (x ∈ ({[c]} : gset string)) as Hin.
      { rewrite <- H2. apply elem_of_intersection. split; [done|].
        by apply elem_of_difference. }
      apply elem_of_singleton in Hin. done. }
  cbn [product_rows]. rewrite Hm1, Hm2. split; [done|]. split.
  - apply lookup_union_Some_raw. right. split; [|done].
    unfold row_a'. rewrite lookup_insert_ne by done. apply lookup_delete_eq.
  - apply lookup_union_Some_raw. left. unfold row_a'. apply lookup_insert_eq.
Qed.

Lemma product_rows_renames_left_once_witness :
  product_rows "_1" "_2" ["id"]
    (row_of [("id", VInt 1); ("v", VStr "a")])
    [row_of [("id", VInt 1); ("v", VStr "x")];
     row_of [("id", VInt 1); ("v", VStr "y")]]
  = [<["v_1" := VStr "a"]> (delete "v" (row_of [("id", VInt 1); ("v", VStr "a")]))
       ∪ rename_col "v" "v_2" (row_of [("id", VInt 1); ("v", VStr "x")]);
     <["v_1" := VStr "a"]> (delete "v" (row_of [("id", VInt 1); ("v", VStr "a")]))
       ∪ row_of [("id", VInt 1); ("v", VStr "y")]].
Proof.
  refine (proj1 (product_rows_renames_left_once "_1" "_2" ["id"]
            (row_of [("id", VInt 1); ("v", VStr "a")])
            (row_of [("id", VInt 1); ("v", VStr "x")])
            (row_of [("id", VInt 1); ("v", VStr "y")])
            "v" (VStr "a") (VStr "y") _ _ _ _ _ _)); by vm_compute.
Defined.

(** X5: Join against a stream without rows: the left and the outer join
    return the left stream as it is, the inner and the right join yield
    nothing. *)
Theorem Join_with_empty_right (a_suffix b_suffix : string)
    (keys : list string) (rows : list row) :
  Forall (λ r, is_Some (keyfunc keys r)) rows →
  Join_call (LeftJoiner a_suffix b_suffix) keys (rows, None) ([], None)
    = (rows, None)
  ∧ Join_call (OuterJoiner a_suffix b_suffix) keys (rows, None) ([], None)
    = (rows, None)
  ∧ Join_call (InnerJoiner a_suffix b_suffix) keys (rows, None) ([], None)
    = ([], None)
  ∧ Join_call (RightJoiner a_suffix b_suffix) keys (rows, None) ([], None)
    = ([], None).
Proof.
  intros Hall.
  rewrite !(Join_call_cogroup _ keys rows []) by done.
  cbn [runs_by]. rewrite !cogroup_left_runs.
  repeat split.
  - erewrite list_fmap_ext; [rewrite chain_pass, runs_by_concat; done|].
    intros i la _. by rewrite Joiner_call_LeftJoiner.
  - erewrite list_fmap_ext; [rewrite chain_pass, runs_by_concat; done|].
    intros i la _. by rewrite Joiner_call_OuterJoiner.
  - erewrite list_fmap_ext; [apply chain_silent|].
    intros i la _. rewrite Joiner_call_InnerJoiner. cbn [fst snd].
    by rewrite cross_rows_nil_r.
  - erewrite list_fmap_ext; [apply chain_silent|].
    intros i la Hla. rewrite Joiner_call_RightJoiner. cbn [fst snd].
    rewrite cross_rows_nil_r. by destruct la.
Qed.

Lemma Join_with_empty_right_witness :
  Join_call (LeftJoiner "_1" "_2") ["id"] (left_rows, None) ([], None)
  = (left_rows, None).
Proof.
  refine (proj1 (Join_with_empty_right "_1" "_2" ["id"] left_rows _)).
  repeat (apply Forall_cons; split; [by eexists|]); apply Forall_nil_2.
Defined.

(** X6: Join of a stream without rows against another: the right and the
    outer join return the right stream as it is, the inner and the left
    join yield nothing. *)
Theorem Join_with_empty_left (a_suffix b_suffix : string)
    (keys : list string) (other : list row) :
  Forall (λ r, is_Some (keyfunc keys r)) other →
  Join_call (RightJoiner a_suffix b_suffix) keys ([], None) (other, None)
    = (other, None)
  ∧ Join_call (OuterJoiner a_suffix b_suffix) keys ([], None) (other, None)
    = (other, None)
  ∧ Join_call (InnerJoiner a_suffix b_suffix) keys ([], None) (other, None)
    = ([], None)
  ∧ Join_call (LeftJoiner a_suffix b_suffix) keys ([], None) (other, None)
    = ([], None).
Proof.
  intros Hall.
  rewrite !(Join_call_cogroup _ keys [] other) by done.
  cbn [runs_by]. rewrite !cogroup_right_runs.
  pose proof (runs_by_nonempty (keyfunc keys) other) as Hne.
  repeat split.
  - erewrite list_fmap_ext; [rewrite chain_pass, runs_by_concat; done|].
    intros i rb _. by rewrite Joiner_call_RightJoiner.
  - erewrite list_fmap_ext; [rewrite chain_pass, runs_by_concat; done|].
    intros i rb Hrb. rewrite Joiner_call_OuterJoiner.
    rewrite Joiner_call_RightJoiner. cbn [fst snd app].
    destruct rb; [|done].
    rewrite Forall_lookup in Hne. by specialize (Hne _ _ Hrb).
  - erewrite list_fmap_ext; [apply chain_silent|].
    intros i rb _. by rewrite Joiner_call_InnerJoiner.
  - erewrite list_fmap_ext; [apply chain_silent|].
    intros i rb _. rewrite Joiner_call_LeftJoiner. by destruct rb.
Qed.

Lemma Join_with_empty_left_witness :
  Join_call (RightJoiner "_1" "_2") ["id"] ([], None) (right_rows, None)
  = (right_rows, None).
Proof.
  refine (proj1 (Join_with_empty_left "_1" "_2" ["id"] right_rows _)).
  repeat (apply Forall_cons; split; [by eexists|]); apply Forall_nil_2.
Defined.

(** X7: An inner join on no keys is the full cross product of the two
    streams: every left row in turn with every right row, and nothing
    when one of the streams has no rows. *)
Theorem InnerJoiner_no_keys_cross_product (a_suffix b_suffix : string)
    (rows other : list row) :
  Join_call (InnerJoiner a_suffix b_suffix) [] (rows, None) (other, None)
  = (cross_rows a_suffix b_suffix [] rows other, None)
  ∧ length (cross_rows a_suffix b_suffix [] rows other)
    = length rows * length other.
Proof.
  split; [|apply cross_rows_length].
  destruct rows as [|r rows], other as [|o other]; [done|..].
  all: rewrite Join_call_whole by (first [by left|by right]).
  all: by rewrite Joiner_call_InnerJoiner.
Qed.

(** ** Streams that do not end normally *)

Section breaks_facts.
Context (keys : list string).

Lemma breaks_cons r rs fin k :
  keyfunc keys r = Some k → breaks keys (r :: rs, fin) → breaks keys (rs, fin).
Proof.
  intros Hk [Hfin|Hex]; [by left|right].
  apply Exists_cons in Hex as [Hr|Hex]; [simpl in Hr; congruence|done].
Qed.

Lemma and_then_fails t k : t.2 ≠ None → (and_then t k).2 ≠ None.
Proof. unfold and_then. by destruct t as [out [e|]]. Qed.

Lemma and_then_fails_r t k : k.2 ≠ None → (and_then t k).2 ≠ None.
Proof. unfold and_then. by destruct t as [out [e|]]. Qed.

Lemma emit_fin out t : (emit out t).2 = t.2.
Proof. done. Qed.

Lemma groupby_scan_breaks tgt rows fin :
  breaks keys (rows, fin) →
  match groupby_scan keys tgt rows fin with
  | GbGroup _ g => gb_breaks keys g
  | GbStop => False
  | GbRaise _ => True
  end.
Proof.
  induction rows as [|r rs IH]; intros Hbr.
  - destruct Hbr as [Hfin|Hex]; [|by apply Exists_nil in Hex].
    cbn in *. by destruct fin.
  - cbn [groupby_scan]. destruct (keyfunc keys r) as [k|] eqn:Hk; [|done].
    pose proof (breaks_cons _ _ _ _ Hk Hbr) as Hrs.
    case_bool_decide as Hd; [by apply IH|done].
Qed.

Lemma groupby_next_breaks g :
  gb_breaks keys g →
  match groupby_next keys g with
  | GbGroup _ g' => gb_breaks keys g'
  | GbStop => False
  | GbRaise _ => True
  end.
Proof.
  destruct g as [[rows fin]|[rows fin] tgt ck cv]; cbn [groupby_next gb_breaks fst snd].
  - apply groupby_scan_breaks.
  - intros Hbr. case_bool_decide as Hd; [by apply groupby_scan_breaks|done].
Qed.

Lemma get_next_group_breaks g :
  gb_breaks keys g →
  match get_next_group keys g with
  | Ok next => side_breaks keys next
  | Err _ => True
  end.
Proof.
  intros Hbr. apply groupby_next_breaks in Hbr. unfold get_next_group.
  by destruct (groupby_next keys g).
Qed.

Lemma grouper_feed_breaks c tgt rows : ∀ ck cv st fin,
  breaks keys (rows, fin) →
  (grouper_feed keys c tgt ck cv st rows fin).1.2 ≠ None
  ∨ gb_breaks keys (grouper_feed keys c tgt ck cv st rows fin).2.
Proof.
  induction rows as [|r rs IH]; intros ck cv st fin Hbr.
  - destruct Hbr as [Hfin|Hex]; [|by apply Exists_nil in Hex].
    cbn in *. destruct fin; [by left|done].
  - cbn [grouper_feed]. destruct (keyfunc keys r) as [k|] eqn:Hk; [|by left].
    pose proof (breaks_cons _ _ _ _ Hk Hbr) as Hrs.
    case_bool_decide as Hd; [|by right].
    destruct (on_row c st r) as [out [st'|e]]; [|by right].
    specialize (IH k r st' fin Hrs).
    destruct (grouper_feed keys c tgt k r st' rs fin) as [t g]. done.
Qed.

Lemma run_on_group_breaks c g :
  gb_breaks keys g →
  (run_on_group keys c g).1.2 ≠ None ∨ gb_breaks keys (run_on_group keys c g).2.
Proof.
  intros Hbr. unfold run_on_group.
  destruct (init c) as [out [st|e]]; [|by right].
  destruct g as [it|[rows fin] tgt ck cv]; [by right|].
  case_bool_decide as Hd; [|by right].
  destruct (on_row c st cv) as [out' [st'|e]]; [|by right].
  cbn [fst snd gb_breaks] in *.
  pose proof (grouper_feed_breaks c tgt rows ck cv st' fin Hbr) as H.
  destruct (grouper_feed keys c tgt ck cv st' rows fin) as [t g']. done.
Qed.

Lemma with_next_group_breaks g k :
  gb_breaks keys g →
  (∀ next, side_breaks keys next → (k next).2 ≠ None) →
  (with_next_group keys g k).2 ≠ None.
Proof.
  intros Hbr Hk. apply get_next_group_breaks in Hbr. unfold with_next_group.
  destruct (get_next_group keys g) as [next|e]; [by apply Hk|done].
Qed.

Lemma with_next_group_fails g k :
  (∀ next, weight next ≤ potential g → (k next).2 ≠ None) →
  (with_next_group keys g k).2 ≠ None.
Proof.
  intros Hk. unfold with_next_group, get_next_group.
  destruct (groupby_next keys g) as [key g'| |e] eqn:Hn; [| |done].
  - apply Hk. apply groupby_next_potential in Hn. simpl. lia.
  - apply Hk. simpl. lia.
Qed.

Lemma with_next_group_bad_weight g k :
  gb_breaks keys g →
  (∀ next, side_breaks keys next → weight next ≤ potential g →
           (k next).2 ≠ None) →
  (with_next_group keys g k).2 ≠ None.
Proof.
  intros Hbr Hk. apply groupby_next_breaks in Hbr.
  unfold with_next_group, get_next_group.
  destruct (groupby_next keys g) as [key g'| |e] eqn:Hn; [|done|done].
  apply Hk; [done|]. apply groupby_next_potential in Hn. simpl. lia.
Qed.

Lemma Reduce_loop_breaks reducer fuel : ∀ g,
  gb_breaks keys g → potential g < fuel →
  (Reduce_loop reducer keys fuel g).2 ≠ None.
Proof.
  induction fuel as [|fuel IH]; intros g Hbr Hfuel; [lia|].
  cbn [Reduce_loop].
  pose proof (groupby_next_breaks g Hbr) as Hn.
  destruct (groupby_next keys g) as [k g1| |e] eqn:Hg; [|done|done].
  pose proof (groupby_next_potential keys g k g1 Hg) as Hp1.
  pose proof (run_on_group_potential keys (reducer keys) g1) as Hp2.
  pose proof (run_on_group_breaks (reducer keys) g1 Hn) as Hr.
  destruct (run_on_group keys (reducer keys) g1) as [t g'].
  cbn [fst snd] in *. destruct Hr as [Ht|Hg'].
  - by apply and_then_fails.
  - destruct t as [out [e|]]; [done|].
    unfold and_then. cbn [fst snd]. apply IH; [done|lia].
Qed.
End breaks_facts.

Section Join_breaks.
Context (joiner : Joiner) (keys : list string).

Lemma joiner_left_breaks lg :
  gb_breaks keys lg →
  (joiner_left joiner keys lg).1.2 ≠ None
  ∨ gb_breaks keys (joiner_left joiner keys lg).2.
Proof. apply run_on_group_breaks. Qed.

Lemma joiner_right_breaks rg :
  gb_breaks keys rg →
  (joiner_right joiner keys rg).1.2 ≠ None
  ∨ gb_breaks keys (joiner_right joiner keys rg).2.
Proof.
  intros Hbr. unfold joiner_right.
  pose proof (run_on_group_breaks keys yield_from rg Hbr) as H.
  destruct (run_on_group keys yield_from rg) as [[tb [e|]] rg'];
    cbn [fst snd] in *; [by left|].
  destruct H as [H|H]; [done|by right].
Qed.

Lemma joiner_groups_breaks lg rg :
  gb_breaks keys lg ∨ gb_breaks keys rg →
  (joiner_groups joiner keys lg rg).1.1.2 ≠ None
  ∨ gb_breaks keys (joiner_groups joiner keys lg rg).1.2
  ∨ gb_breaks keys (joiner_groups joiner keys lg rg).2.
Proof.
  intros Hbr. unfold joiner_groups.
  pose proof (run_on_group_breaks keys yield_from rg) as Hr.
  destruct (run_on_group keys yield_from rg) as [[tb [e|]] rg'];
    cbn [fst snd] in *; [by left|].
  pose proof (run_on_group_breaks keys (joiner keys tb) lg) as Hl.
  destruct (run_on_group keys (joiner keys tb) lg) as [t lg'].
  cbn [fst snd] in *.
  destruct Hbr as [Hlg|Hrg].
  - destruct (Hl Hlg) as [?|?]; [by left|by right; left].
  - destruct (Hr Hrg) as [?|?]; [done|by right; right].
Qed.

Lemma Join_loop_breaks fuel : ∀ ln rn,
  side_breaks keys ln ∨ side_breaks keys rn →
  weight ln + weight rn ≤ fuel →
  (Join_loop joiner keys fuel ln rn).2 ≠ None.
Proof.
  induction fuel as [|fuel IH]; intros ln rn Hbr Hfuel.
  { destruct ln as [[??]|], rn as [[??]|]; simpl in *;
      first [lia|by destruct Hbr]. }
  cbn [Join_loop].
  destruct ln as [[kl lg]|], rn as [[kr rg]|]; cbn [side_breaks weight] in *.
  - case_bool_decide as Heq.
    + pose proof (joiner_groups_breaks lg rg Hbr) as Hj.
      pose proof (joiner_groups_potential joiner keys lg rg) as [Hpl Hpr].
      destruct (joiner_groups joiner keys lg rg) as [[t lg'] rg'].
      cbn [fst snd] in *.
      destruct t as [out [e|]]; [done|]. unfold and_then. cbn [fst snd].
      rewrite emit_fin.
      destruct Hj as [Hj|[Hj|Hj]]; [done| |].
      * apply with_next_group_bad_weight; [done|]. intros ln Hln Hwl.
        apply with_next_group_fails. intros rn Hwr.
        apply IH; [by left|lia].
      * apply with_next_group_fails. intros ln Hwl.
        apply with_next_group_bad_weight; [done|]. intros rn Hrn Hwr.
        apply IH; [by right|lia].
    + destruct (list_lt kl kr) as [[|]|e]; [| |done].
      * pose proof (joiner_left_breaks lg) as Hj.
        pose proof (run_on_group_potential keys (joiner keys []) lg) as Hp.
        unfold joiner_left in *.
        destruct (run_on_group keys (joiner keys []) lg) as [t lg'].
        cbn [fst snd] in *.
        destruct t as [out [e|]]; [done|]. unfold and_then. cbn [fst snd].
        rewrite emit_fin.
        destruct Hbr as [Hl|Hr].
        -- destruct (Hj Hl) as [?|Hlg']; [done|].
           apply with_next_group_bad_weight; [done|]. intros ln Hln Hwl.
           apply IH; [by left|simpl; lia].
        -- apply with_next_group_fails. intros ln Hwl.
           apply IH; [by right|simpl; lia].
      * pose proof (joiner_right_breaks rg) as Hj.
        pose proof (joiner_right_potential joiner keys rg) as Hp.
        destruct (joiner_right joiner keys rg) as [t rg'].
        cbn [fst snd] in *.
        destruct t as [out [e|]]; [done|]. unfold and_then. cbn [fst snd].
        rewrite emit_fin.
        destruct Hbr as [Hl|Hr].
        -- apply with_next_group_fails. intros rn Hwr.
           apply IH; [by left|simpl; lia].
        -- destruct (Hj Hr) as [?|Hrg']; [done|].
           apply with_next_group_bad_weight; [done|]. intros rn Hrn Hwr.
           apply IH; [by right|simpl; lia].
  - destruct Hbr as [Hl|[]].
    pose proof (joiner_left_breaks lg Hl) as Hj.
    pose proof (run_on_group_potential keys (joiner keys []) lg) as Hp.
    unfold joiner_left in *.
    destruct (run_on_group keys (joiner keys []) lg) as [t lg'].
    cbn [fst snd] in *.
    destruct t as [out [e|]]; [done|]. unfold and_then. cbn [fst snd].
    rewrite emit_fin. destruct Hj as [?|Hlg']; [done|].
    apply with_next_group_bad_weight; [done|]. intros ln Hln Hwl.
    apply IH; [by left|simpl; lia].
  - destruct Hbr as [[]|Hr].
    pose proof (joiner_right_breaks rg Hr) as Hj.
    pose proof (joiner_right_potential joiner keys rg) as Hp.
    destruct (joiner_right joiner keys rg) as [t rg'].
    cbn [fst snd] in *.
    destruct t as [out [e|]]; [done|]. unfold and_then. cbn [fst snd].
    rewrite emit_fin. destruct Hj as [?|Hrg']; [done|].
    apply with_next_group_bad_weight; [done|]. intros rn Hrn Hwr.
    apply IH; [by right|simpl; lia].
  - by destruct Hbr.
Qed.

Lemma Join_call_breaks rows other :
  breaks keys rows ∨ breaks keys other →
  (Join_call joiner keys rows other).2 ≠ None.
Proof.
  intros Hbr. unfold Join_call.
  destruct Hbr as [Hl|Hr].
  - apply with_next_group_bad_weight; [done|]. intros ln Hln Hwl.
    apply with_next_group_fails. intros rn Hwr.
    apply Join_loop_breaks; [by left|simpl in *; lia].
  - apply with_next_group_fails. intros ln Hwl.
    apply with_next_group_bad_weight; [done|]. intros rn Hrn Hwr.
    apply Join_loop_breaks; [by right|simpl in *; lia].
Qed.
End Join_breaks.

Lemma Reduce_call_breaks reducer keys rows :
  breaks keys rows → (Reduce_call reducer keys rows).2 ≠ None.
Proof.
  intros Hbr. unfold Reduce_call. apply Reduce_loop_breaks; [done|].
  simpl. lia.
Qed.

Lemma Map_rows_fails m rows fin :
  fin ≠ None → (Map_rows m rows fin).2 ≠ None.
Proof.
  intros Hfin. induction rows as [|r rows IH]; [done|].
  cbn [Map_rows]. by apply and_then_fails_r.
Qed.

Lemma Map_loop_fails mapper fin rows : ∀ h,
  fin ≠ None → (Map_loop mapper h rows fin).1.2 ≠ None.
Proof.
  intros h Hfin. revert h. induction rows as [|l ls IH]; intros h; [done|].
  cbn [Map_loop]. destruct (deepcopy h l) as [c h1].
  destruct (mapper c h1) as [[out [x|]] h2]; [done|].
  specialize (IH h2).
  destruct (Map_loop mapper h2 ls fin) as [[out' e'] h3]. done.
Qed.

(** ** Reducers on runs *)

Lemma chain_singletons {A} (f : A → row) (gs : list A) :
  chain ((λ g, ([f g], None)) <$> gs) = (f <$> gs, None).
Proof.
  induction gs as [|g gs IH]; [done|].
  rewrite !fmap_cons. unfold chain in *. cbn [foldr]. rewrite IH. done.
Qed.

Lemma chain_ext {A} (f g : A → trace) (l : list A) :
  Forall (λ x, f x = g x) l → chain (f <$> l) = chain (g <$> l).
Proof.
  induction 1 as [|x l Hx Hl IH]; [done|].
  rewrite !fmap_cons. unfold chain in *. cbn [foldr]. by rewrite Hx, IH.
Qed.

Lemma runs_by_keyed keys rows :
  Forall (λ r, is_Some (keyfunc keys r)) rows →
  Forall (Forall (λ r, is_Some (keyfunc keys r)))
    (runs_by (keyfunc keys) rows).
Proof.
  intros Hall.
  rewrite <- (runs_by_concat (keyfunc keys) rows) in Hall.
  induction (runs_by (keyfunc keys) rows) as [|g gs IH]; [done|].
  simpl in Hall. apply Forall_app in Hall as [Hg Hgs].
  constructor; [done|by apply IH].
Qed.

Lemma runs_by_step {A K} `{EqDecision K} (f : A → K) x (l : list A) :
  runs_by f (x :: l)
  = match runs_by f l with
    | (y :: ys) :: gs =>
        if decide (f x = f y) then (x :: y :: ys) :: gs
        else [x] :: (y :: ys) :: gs
    | _ => [[x]]
    end.
Proof. done. Qed.

Lemma runs_by_heads {A K} `{EqDecision K} (f : A → K) (gs : list (list A)) :
  Forall (λ g, g ≠ []) gs → runs_differ f gs →
  runs_by f (concat (take 1 <$> gs)) = take 1 <$> gs.
Proof.
  induction gs as [|g1 rest IH]; intros Hne Hd; [done|].
  apply Forall_cons in Hne as [Hg1 Hrest].
  destruct g1 as [|x g1]; [done|].
  change (concat (take 1 <$> (x :: g1) :: rest))
    with (x :: concat (take 1 <$> rest)).
  change (take 1 <$> (x :: g1) :: rest) with ([x] :: (take 1 <$> rest)).
  rewrite runs_by_step.
  destruct rest as [|g2 rest']; [done|].
  destruct Hd as [Hxy Hd]. rewrite (IH Hrest Hd).
  apply Forall_cons in Hrest as [Hg2 _].
  destruct g2 as [|y g2]; [done|].
  rewrite fmap_cons. cbn [take].
  rewrite decide_False; [done|]. by apply Hxy.
Qed.

Lemma run_on_FirstReducer keys rows :
  run_on (FirstReducer keys) (rows, None) = (take 1 rows, None).
Proof. by destruct rows. Qed.

Lemma Reduce_FirstReducer keys rows :
  Forall (λ r, is_Some (keyfunc keys r)) rows →
  Reduce_call FirstReducer keys (rows, None)
  = (concat (take 1 <$> runs_by (keyfunc keys) rows), None).
Proof.
  intros Hall. rewrite Reduce_call_groups by done. unfold Reduce_groups.
  transitivity (chain ((λ g : list row, ((take 1 g, None) : trace))
                         <$> runs_by (keyfunc keys) rows)).
  { apply chain_ext, Forall_forall. intros g _. apply run_on_FirstReducer. }
  rewrite <- chain_pass. f_equal.
  by rewrite <- (list_fmap_compose (take 1) (λ g : list row, (g, None))).
Qed.

Lemma FirstReducer_heads_length keys rows :
  Forall (λ r, is_Some (keyfunc keys r)) rows →
  Reduce_call FirstReducer keys (rows, None)
  = (concat (take 1 <$> runs_by (keyfunc keys) rows), None)
  ∧ length (concat (take 1 <$> runs_by (keyfunc keys) rows))
    = length (runs_by (keyfunc keys) rows).
Proof.
  intros Hall. rewrite Reduce_FirstReducer by done. split; [done|].
  pose proof (runs_by_nonempty (keyfunc keys) rows) as Hne.
  induction Hne as [|g gs Hg Hgs IH]; [done|].
  rewrite fmap_cons. cbn [concat]. rewrite length_app, IH.
  by destruct g.
Qed.

Lemma heads_keyed keys (gs : list (list row)) :
  Forall (Forall (λ r, is_Some (keyfunc keys r))) gs →
  Forall (λ r, is_Some (keyfunc keys r)) (concat (take 1 <$> gs)).
Proof.
  induction 1 as [|g gs Hg Hgs IH]; [done|].
  rewrite fmap_cons. simpl. apply Forall_app. split; [|done].
  destruct g; [done|]. apply Forall_cons in Hg as [? _]. by repeat constructor.
Qed.

(** [copy_keys] *)
Lemma key_columns_lookup keys (r : row) c :
  key_columns keys r !! c = if bool_decide (c ∈ keys) then r !! c else None.
Proof.
  unfold key_columns. case_bool_decide as Hd.
  - destruct (r !! c) as [v|] eqn:Hv.
    + by apply map_lookup_filter_Some.
    + apply map_lookup_filter_None. by left.
  - apply map_lookup_filter_None. right. by intros x _.
Qed.

Lemma copy_keys_ok keys r : ∀ m,
  Forall (λ k, is_Some (r !! k)) keys →
  copy_keys keys r m = Ok (key_columns keys r ∪ m).
Proof.
  induction keys as [|key ks IH]; intros m Hall.
  - cbn [copy_keys]. f_equal. apply map_eq. intros c.
    rewrite lookup_union, key_columns_lookup.
    rewrite bool_decide_eq_false_2 by apply not_elem_of_nil.
    by destruct (m !! c).
  - apply Forall_cons in Hall as [[v Hv] Hks].
    cbn [copy_keys]. rewrite Hv, IH by done. f_equal.
    apply map_eq. intros c.
    rewrite !lookup_union, !key_columns_lookup.
    destruct (decide (c = key)) as [->|Hne].
    + rewrite lookup_insert_eq, Hv.
      rewrite (bool_decide_eq_true_2 (key ∈ key :: ks)) by left.
      case_bool_decide; by destruct (m !! key).
    + rewrite lookup_insert_ne by done.
      destruct (decide (c ∈ ks)).
      * rewrite !bool_decide_eq_true_2; [done|by right|done].
      * rewrite !bool_decide_eq_false_2; [done| |done].
        intros [?|?]%elem_of_cons; done.
Qed.

Lemma keyfunc_columns keys r :
  is_Some (keyfunc keys r) → Forall (λ k, is_Some (r !! k)) keys.
Proof.
  intros [k Hk]. unfold keyfunc in Hk. apply mapM_Some in Hk.
  apply Forall_forall. intros c Hc.
  apply list_elem_of_lookup in Hc as [i Hi].
  destruct (Forall2_lookup_l _ _ _ _ _ Hk Hi) as (v & _ & Hv). by exists v.
Qed.

Lemma copy_keys_err keys r : ∀ m e,
  copy_keys keys r m = Err e → e = KeyError.
Proof.
  induction keys as [|key ks IH]; intros m e; cbn [copy_keys]; [done|].
  destruct (r !! key); [apply IH|congruence].
Qed.

(** [Count] and [Sum] on a group *)
Lemma default_last_cons {A} (d x : A) l :
  default d (last (x :: l)) = default x (last l).
Proof.
  revert d x. induction l as [|y l IH]; intros d x; [done|].
  rewrite last_cons_cons. by rewrite !IH.
Qed.

Lemma feed_Count column keys rows : ∀ r n,
  feed (Count column keys) (r, n) rows None
  = on_end (Count column keys)
      (default r (last rows), (n + Z.of_nat (length rows))%Z).
Proof.
  induction rows as [|x rows IH]; intros r n.
  - cbn [feed last default length]. by rewrite Z.add_0_r.
  - cbn [feed Count on_row]. rewrite emit_nil, IH. f_equal.
    f_equal; [by rewrite default_last_cons|]. rewrite length_cons. lia.
Qed.

Lemma feed_Sum column keys rows : ∀ r n,
  Forall (has_int column) rows →
  feed (Sum column keys) (r, n) rows None
  = on_end (Sum column keys)
      (default r (last rows), (n + column_total column rows)%Z).
Proof.
  induction rows as [|x rows IH]; intros r n Hall.
  - cbn [feed last default column_total foldr]. by rewrite Z.add_0_r.
  - apply Forall_cons in Hall as [[z Hz] Hall].
    cbn [feed Sum on_row]. rewrite Hz, emit_nil, IH by done. f_equal.
    f_equal; [by rewrite default_last_cons|].
    cbn [column_total foldr]. unfold int_of at 1. rewrite Hz.
    fold (column_total column rows). lia.
Qed.

Lemma last_keyed keys (group : list row) :
  group ≠ [] →
  Forall (λ r, is_Some (keyfunc keys r)) group →
  Forall (λ k, is_Some (default ∅ (last group) !! k)) keys.
Proof.
  intros Hne Hall. destruct (last group) as [r|] eqn:Hl.
  - apply keyfunc_columns. rewrite Forall_forall in Hall. apply Hall.
    apply last_Some in Hl as [l' ->]. apply elem_of_app. right. left.
  - apply last_None in Hl. done.
Qed.

Lemma run_on_Count column keys group :
  group ≠ [] →
  Forall (λ r, is_Some (keyfunc keys r)) group →
  run_on (Count column keys) (group, None)
  = ([total_row column keys (Z.of_nat (length group)) group], None).
Proof.
  intros Hne Hall. unfold run_on. cbn [Count init fst snd].
  rewrite emit_nil, feed_Count. cbn [on_end Count].
  rewrite copy_keys_ok by by apply last_keyed. by rewrite Z.add_0_l.
Qed.

Lemma run_on_Sum column keys group :
  group ≠ [] →
  Forall (λ r, is_Some (keyfunc keys r)) group →
  Forall (has_int column) group →
  run_on (Sum column keys) (group, None)
  = ([total_row column keys (column_total column group) group], None).
Proof.
  intros Hne Hall Hint. unfold run_on. cbn [Sum init fst snd].
  rewrite emit_nil, feed_Sum by done. cbn [on_end Sum].
  rewrite copy_keys_ok by by apply last_keyed. by rewrite Z.add_0_l.
Qed.

Lemma runs_by_Forall {A K} `{EqDecision K} (f : A → K) (P : A → Prop) l :
  Forall P l → Forall (Forall P) (runs_by f l).
Proof.
  intros Hall. rewrite <- (runs_by_concat f l) in Hall.
  induction (runs_by f l) as [|g gs IH]; [done|].
  simpl in Hall. apply Forall_app in Hall as [Hg Hgs].
  constructor; [done|by apply IH].
Qed.

Lemma Reduce_Count column keys rows :
  Forall (λ r, is_Some (keyfunc keys r)) rows →
  Reduce_call (Count column) keys (rows, None)
  = ((λ g, total_row column keys (Z.of_nat (length g)) g)
       <$> runs_by (keyfunc keys) rows, None).
Proof.
  intros Hall. rewrite Reduce_call_groups by done. unfold Reduce_groups.
  rewrite <- chain_singletons. apply chain_ext.
  pose proof (runs_by_nonempty (keyfunc keys) rows) as Hne.
  pose proof (runs_by_keyed keys rows Hall) as Hk.
  rewrite Forall_forall in Hne, Hk. apply Forall_forall. intros g Hg.
  apply run_on_Count; auto.
Qed.

Lemma Reduce_Sum column keys rows :
  Forall (λ r, is_Some (keyfunc keys r)) rows →
  Forall (has_int column) rows →
  Reduce_call (Sum column) keys (rows, None)
  = ((λ g, total_row column keys (column_total column g) g)
       <$> runs_by (keyfunc keys) rows, None).
Proof.
  intros Hall Hint. rewrite Reduce_call_groups by done. unfold Reduce_groups.
  rewrite <- chain_singletons. apply chain_ext.
  pose proof (runs_by_nonempty (keyfunc keys) rows) as Hne.
  pose proof (runs_by_keyed keys rows Hall) as Hk.
  pose proof (runs_by_Forall (keyfunc keys) _ rows Hint) as Hi.
  rewrite Forall_forall in Hne, Hk, Hi. apply Forall_forall. intros g Hg.
  apply run_on_Sum; auto.
Qed.

Lemma total_row_column column keys n group :
  column ∉ keys → total_row column keys n group !! column = Some (VInt n).
Proof.
  intros Hc. unfold total_row.
  rewrite lookup_union, key_columns_lookup, bool_decide_eq_false_2 by done.
  by rewrite lookup_singleton_eq.
Qed.

Lemma total_row_key column keys n group k :
  k ∈ keys → group ≠ [] →
  Forall (λ r, is_Some (keyfunc keys r)) group →
  total_row column keys n group !! k = default ∅ (last group) !! k.
Proof.
  intros Hk Hne Hall. unfold total_row.
  pose proof (last_keyed keys group Hne Hall) as Hl.
  rewrite Forall_forall in Hl. destruct (Hl k Hk) as [v Hv].
  rewrite lookup_union, key_columns_lookup, bool_decide_eq_true_2, Hv by done.
  by destruct ({[column := VInt n]} !! k).
Qed.

Lemma column_total_app column l1 l2 :
  column_total column (l1 ++ l2)
  = (column_total column l1 + column_total column l2)%Z.
Proof.
  unfold column_total. induction l1 as [|r l1 IH]; simpl; [done|].
  rewrite IH. lia.
Qed.

Lemma column_total_runs column keys (f : list row → Z) (gs : list (list row)) :
  column ∉ keys →
  column_total column ((λ g, total_row column keys (f g) g) <$> gs)
  = foldr (λ g acc, (f g + acc)%Z) 0%Z gs.
Proof.
  intros Hc. induction gs as [|g gs IH]; [done|].
  rewrite fmap_cons. cbn [column_total foldr]. unfold int_of at 1.
  rewrite total_row_column by done. fold (column_total column).
  unfold column_total in IH. by rewrite IH.
Qed.

(** ** Reduce with the reducers of [reduce.py] *)

Lemma keyfunc_eq_lookup keys (r1 r2 : row) k :
  keyfunc keys r1 = keyfunc keys r2 → k ∈ keys → is_Some (keyfunc keys r1) →
  r1 !! k = r2 !! k.
Proof.
  unfold keyfunc. intros Heq Hk [vs Hvs].
  assert (H2 : mapM (λ k, r2 !! k) keys = Some vs) by congruence.
  apply mapM_Some in Hvs, H2.
  apply list_elem_of_lookup in Hk as [i Hi].
  destruct (Forall2_lookup_l _ _ _ _ _ Hvs Hi) as (v & Hv & Hr1).
  destruct (Forall2_lookup_l _ _ _ _ _ H2 Hi) as (v' & Hv' & Hr2).
  congruence.
Qed.

Lemma last_elem_of {A} (l : list A) x : last l = Some x → x ∈ l.
Proof. intros [l' ->]%last_Some. apply elem_of_app. right. left. Qed.

Lemma total_row_keys_of_group column keys n group k r :
  group ≠ [] →
  Forall (λ r, is_Some (keyfunc keys r)) group →
  (∀ x y, x ∈ group → y ∈ group → keyfunc keys x = keyfunc keys y) →
  k ∈ keys → r ∈ group →
  total_row column keys n group !! k = r !! k.
Proof.
  intros Hne Hall Hconst Hk Hr.
  rewrite total_row_key by done.
  destruct (last group) as [l|] eqn:Hl; [|by apply last_None in Hl].
  apply last_elem_of in Hl. simpl.
  apply (keyfunc_eq_lookup keys); [by apply Hconst|done|].
  rewrite Forall_forall in Hall. by apply Hall.
Qed.

Lemma sum_lengths_concat {A} (gs : list (list A)) :
  foldr (λ g acc, (Z.of_nat (length g) + acc)%Z) 0%Z gs
  = Z.of_nat (length (concat gs)).
Proof.
  induction gs as [|g gs IH]; [done|].
  cbn [foldr concat]. rewrite IH, length_app. lia.
Qed.

Lemma sum_totals_concat column (gs : list (list row)) :
  foldr (λ g acc, (column_total column g + acc)%Z) 0%Z gs
  = column_total column (concat gs).
Proof.
  induction gs as [|g gs IH]; [done|].
  cbn [foldr concat]. by rewrite IH, column_total_app.
Qed.

(** X10: [FirstReducer] under [Reduce]: the first row of every maximal run of
    rows with equal keys, in order. *)
Theorem FirstReducer_first_of_each_run (keys : list string)
    (rows : list row) :
  Forall (λ r, is_Some (keyfunc keys r)) rows →
  Reduce_call FirstReducer keys (rows, None)
  = (concat (take 1 <$> runs_by (keyfunc keys) rows), None)
  ∧ length (Reduce_call FirstReducer keys (rows, None)).1
    = length (runs_by (keyfunc keys) rows).
Proof.
  intros Hall. destruct (FirstReducer_heads_length keys rows Hall) as [-> ?].
  done.
Qed.

Lemma FirstReducer_first_of_each_run_witness :
  Reduce_call FirstReducer ["id"] (right_rows, None)
  = (concat (take 1 <$> runs_by (keyfunc ["id"]) right_rows), None).
Proof.
  refine (proj1 (FirstReducer_first_of_each_run ["id"] right_rows _)).
  repeat (apply Forall_cons; split; [by eexists|]); apply Forall_nil_2.
Defined.

(** X11: Reducing with [FirstReducer] twice on the same keys changes nothing
    the second time. *)
Theorem FirstReducer_idempotent (keys : list string) (rows : list row) :
  Forall (λ r, is_Some (keyfunc keys r)) rows →
  Reduce_call FirstReducer keys (Reduce_call FirstReducer keys (rows, None))
  = Reduce_call FirstReducer keys (rows, None).
Proof.
  intros Hall. rewrite (Reduce_FirstReducer keys rows) by done.
  rewrite Reduce_FirstReducer
    by (apply heads_keyed, runs_by_keyed; done).
  rewrite runs_by_heads
    by (first [apply runs_by_nonempty|apply runs_by_differ]).
  f_equal. f_equal. rewrite <- list_fmap_compose.
  apply list_fmap_ext. intros i g _. simpl. by destruct g.
Qed.

Lemma FirstReducer_idempotent_witness :
  Reduce_call FirstReducer ["id"]
    (Reduce_call FirstReducer ["id"] (right_rows, None))
  = Reduce_call FirstReducer ["id"] (right_rows, None).
Proof.
  apply (FirstReducer_idempotent ["id"] right_rows).
  repeat (apply Forall_cons; split; [by eexists|]); apply Forall_nil_2.
Defined.

(** X12: [Count] under [Reduce]: one row for every maximal run of rows with
    equal keys, with the key columns of the run and, in a column that is
    no key, the number of rows of the run; the counts add up to the number
    of rows read. *)
Theorem Count_counts_each_run (column : string) (keys : list string)
    (rows : list row) :
  Forall (λ r, is_Some (keyfunc keys r)) rows →
  let runs := runs_by (keyfunc keys) rows in
  let count_row g := total_row column keys (Z.of_nat (length g)) g in
  Reduce_call (Count column) keys (rows, None) = (count_row <$> runs, None)
  ∧ (∀ g k r, g ∈ runs → k ∈ keys → r ∈ g → count_row g !! k = r !! k)
  ∧ (column ∉ keys →
       (∀ g, g ∈ runs →
          count_row g !! column = Some (VInt (Z.of_nat (length g))))
       ∧ column_total column (Reduce_call (Count column) keys (rows, None)).1
         = Z.of_nat (length rows)).
Proof.
  intros Hall runs count_row. rewrite Reduce_Count by done.
  split; [done|]. split.
  - intros g k r Hg Hk Hr.
    pose proof (runs_by_nonempty (keyfunc keys) rows) as Hne.
    pose proof (runs_by_keyed keys rows Hall) as Hkeyed.
    pose proof (runs_by_constant (keyfunc keys) rows) as Hconst.
    rewrite Forall_forall in Hne, Hkeyed, Hconst.
    apply total_row_keys_of_group;
      [by apply Hne|by apply Hkeyed|by apply Hconst|done|done].
  - intros Hc. split.
    + intros g _. by apply total_row_column.
    + cbn [fst].
      rewrite (column_total_runs column keys (λ g, Z.of_nat (length g)))
        by done.
      by rewrite sum_lengths_concat, runs_by_concat.
Qed.

Lemma Count_counts_each_run_witness :
  Reduce_call (Count "n") ["id"] (right_rows, None)
  = ((λ g, total_row "n" ["id"] (Z.of_nat (length g)) g)
       <$> runs_by (keyfunc ["id"]) right_rows, None).
Proof.
  refine (proj1 (Count_counts_each_run "n" ["id"] right_rows _)).
  repeat (apply Forall_cons; split; [by eexists|]); apply Forall_nil_2.
Defined.

(** X13: [Sum] under [Reduce], on rows with an integer in the column: one row
    for every maximal run of rows with equal keys, with the key columns of
    the run and, in a column that is no key, the sum of the column over
    the run; the sums add up to the sum of the column over the rows
    read. *)
Theorem Sum_sums_each_run (column : string) (keys : list string)
    (rows : list row) :
  Forall (λ r, is_Some (keyfunc keys r)) rows →
  Forall (has_int column) rows →
  let runs := runs_by (keyfunc keys) rows in
  let sum_row g := total_row column keys (column_total column g) g in
  Reduce_call (Sum column) keys (rows, None) = (sum_row <$> runs, None)
  ∧ (∀ g k r, g ∈ runs → k ∈ keys → r ∈ g → sum_row g !! k = r !! k)
  ∧ (column ∉ keys →
       (∀ g, g ∈ runs →
          sum_row g !! column = Some (VInt (column_total column g)))
       ∧ column_total column (Reduce_call (Sum column) keys (rows, None)).1
         = column_total column rows).
Proof.
  intros Hall Hint runs sum_row. rewrite Reduce_Sum by done.
  split; [done|]. split.
  - intros g k r Hg Hk Hr.
    pose proof (runs_by_nonempty (keyfunc keys) rows) as Hne.
    pose proof (runs_by_keyed keys rows Hall) as Hkeyed.
    pose proof (runs_by_constant (keyfunc keys) rows) as Hconst.
    rewrite Forall_forall in Hne, Hkeyed, Hconst.
    apply total_row_keys_of_group;
      [by apply Hne|by apply Hkeyed|by apply Hconst|done|done].
  - intros Hc. split.
    + intros g _. by apply total_row_column.
    + cbn [fst].
      rewrite (column_total_runs column keys (column_total column)) by done.
      by rewrite sum_totals_concat, runs_by_concat.
Qed.

Lemma Sum_sums_each_run_witness :
  Reduce_call (Sum "s") ["k"] (topn_group, None)
  = ((λ g, total_row "s" ["k"] (column_total "s" g) g)
       <$> runs_by (keyfunc ["k"]) topn_group, None).
Proof.
  refine (proj1 (Sum_sums_each_run "s" ["k"] topn_group _ _)).
  - repeat (apply Forall_cons; split; [by eexists|]); apply Forall_nil_2.
  - repeat (apply Forall_cons; split; [by eexists|]); apply Forall_nil_2.
Defined.

(** X14: [Sum] on a group with a row that has no integer in the column, after
    rows that have one: a [KeyError] when the column is missing, a
    [TypeError] when it holds a string; nothing is yielded, and the rest
    of the group is not read. *)
Theorem Sum_raises_on_first_non_integer (column : string)
    (group_key : list string) (good rest : list row) (r : row)
    (fin : option exn) :
  Forall (has_int column) good →
  (r !! column = None →
     run_on (Sum column group_key) (good ++ r :: rest, fin)
     = ([], Some KeyError))
  ∧ (∀ s, r !! column = Some (VStr s) →
       run_on (Sum column group_key) (good ++ r :: rest, fin)
       = ([], Some TypeError)).
Proof.
  intros Hgood. unfold run_on. cbn [Sum init fst snd].
  assert (Hfeed : ∀ st,
    feed (Sum column group_key) st (good ++ r :: rest) fin
    = match r !! column with
      | Some (VInt z) =>
          feed (Sum column group_key) st (good ++ r :: rest) fin
      | Some (VStr _) => ([], Some TypeError)
      | None => ([], Some KeyError)
      end).
  { induction Hgood as [|x good [z Hz] Hgood IH]; intros [r0 n].
    - cbn [app feed Sum on_row]. by destruct (r !! column) as [[z|s]|].
    - cbn [app feed]. cbn [Sum on_row]. rewrite Hz.
      rewrite !emit_nil. apply IH. }
  split.
  - intros Hr. rewrite emit_nil, Hfeed, Hr. done.
  - intros s Hr. rewrite emit_nil, Hfeed, Hr. done.
Qed.

Lemma Sum_raises_on_first_non_integer_witness :
  run_on (Sum "s" ["k"])
    (topn_group ++ row_of [("k", VInt 1)] :: [], None)
  = ([], Some KeyError).
Proof.
  refine (proj1 (Sum_raises_on_first_non_integer "s" ["k"] topn_group []
                   (row_of [("k", VInt 1)]) None _) _); [|done].
  repeat (apply Forall_cons; split; [by eexists|]); apply Forall_nil_2.
Defined.

(** X15: Counting the documents of [inverted_index_graph]: [FirstReducer] on
    [keys] followed by [Count] on no keys yields one row with the number
    of maximal runs of equal keys, and no row at all (not a zero) when
    the stream has no rows. *)
Theorem Count_after_FirstReducer_counts_runs (column : string)
    (keys : list string) (rows : list row) :
  Forall (λ r, is_Some (keyfunc keys r)) rows →
  Reduce_call (Count column) []
    (Reduce_call FirstReducer keys (rows, None))
  = (match rows with
     | [] => []
     | _ => [{[ column :=
                  VInt (Z.of_nat (length (runs_by (keyfunc keys) rows))) ]}]
     end, None).
Proof.
  intros Hall.
  destruct (FirstReducer_heads_length keys rows Hall) as [Heq Hlen].
  rewrite Heq. destruct rows as [|r rows]; [done|].
  set (heads := concat (take 1 <$> runs_by (keyfunc keys) (r :: rows))) in *.
  assert (Hne : heads ≠ []).
  { intros H0. rewrite H0 in Hlen. rewrite runs_by_cons in Hlen. done. }
  rewrite Reduce_call_whole by done.
  rewrite run_on_Count; [|done|].
  - rewrite Hlen. do 3 f_equal. unfold total_row. apply map_eq. intros c.
    rewrite lookup_union, key_columns_lookup.
    rewrite bool_decide_eq_false_2 by apply not_elem_of_nil.
    by destruct ({[column := _]} !! c).
  - apply Forall_forall. intros x _. by exists [].
Qed.

Lemma Count_after_FirstReducer_counts_runs_witness :
  Reduce_call (Count "docs") []
    (Reduce_call FirstReducer ["id"] (right_rows, None))
  = ([{[ "docs" :=
           VInt (Z.of_nat (length (runs_by (keyfunc ["id"]) right_rows))) ]}],
     None).
Proof.
  apply (Count_after_FirstReducer_counts_runs "docs" ["id"] right_rows).
  repeat (apply Forall_cons; split; [by eexists|]); apply Forall_nil_2.
Defined.

(** ** Streams that raise *)

(** X9: Reduce with a reducer of the repository ([FirstReducer], [TopN],
    [Count], [Sum]) never ends normally on a stream that raises or that
    has a row without one of the key columns: none of them catches an
    exception, and the keys of all rows are computed, also of rows the
    reducer does not read. *)
Theorem Reduce_raises_on_broken_stream (reducer : Reducer)
    (keys : list string) (rows : trace) :
  source_reducer reducer → breaks keys rows →
  (Reduce_call reducer keys rows).2 ≠ None.
Proof. intros _. apply Reduce_call_breaks. Qed.

Lemma Reduce_raises_on_broken_stream_witness :
  (Reduce_call FirstReducer ["id"]
     (right_rows ++ [row_of [("v", VStr "w")]], None)).2 ≠ None.
Proof.
  apply (Reduce_raises_on_broken_stream FirstReducer ["id"]
           (right_rows ++ [row_of [("v", VStr "w")]], None)).
  - apply sr_FirstReducer.
  - right. cbn [fst]. apply Exists_exists.
    exists (row_of [("v", VStr "w")]). split; [|done].
    apply elem_of_app. right. left.
Defined.

(** X8: Join with a joiner of the repository ([InnerJoiner], [OuterJoiner],
    [LeftJoiner], [RightJoiner]) never ends normally when one of its
    streams raises or has a row without one of the key columns, whatever
    the other stream: none of the joiners catches an exception. *)
Theorem Join_raises_on_broken_stream (joiner : Joiner) (keys : list string)
    (rows other : trace) :
  source_joiner joiner →
  breaks keys rows ∨ breaks keys other →
  (Join_call joiner keys rows other).2 ≠ None.
Proof. intros _. apply Join_call_breaks. Qed.

Lemma Join_raises_on_broken_stream_witness :
  (Join_call (InnerJoiner "_1" "_2") ["id"] (left_rows, None)
     (right_rows, Some (UserError "io"))).2 ≠ None.
Proof.
  apply (Join_raises_on_broken_stream (InnerJoiner "_1" "_2") ["id"]
           (left_rows, None) (right_rows, Some (UserError "io"))).
  - apply sj_InnerJoiner.
  - right. by left.
Defined.

(** ** TopN on any input *)

Lemma nlargest_submseteq n (acc : list (value * row)) :
  nlargest n acc ⊆+ acc.*2.
Proof.
  unfold nlargest. etrans.
  - apply fmap_submseteq, submseteq_take.
  - apply Permutation_submseteq, fmap_Permutation, stable_sort_perm.
Qed.

Lemma nlargest_length n (acc : list (value * row)) :
  length (nlargest n acc) ≤ Z.to_nat n.
Proof. unfold nlargest. rewrite length_fmap, length_take. lia. Qed.

Lemma feed_TopN_safe column n keys rows : ∀ acc fin,
  (feed (TopN column n keys) acc rows fin).1 ⊆+ acc.*2 ++ rows
  ∧ length (feed (TopN column n keys) acc rows fin).1 ≤ Z.to_nat n
  ∧ ((feed (TopN column n keys) acc rows fin).2 ≠ None →
       (feed (TopN column n keys) acc rows fin).1 = []).
Proof.
  induction rows as [|r rows IH]; intros acc fin.
  - cbn [feed]. destruct fin as [e|].
    + cbn [fst snd]. split; [apply submseteq_nil_l|]. split; [simpl; lia|done].
    + cbn [TopN on_end]. destruct (mixed acc.*1).
      * cbn [fst snd]. split; [apply submseteq_nil_l|].
        split; [simpl; lia|done].
      * cbn [fst snd]. rewrite app_nil_r.
        split; [apply nlargest_submseteq|].
        split; [apply nlargest_length|done].
  - cbn [feed]. cbn [TopN on_row].
    destruct (r !! column) as [v|].
    + destruct ((n <=? Z.of_nat (length (acc ++ [(v, r)])))%Z
                && mixed (acc ++ [(v, r)]).*1).
      * cbn [fst snd]. split; [apply submseteq_nil_l|].
        split; [simpl; lia|done].
      * rewrite emit_nil.
        destruct (IH (acc ++ [(v, r)]) fin) as (H1 & H2 & H3).
        split; [|done].
        rewrite fmap_app, <- app_assoc in H1. done.
    + cbn [fst snd]. split; [apply submseteq_nil_l|].
      split; [simpl; lia|done].
Qed.

(** X16: Whatever the group, [TopN] yields only rows of the group, each no
    more often than it occurs there, and no more than [n] of them; when
    it raises (a row without the column, values of different types, or an
    exception of the input) it has yielded nothing. *)
Theorem TopN_yields_rows_of_the_group (column : string) (n : Z)
    (keys : list string) (t : trace) :
  (run_on (TopN column n keys) t).1 ⊆+ t.1
  ∧ length (run_on (TopN column n keys) t).1 ≤ Z.to_nat n
  ∧ ((run_on (TopN column n keys) t).2 ≠ None →
       (run_on (TopN column n keys) t).1 = []).
Proof.
  unfold run_on. cbn [TopN init].
  destruct (n <=? 0)%Z.
  - cbn [fst snd]. split; [apply submseteq_nil_l|]. split; [simpl; lia|done].
  - rewrite emit_nil. apply (feed_TopN_safe column n keys t.1 [] t.2).
Qed.

(** X17: With [n <= 0], [TopN] reads no row of its group: under [Reduce] it
    yields nothing and raises nothing, also when rows lack the column or
    hold values of different types in it. *)
Theorem TopN_nonpositive_yields_nothing (column : string) (n : Z)
    (keys : list string) (rows : list row) :
  (n ≤ 0)%Z →
  Forall (λ r, is_Some (keyfunc keys r)) rows →
  Reduce_call (TopN column n) keys (rows, None) = ([], None).
Proof.
  intros Hn Hall. rewrite Reduce_call_groups by done. unfold Reduce_groups.
  transitivity (chain ((λ _ : list row, (([], None) : trace))
                         <$> runs_by (keyfunc keys) rows)).
  - apply chain_ext, Forall_forall. intros g _.
    unfold run_on. cbn [TopN init].
    by rewrite (proj2 (Z.leb_le n 0) Hn).
  - apply chain_silent.
Qed.

Lemma TopN_nonpositive_yields_nothing_witness :
  Reduce_call (TopN "missing" 0) ["id"] (right_rows, None) = ([], None).
Proof.
  apply (TopN_nonpositive_yields_nothing "missing" 0 ["id"] right_rows);
    [done|].
  repeat (apply Forall_cons; split; [by eexists|]); apply Forall_nil_2.
Defined.

(** ** Graphs over a graph that raises *)

(** X25: An exception of a graph is an exception of every graph built
    on it with [map], with [reduce] and a reducer of the repository, or
    with [join] and a joiner of the repository, on either side of the
    join: these operations yield what they can and then raise, they never
    end a run normally over an input that raised.  The same holds for
    [Map] on objects, whatever the mapper: a mapper gets rows, not the
    stream. *)
Theorem Graph_exceptions_propagate (g : Graph) (kw : kwargs) :
  (Graph_run_body g kw).2 ≠ None →
  (∀ mapper, (Graph_run_body (Graph_map g mapper) kw).2 ≠ None)
  ∧ (∀ mapper h rows e, (Map_call mapper h (rows, Some e)).1.2 ≠ None)
  ∧ (∀ reducer keys, source_reducer reducer →
       (Graph_run_body (Graph_reduce g reducer keys) kw).2 ≠ None)
  ∧ (∀ joiner join_graph keys, source_joiner joiner →
       (Graph_run_body (Graph_join g joiner join_graph keys) kw).2 ≠ None)
  ∧ (∀ joiner self keys, source_joiner joiner →
       (Graph_run_body (Graph_join self joiner g keys) kw).2 ≠ None).
Proof.
  intros Hg. repeat split.
  - intros mapper. cbn [Graph_map Graph_run_body Map_op].
    by apply Map_rows_fails.
  - intros mapper h rows e. by apply Map_loop_fails.
  - intros reducer keys _. cbn [Graph_reduce Graph_run_body Reduce_op].
    apply Reduce_call_breaks. by left.
  - intros joiner join_graph keys _.
    cbn [Graph_join Graph_run_body Join_op].
    apply Join_call_breaks. left. by left.
  - intros joiner self keys _. cbn [Graph_join Graph_run_body Join_op].
    apply Join_call_breaks. right. by left.
Qed.

Lemma Graph_exceptions_propagate_witness :
  (Graph_run_body (Graph_reduce (MkGraph None []) FirstReducer ["id"]) ∅).2
  ≠ None.
Proof.
  refine (proj1 (proj2 (proj2 (Graph_exceptions_propagate (MkGraph None []) ∅
            _))) FirstReducer ["id"] sr_FirstReducer).
  done.
Defined.

(** ** Mappers *)

Lemma Map_rows_total (m : row → trace) (f : row → row) rows fin :
  Forall (λ r, m r = ([f r], None)) rows →
  Map_rows m rows fin = (f <$> rows, fin).
Proof.
  induction 1 as [|r rows Hr Hrows IH]; [done|].
  cbn [Map_rows]. by rewrite Hr, IH.
Qed.

Lemma Map_rows_Filter condition rows fin :
  Map_rows (Filter_rows condition) rows fin
  = (filter (λ r, condition r = true) rows, fin).
Proof.
  induction rows as [|r rows IH]; [done|].
  cbn [Map_rows]. rewrite IH, filter_cons. unfold Filter_rows.
  destruct (condition r) eqn:Hc.
  - by rewrite decide_True by done.
  - by rewrite decide_False by done.
Qed.

Lemma Map_rows_stops (m : row → trace) good r rest fin e :
  Forall (λ r, (m r).2 = None) good → (m r).2 = Some e →
  Map_rows m (good ++ r :: rest) fin
  = ((good ≫= λ r, (m r).1) ++ (m r).1, Some e).
Proof.
  intros Hgood Hr. induction Hgood as [|x good Hx Hgood IH].
  - cbn [app Map_rows]. unfold and_then. rewrite Hr.
    destruct (m r) as [out fin']. simpl in *. by subst.
  - cbn [app Map_rows]. rewrite IH, bind_cons. unfold and_then. rewrite Hx.
    unfold emit. cbn [fst snd]. by rewrite app_assoc.
Qed.

(** The mappers change no object but their own and compute what their
    [_rows] functions say. *)
Lemma DummyMapper_local : mapper_local DummyMapper.
Proof. by intros l h l' Hl' Hne. Qed.

Lemma DummyMapper_computes : mapper_computes DummyMapper (λ r, ([r], None)).
Proof. intros l h r Hr. simpl. by rewrite Hr. Qed.

Lemma DummyMapper_yields_own : mapper_yields_own DummyMapper.
Proof. intros l h Hl. split; [done|]. by repeat constructor. Qed.

Lemma Filter_local condition : mapper_local (Filter condition).
Proof. by intros l h l' Hl' Hne. Qed.

Lemma Filter_computes condition :
  mapper_computes (Filter condition) (Filter_rows condition).
Proof.
  intros l h r Hr. unfold Filter, Filter_rows.
  rewrite (lookup_total_correct _ _ _ Hr).
  destruct (condition r); simpl; [by rewrite Hr|done].
Qed.

Lemma Filter_yields_own condition : mapper_yields_own (Filter condition).
Proof.
  intros l h Hl. split; [done|]. unfold Filter. cbn [fst snd].
  destruct (condition (h !!! l)); by repeat constructor.
Qed.

Lemma BinaryArithmeticOperation_yields_own operation column :
  mapper_yields_own (BinaryArithmeticOperation operation column).
Proof.
  intros l h Hl. unfold BinaryArithmeticOperation.
  destruct (operation (h !!! l)); cbn [fst snd].
  - split; [rewrite dom_insert; apply union_subseteq_r|]. by repeat constructor.
  - split; [done|constructor].
Qed.

Lemma Project_local columns : mapper_local (Project columns).
Proof.
  intros l h l' Hl' Hne. unfold Project.
  destruct (copy_keys columns (h !!! l) ∅); cbn [fst snd]; [|done].
  apply lookup_insert_ne. intros <-. by apply is_fresh in Hl'.
Qed.

Lemma Project_computes columns :
  mapper_computes (Project columns) (Project_rows columns).
Proof.
  intros l h r Hr. unfold Project, Project_rows.
  rewrite (lookup_total_correct _ _ _ Hr).
  destruct (copy_keys columns r ∅); cbn [fst snd mapM]; [|done].
  by rewrite lookup_insert_eq.
Qed.

Lemma Project_yields_own columns : mapper_yields_own (Project columns).
Proof.
  intros l h Hl. unfold Project.
  destruct (copy_keys columns (h !!! l) ∅); cbn [fst snd].
  - split; [rewrite dom_insert; apply union_subseteq_r|].
    constructor; [right; apply is_fresh|constructor].
  - split; [done|constructor].
Qed.

Lemma Product_local columns result_column :
  mapper_local (Product columns result_column).
Proof.
  intros l h l' Hl' Hne. unfold Product.
  destruct (Product_loop _ _ _) as [r e]. cbn [fst snd].
  by apply lookup_insert_ne.
Qed.

Lemma Product_computes columns result_column :
  mapper_computes (Product columns result_column)
    (Product_rows columns result_column).
Proof.
  intros l h r Hr. unfold Product, Product_rows.
  rewrite (lookup_total_correct _ _ _ Hr).
  destruct (Product_loop _ _ _) as [r' [e|]]; cbn [fst snd mapM]; [done|].
  by rewrite lookup_insert_eq.
Qed.

Lemma Product_yields_own columns result_column :
  mapper_yields_own (Product columns result_column).
Proof.
  intros l h Hl. unfold Product.
  destruct (Product_loop _ _ _) as [r' e]. cbn [fst snd].
  split; [rewrite dom_insert; apply union_subseteq_r|].
  destruct e; by repeat constructor.
Qed.

Lemma FilterPunctuation_local column : mapper_local (FilterPunctuation column).
Proof.
  intros l h l' Hl' Hne. unfold FilterPunctuation.
  destruct ((h !!! l) !! column) as [[z|txt]|]; cbn [fst snd]; try done.
  by apply lookup_insert_ne.
Qed.

Lemma FilterPunctuation_computes column :
  mapper_computes (FilterPunctuation column) (FilterPunctuation_rows column).
Proof.
  intros l h r Hr. unfold FilterPunctuation, FilterPunctuation_rows.
  rewrite (lookup_total_correct _ _ _ Hr).
  destruct (r !! column) as [[z|txt]|]; cbn [fst snd mapM]; try done.
  by rewrite lookup_insert_eq.
Qed.

Lemma FilterPunctuation_yields_own column :
  mapper_yields_own (FilterPunctuation column).
Proof.
  intros l h Hl. unfold FilterPunctuation.
  destruct ((h !!! l) !! column) as [[z|txt]|]; cbn [fst snd].
  - split; [done|constructor].
  - split; [rewrite dom_insert; apply union_subseteq_r|]. by repeat constructor.
  - split; [done|constructor].
Qed.

(** The objects [Map] yields are not among those that were there before
    it ran. *)
Lemma Map_loop_fresh mapper (D : gset loc) fin rows : ∀ h,
  mapper_yields_own mapper → D ⊆ dom h →
  Forall (λ o, o ∉ D) (Map_loop mapper h rows fin).1.1
  ∧ D ⊆ dom (Map_loop mapper h rows fin).2.
Proof.
  induction rows as [|l ls IH]; intros h Hown HD; [by split|].
  cbn [Map_loop]. unfold deepcopy.
  pose proof (is_fresh (dom h)) as Hc.
  assert (H1 : dom h ⊆ dom (<[fresh (dom h) := h !!! l]> h)).
  { rewrite dom_insert. apply union_subseteq_r. }
  assert (Hc1 : fresh (dom h) ∈ dom (<[fresh (dom h) := h !!! l]> h)).
  { rewrite dom_insert. apply elem_of_union_l. by apply elem_of_singleton. }
  destruct (Hown _ _ Hc1) as [Hdom Hout].
  destruct (mapper (fresh (dom h)) (<[fresh (dom h) := h !!! l]> h))
    as [[out e] h2]. cbn [fst snd] in *.
  assert (HD1 : D ⊆ dom (<[fresh (dom h) := h !!! l]> h)) by by etrans.
  assert (HD2 : D ⊆ dom h2) by by etrans.
  assert (Hfresh : Forall (λ o, o ∉ D) out).
  { eapply Forall_impl; [exact Hout|]. intros o [->|Ho] HoD.
    - by apply Hc, HD.
    - by apply Ho, HD1. }
  destruct e as [x|]; [by split|].
  destruct (IH h2 Hown HD2) as [IH1 IH2].
  destruct (Map_loop mapper h2 ls fin) as [[out' e'] h3]. cbn [fst snd] in *.
  split; [by apply Forall_app|done].
Qed.

Lemma Map_loop_DummyMapper_NoDup fin rows : ∀ h,
  NoDup (Map_loop DummyMapper h rows fin).1.1.
Proof.
  induction rows as [|l ls IH]; intros h; [constructor|].
  cbn [Map_loop]. unfold deepcopy, DummyMapper at 1.
  pose proof (Map_loop_fresh DummyMapper
                (dom (<[fresh (dom h) := h !!! l]> h)) fin ls
                (<[fresh (dom h) := h !!! l]> h)
                DummyMapper_yields_own ltac:(done)) as [Hf _].
  specialize (IH (<[fresh (dom h) := h !!! l]> h)).
  destruct (Map_loop DummyMapper (<[fresh (dom h) := h !!! l]> h) ls fin)
    as [[out' e'] h3].
  cbn [fst snd app] in *. constructor; [|done].
  intros Hin. rewrite Forall_forall in Hf. apply (Hf _ Hin).
  rewrite dom_insert. apply elem_of_union_l. by apply elem_of_singleton.
Qed.

(** [Product_loop] on integers *)
Lemma int_product_ext columns (r r' : row) acc :
  Forall (λ c, r' !! c = r !! c) columns →
  foldl (λ a col, (a * int_of col r')%Z) acc columns
  = foldl (λ a col, (a * int_of col r)%Z) acc columns.
Proof.
  intros Hall. revert acc.
  induction Hall as [|c cs Hc Hcs IH]; intros acc; [done|].
  cbn [foldl].
  assert (int_of c r' = int_of c r) as -> by (unfold int_of; by rewrite Hc).
  apply IH.
Qed.

Lemma Product_loop_ints result_column columns : ∀ (r : row) acc,
  result_column ∉ columns →
  r !! result_column = Some (VInt acc) →
  Forall (λ c, has_int c r) columns →
  Product_loop result_column columns r
  = (<[result_column :=
         VInt (foldl (λ a col, (a * int_of col r)%Z) acc columns)]> r, None).
Proof.
  induction columns as [|c cs IH]; intros r acc Hnot Hacc Hall.
  - cbn [Product_loop foldl]. by rewrite insert_id.
  - apply Forall_cons in Hall as [[z Hz] Hall].
    apply not_elem_of_cons in Hnot as [Hne Hnot].
    cbn [Product_loop foldl]. rewrite Hacc, Hz. cbn [value_mul].
    unfold int_of at 2. rewrite Hz.
    rewrite (IH _ (acc * z)%Z Hnot).
    + rewrite insert_insert_eq. f_equal. f_equal. f_equal.
      apply int_product_ext. apply Forall_forall. intros c' Hc'.
      apply lookup_insert_ne. intros ->. done.
    + apply lookup_insert_eq.
    + apply Forall_forall. intros c' Hc'. rewrite Forall_forall in Hall.
      destruct (Hall c' Hc') as [z' Hz']. exists z'.
      rewrite lookup_insert_ne; [done|]. by intros ->.
Qed.

Lemma Product_rows_ints columns result_column (r : row) :
  result_column ∉ columns →
  Forall (λ c, has_int c r) columns →
  Product_rows columns result_column r
  = ([<[result_column := VInt (int_product columns r)]> r], None).
Proof.
  intros Hnot Hall. unfold Product_rows.
  rewrite (Product_loop_ints result_column columns _ 1%Z Hnot).
  - rewrite insert_insert_eq. do 3 f_equal. unfold int_product.
    f_equal. apply int_product_ext. apply Forall_forall. intros c Hc.
    apply lookup_insert_ne. by intros ->.
  - apply lookup_insert_eq.
  - apply Forall_forall. intros c Hc. rewrite Forall_forall in Hall.
    destruct (Hall c Hc) as [z Hz]. exists z.
    rewrite lookup_insert_ne; [done|]. by intros ->.
Qed.

Lemma Project_rows_ok columns (r : row) :
  Forall (λ c, is_Some (r !! c)) columns →
  Project_rows columns r = ([key_columns columns r], None).
Proof.
  intros Hall. unfold Project_rows. rewrite copy_keys_ok by done.
  by rewrite (right_id_L ∅ (∪)).
Qed.

Lemma key_columns_dom columns (r : row) :
  Forall (λ c, is_Some (r !! c)) columns →
  dom (key_columns columns r) = list_to_set columns.
Proof.
  intros Hall. apply set_eq. intros c.
  rewrite elem_of_dom, key_columns_lookup, elem_of_list_to_set.
  case_bool_decide as Hc.
  - split; [done|]. intros _. rewrite Forall_forall in Hall. by apply Hall.
  - split; [by intros [? ?]|done].
Qed.

Lemma remove_punctuation_clean txt :
  Forall (λ s, s ∉ String.list_ascii_of_string punctuation)
    (String.list_ascii_of_string (remove_punctuation txt)).
Proof.
  unfold remove_punctuation. rewrite String.list_ascii_of_string_of_list_ascii.
  apply Forall_forall. intros s Hs. by apply list_elem_of_filter in Hs as [? _].
Qed.

Lemma remove_punctuation_keeps txt :
  Forall (λ s, s ∉ String.list_ascii_of_string punctuation)
    (String.list_ascii_of_string txt) →
  remove_punctuation txt = txt.
Proof.
  intros Hall. unfold remove_punctuation.
  rewrite <- (String.string_of_list_ascii_of_string txt) at 2. f_equal.
  induction Hall as [|s l Hs Hl IH]; [done|].
  rewrite filter_cons, decide_True by done. by rewrite IH.
Qed.

(** [Map] with a mapper that yields one row for every row *)
Lemma Map_loop_total mapper (m : row → trace) (f : row → row) h rows fin :
  mapper_local mapper → mapper_computes mapper m →
  Forall (λ l, l ∈ dom h) rows →
  Forall (λ r, m r = ([f r], None)) (contents h rows) →
  mapM (λ o, (Map_loop mapper h rows fin).2 !! o)
       (Map_loop mapper h rows fin).1.1
    = Some (f <$> contents h rows)
  ∧ (Map_loop mapper h rows fin).1.2 = fin
  ∧ ∀ l, l ∈ dom h → (Map_loop mapper h rows fin).2 !! l = h !! l.
Proof.
  intros Hloc Hcomp Hrows Hall.
  destruct (Map_loop_refines mapper m fin rows h Hloc Hcomp Hrows)
    as (H1 & H2 & H3).
  rewrite (Map_rows_total m f) in H1, H2 by done. done.
Qed.

(** ** Map with the mappers of [map.py] *)

(** X18: [Map] hands every mapper a copy of the row, and the mappers yield
    that copy or a dict of their own: no object [Map] yields is one of
    the objects that were there before, so changing a yielded row changes
    no input row. *)
Theorem Map_yields_new_objects (h : heap) (rows : obj_trace) :
  let new_objects mapper :=
    Forall (λ o, o ∉ dom h) (Map_call mapper h rows).1.1 in
  new_objects DummyMapper
  ∧ (∀ condition, new_objects (Filter condition))
  ∧ (∀ columns, new_objects (Project columns))
  ∧ (∀ columns result_column, new_objects (Product columns result_column))
  ∧ (∀ column, new_objects (FilterPunctuation column))
  ∧ (∀ operation column,
       new_objects (BinaryArithmeticOperation operation column)).
Proof.
  intros new_objects. unfold new_objects, Map_call.
  repeat split; intros; apply (Map_loop_fresh _ (dom h)); try done.
  - apply DummyMapper_yields_own.
  - apply Filter_yields_own.
  - apply Project_yields_own.
  - apply Product_yields_own.
  - apply FilterPunctuation_yields_own.
  - apply BinaryArithmeticOperation_yields_own.
Qed.

(** X19: [Map] with [DummyMapper] copies the stream: it yields one new object
    for every row, all different, with the contents of the rows in order,
    and passes the end of the stream on. *)
Theorem Map_DummyMapper_copies (h : heap) (rows : list loc)
    (fin : option exn) :
  Forall (λ l, l ∈ dom h) rows →
  mapM (λ o, (Map_call DummyMapper h (rows, fin)).2 !! o)
       (Map_call DummyMapper h (rows, fin)).1.1
    = Some (contents h rows)
  ∧ (Map_call DummyMapper h (rows, fin)).1.2 = fin
  ∧ NoDup (Map_call DummyMapper h (rows, fin)).1.1
  ∧ ∀ l, l ∈ dom h → (Map_call DummyMapper h (rows, fin)).2 !! l = h !! l.
Proof.
  intros Hrows. unfold Map_call. cbn [fst snd].
  destruct (Map_loop_total DummyMapper (λ r, ([r], None)) id h rows fin
              DummyMapper_local DummyMapper_computes Hrows) as (H1 & H2 & H3).
  { by apply Forall_forall. }
  rewrite list_fmap_id in H1.
  repeat split; try done. apply Map_loop_DummyMapper_NoDup.
Qed.

Lemma Map_DummyMapper_copies_witness :
  mapM (λ o, (Map_call DummyMapper test_heap ([1; 2]%positive, None)).2 !! o)
       (Map_call DummyMapper test_heap ([1; 2]%positive, None)).1.1
    = Some (contents test_heap [1; 2]%positive).
Proof.
  refine (proj1 (Map_DummyMapper_copies test_heap [1; 2]%positive None _)).
  repeat constructor; by vm_compute.
Defined.

(** X20: [Map] with [Filter] yields copies of the rows that satisfy the
    condition, in order, and passes the end of the stream on. *)
Theorem Map_Filter_keeps_matching_rows (condition : row → bool) (h : heap)
    (rows : list loc) (fin : option exn) :
  Forall (λ l, l ∈ dom h) rows →
  mapM (λ o, (Map_call (Filter condition) h (rows, fin)).2 !! o)
       (Map_call (Filter condition) h (rows, fin)).1.1
    = Some (filter (λ r, condition r = true) (contents h rows))
  ∧ (Map_call (Filter condition) h (rows, fin)).1.2 = fin.
Proof.
  intros Hrows. unfold Map_call. cbn [fst snd].
  destruct (Map_loop_refines (Filter condition) (Filter_rows condition) fin
              rows h (Filter_local condition) (Filter_computes condition)
              Hrows) as (H1 & H2 & _).
  rewrite Map_rows_Filter in H1, H2. done.
Qed.

Lemma Map_Filter_keeps_matching_rows_witness :
  mapM (λ o, (Map_call (Filter (λ r, bool_decide (r !! "first" = Some (VInt 0))))
                test_heap ([1; 2]%positive, None)).2 !! o)
       (Map_call (Filter (λ r, bool_decide (r !! "first" = Some (VInt 0))))
          test_heap ([1; 2]%positive, None)).1.1
    = Some (filter (λ r, bool_decide (r !! "first" = Some (VInt 0)) = true)
              (contents test_heap [1; 2]%positive)).
Proof.
  refine (proj1 (Map_Filter_keeps_matching_rows
                   (λ r, bool_decide (r !! "first" = Some (VInt 0)))
                   test_heap [1; 2]%positive None _)).
  repeat constructor; by vm_compute.
Defined.

(** X21: [Map] with [Project], on rows that have all the columns: every row
    yielded is the input row restricted to the columns, so its columns
    are exactly those asked for. *)
Theorem Map_Project_keeps_columns (columns : list string) (h : heap)
    (rows : list loc) (fin : option exn) :
  Forall (λ l, l ∈ dom h) rows →
  Forall (λ r, Forall (λ c, is_Some (r !! c)) columns) (contents h rows) →
  mapM (λ o, (Map_call (Project columns) h (rows, fin)).2 !! o)
       (Map_call (Project columns) h (rows, fin)).1.1
    = Some (key_columns columns <$> contents h rows)
  ∧ (Map_call (Project columns) h (rows, fin)).1.2 = fin
  ∧ Forall (λ r, dom r = list_to_set columns)
      (key_columns columns <$> contents h rows).
Proof.
  intros Hrows Hall. unfold Map_call. cbn [fst snd].
  destruct (Map_loop_total (Project columns) (Project_rows columns)
              (key_columns columns) h rows fin (Project_local columns)
              (Project_computes columns) Hrows) as (H1 & H2 & _).
  { eapply Forall_impl; [exact Hall|]. intros r Hr. by apply Project_rows_ok. }
  repeat split; try done.
  apply Forall_fmap. eapply Forall_impl; [exact Hall|].
  intros r Hr. by apply key_columns_dom.
Qed.

Lemma Map_Project_keeps_columns_witness :
  mapM (λ o, (Map_call (Project ["second"; "test_id"]) test_heap
                ([1; 2]%positive, None)).2 !! o)
       (Map_call (Project ["second"; "test_id"]) test_heap
          ([1; 2]%positive, None)).1.1
    = Some (key_columns ["second"; "test_id"]
              <$> contents test_heap [1; 2]%positive).
Proof.
  refine (proj1 (Map_Project_keeps_columns ["second"; "test_id"] test_heap
                   [1; 2]%positive None _ _)).
  - repeat constructor; by vm_compute.
  - repeat constructor; by eexists.
Defined.

(** X22: [Map] with [Product], when the result column is not one of the
    factors and the factors are integers: every row comes out with the
    product of its factor columns in the result column and is unchanged
    otherwise. *)
Theorem Map_Product_multiplies_columns (columns : list string)
    (result_column : string) (h : heap) (rows : list loc)
    (fin : option exn) :
  result_column ∉ columns →
  Forall (λ l, l ∈ dom h) rows →
  Forall (λ r, Forall (λ c, has_int c r) columns) (contents h rows) →
  mapM (λ o, (Map_call (Product columns result_column) h (rows, fin)).2 !! o)
       (Map_call (Product columns result_column) h (rows, fin)).1.1
    = Some ((λ r, <[result_column := VInt (int_product columns r)]> r)
              <$> contents h rows)
  ∧ (Map_call (Product columns result_column) h (rows, fin)).1.2 = fin.
Proof.
  intros Hnot Hrows Hall. unfold Map_call. cbn [fst snd].
  destruct (Map_loop_total (Product columns result_column)
              (Product_rows columns result_column)
              (λ r, <[result_column := VInt (int_product columns r)]> r)
              h rows fin (Product_local _ _) (Product_computes _ _) Hrows)
    as (H1 & H2 & _); [|done].
  eapply Forall_impl; [exact Hall|]. intros r Hr.
  by apply Product_rows_ints.
Qed.

Lemma Map_Product_multiplies_columns_witness :
  mapM (λ o, (Map_call (Product ["first"; "second"] "product") test_heap
                ([1; 2]%positive, None)).2 !! o)
       (Map_call (Product ["first"; "second"] "product") test_heap
          ([1; 2]%positive, None)).1.1
    = Some ((λ r, <["product" := VInt (int_product ["first"; "second"] r)]> r)
              <$> contents test_heap [1; 2]%positive).
Proof.
  refine (proj1 (Map_Product_multiplies_columns ["first"; "second"] "product"
                   test_heap [1; 2]%positive None _ _ _)).
  - intros H. repeat (apply elem_of_cons in H as [H|H]; [discriminate|]).
    by apply elem_of_nil in H.
  - repeat constructor; by vm_compute.
  - repeat constructor; by eexists.
Defined.

(** X23: [Map] with [FilterPunctuation], on rows with a string in the column:
    every row comes out with the characters of [string.punctuation]
    removed from the column, the other characters kept in order, and is
    unchanged otherwise; a text without punctuation stays as it is. *)
Theorem Map_FilterPunctuation_strips (column : string) (h : heap)
    (rows : list loc) (fin : option exn) :
  Forall (λ l, l ∈ dom h) rows →
  Forall (has_text column) (contents h rows) →
  mapM (λ o, (Map_call (FilterPunctuation column) h (rows, fin)).2 !! o)
       (Map_call (FilterPunctuation column) h (rows, fin)).1.1
    = Some ((λ r, <[column := VStr (remove_punctuation (text_of column r))]> r)
              <$> contents h rows)
  ∧ (Map_call (FilterPunctuation column) h (rows, fin)).1.2 = fin
  ∧ (∀ txt, Forall (λ s, s ∉ String.list_ascii_of_string punctuation)
              (String.list_ascii_of_string (remove_punctuation txt)))
  ∧ (∀ txt, Forall (λ s, s ∉ String.list_ascii_of_string punctuation)
              (String.list_ascii_of_string txt) →
            remove_punctuation txt = txt).
Proof.
  intros Hrows Hall. unfold Map_call. cbn [fst snd].
  destruct (Map_loop_total (FilterPunctuation column)
              (FilterPunctuation_rows column)
              (λ r, <[column := VStr (remove_punctuation (text_of column r))]> r)
              h rows fin (FilterPunctuation_local _)
              (FilterPunctuation_computes _) Hrows) as (H1 & H2 & _).
  { eapply Forall_impl; [exact Hall|]. intros r [txt Hr].
    unfold FilterPunctuation_rows, text_of. by rewrite Hr. }
  repeat split; try done.
  - apply remove_punctuation_clean.
  - apply remove_punctuation_keeps.
Qed.

Lemma Map_FilterPunctuation_strips_witness :
  mapM (λ o, (Map_call (FilterPunctuation "text") text_heap
                ([1; 2]%positive, None)).2 !! o)
       (Map_call (FilterPunctuation "text") text_heap
          ([1; 2]%positive, None)).1.1
    = Some ((λ r, <["text" := VStr (remove_punctuation (text_of "text" r))]> r)
              <$> contents text_heap [1; 2]%positive).
Proof.
  refine (proj1 (Map_FilterPunctuation_strips "text" text_heap
                   [1; 2]%positive None _ _)).
  - repeat constructor; by vm_compute.
  - repeat constructor; by eexists.
Defined.

(** X24: [Map] stops at the first row on which the mapper raises: it has
    yielded what the mapper yields for the rows before and for that row up
    to the exception, and reads no row after it. *)
Theorem Map_stops_at_first_exception (mapper : Mapper) (m : row → trace)
    (h : heap) (good : list loc) (l : loc) (rest : list loc)
    (fin : option exn) (e : exn) :
  mapper_local mapper → mapper_computes mapper m →
  Forall (λ l, l ∈ dom h) (good ++ l :: rest) →
  Forall (λ r, (m r).2 = None) (contents h good) →
  (m (h !!! l)).2 = Some e →
  mapM (λ o, (Map_call mapper h (good ++ l :: rest, fin)).2 !! o)
       (Map_call mapper h (good ++ l :: rest, fin)).1.1
    = Some ((contents h good ≫= λ r, (m r).1) ++ (m (h !!! l)).1)
  ∧ (Map_call mapper h (good ++ l :: rest, fin)).1.2 = Some e.
Proof.
  intros Hloc Hcomp Hrows Hgood Hl. unfold Map_call. cbn [fst snd].
  destruct (Map_loop_refines mapper m fin (good ++ l :: rest) h Hloc Hcomp
              Hrows) as (H1 & H2 & _).
  assert (Hc : contents h (good ++ l :: rest)
               = contents h good ++ h !!! l :: contents h rest)
    by (unfold contents; by rewrite fmap_app).
  rewrite Hc in H1, H2.
  rewrite (Map_rows_stops m _ _ _ fin e Hgood Hl) in H1, H2. done.
Qed.

Lemma Map_stops_at_first_exception_witness :
  (Map_call (Project ["first"]) (<[3%positive := ∅]> test_heap)
     ([1; 3; 2]%positive, None)).1.2 = Some KeyError.
Proof.
  refine (proj2 (Map_stops_at_first_exception (Project ["first"])
                   (Project_rows ["first"]) (<[3%positive := ∅]> test_heap)
                   [1%positive] 3%positive [2%positive] None KeyError
                   (Project_local _) (Project_computes _) _ _ _)).
  - repeat constructor; by vm_compute.
  - repeat constructor.
  - done.
Defined.

(** The examples in the docstrings of [Count] and [Sum]. *)
Example Count_docstring :
  run_on (Count "d" ["a"])
    ([row_of [("a", VInt 1); ("b", VInt 5); ("c", VInt 2)];
      row_of [("a", VInt 1); ("b", VInt 6); ("c", VInt 1)]], None)
  = ([row_of [("a", VInt 1); ("d", VInt 2)]], None).
Proof. vm_compute. reflexivity. Qed.

Example Sum_docstring :
  run_on (Sum "b" ["a"])
    ([row_of [("a", VInt 1); ("b", VInt 2); ("c", VInt 4)];
      row_of [("a", VInt 1); ("b", VInt 3); ("c", VInt 5)]], None)
  = ([row_of [("a", VInt 1); ("b", VInt 5)]], None).
Proof. vm_compute. reflexivity. Qed.
